(** * Traversal-order planner of RedisGraph, embedded in Rocq

    Source files covered:
    - [src/execution_plan/optimizations/traverse_order.c]
    - the conditional variable-length traverse operator
      ([op_cond_var_len_traverse.c])
    - the thread pools ([src/util/thpool/pools.c])

    C functions become Rocq functions in the [option] monad: [None] stands for
    a run that does not return normally (NULL dereference, read outside an
    array, failed [ASSERT]).  Arrays of expression pointers are lists of
    expression values that carry the identity of the object they denote. *)

From Stdlib Require Import ZArith Lia String.
From stdpp Require Import base option list gmap strings.

(** ** C integers *)

Module CInt.

Definition INT_MAX : Z := 2147483647.
Definition INT_MIN : Z := -2147483648.

(** value of a 32-bit [unsigned] after wrap-around *)
Definition to_uint (z : Z) : Z := z mod 2 ^ 32.

(** value of a 32-bit [int] after wrap-around (two's complement) *)
Definition to_int (z : Z) : Z := (z + 2 ^ 31) mod 2 ^ 32 - 2 ^ 31.

(** value of a 64-bit [unsigned long] after wrap-around *)
Definition to_ulong (z : Z) : Z := z mod 2 ^ 64.

Definition in_int (z : Z) : Prop := (INT_MIN <= z <= INT_MAX)%Z.

End CInt.
Export CInt.

(** ** The collaborators of the planner *)

(** Modelled from the spec: the operation kinds are declared in
    [arithmetic/algebraic_expression.h]; the planner only counts transposes. *)
Inductive AL_EXP_OP := AL_EXP_TRANSPOSE.

(** Modelled from the spec: the expression type is declared in
    [arithmetic/algebraic_expression.h].  An expression carries a source and
    a destination alias, an optional edge alias, its operand count, the
    number of transpose operations in its tree and whether it is in
    transposed form: this is what the getters return.  [ae_id] is the
    identity of the expression object (its address). *)
Record AlgebraicExpression := mkAE {
  ae_id : nat;
  ae_source : string;
  ae_destination : string;
  ae_edge : option string;
  ae_operand_count : Z;
  ae_transpose_count : Z;
  ae_transposed : bool
}.

Definition AlgebraicExpression_Source (exp : AlgebraicExpression) : string :=
  ae_source exp.
Definition AlgebraicExpression_Destination (exp : AlgebraicExpression) : string :=
  ae_destination exp.
Definition AlgebraicExpression_Edge (exp : AlgebraicExpression) : option string :=
  ae_edge exp.
Definition AlgebraicExpression_OperandCount (exp : AlgebraicExpression) : Z :=
  ae_operand_count exp.
Definition AlgebraicExpression_OperationCount
    (exp : AlgebraicExpression) (op : AL_EXP_OP) : Z :=
  match op with AL_EXP_TRANSPOSE => ae_transpose_count exp end.
Definition AlgebraicExpression_Transposed (exp : AlgebraicExpression) : bool :=
  ae_transposed exp.

(** Modelled from the spec: [AlgebraicExpression_Transpose] is defined in the
    expression module, whose code is not at hand.  The spec
    describes it as an in-place transpose that swaps source and destination
    and toggles [is_transposed]; the object stays the same. *)
Definition AlgebraicExpression_Transpose
    (exp : AlgebraicExpression) : AlgebraicExpression :=
  {| ae_id := ae_id exp;
     ae_source := ae_destination exp;
     ae_destination := ae_source exp;
     ae_edge := ae_edge exp;
     ae_operand_count := ae_operand_count exp;
     ae_transpose_count := ae_transpose_count exp;
     ae_transposed := negb (ae_transposed exp) |}.

(** Modelled from the spec: [RG_STRCMP] comes from [util/strcmp.h]; aliases
    are compared byte by byte, the result is zero exactly for equal strings. *)
Definition RG_STRCMP (a b : string) : Z :=
  match String.compare a b with
  | Eq => 0
  | Lt => -1
  | Gt => 1
  end.

(** C truth value of [!x] *)
Definition c_not (x : Z) : bool := (x =? 0)%Z.

(** Modelled from the spec: nodes, edges and the query graph are declared in
    [graph/query_graph.h].  The planner reads the optional label of a node
    found by alias; the traverse operator reads the alias, the hop bounds and
    the bidirectional flag of an edge found by alias. *)
Record QGNode := mkNode { label : option string }.

(** [n->label != NULL] *)
Definition has_label (n : QGNode) : bool :=
  match label n with Some _ => true | None => false end.

Record QGEdge := mkEdge {
  alias : string;
  bidirectional : bool;
  minHops : Z;
  maxHops : Z
}.

Record QueryGraph := mkQG {
  qg_nodes : gmap string QGNode;
  qg_edges : gmap string QGEdge
}.

(** NULL when the alias is unknown *)
Definition QueryGraph_GetNodeByAlias (qg : QueryGraph) (a : string) : option QGNode :=
  qg_nodes qg !! a.
Definition QueryGraph_GetEdgeByAlias (qg : QueryGraph) (a : string) : option QGEdge :=
  qg_edges qg !! a.

(** A rax used as a set of aliases; [raxFind s k != raxNotFound]. *)
Abbreviation rax := (gset string).
Definition raxFound (s : rax) (key : string) : bool := bool_decide (key ∈ s).

(** Modelled from the spec: the filter tree is opaque; the planner only
    extracts from it the set of aliases that the filters reference. *)
Record FT_FilterNode := mkFilters { ft_modified : list string }.
Definition FilterTree_CollectModified (filters : FT_FilterNode) : rax :=
  list_to_set (ft_modified filters).

(** ** Loops *)

(** [for (x in xs) s = body x s], leaving at the first failure *)
Fixpoint for_each {A St : Type} (body : A -> St -> option St) (xs : list A) (s : St)
  : option St :=
  match xs with
  | [] => Some s
  | x :: xs' => s' ← body x s; for_each body xs' s'
  end.

(** [for (j = i - 1; j >= 0; j--) if (test arr[j]) break;] and the answer to
    "was the loop left by the break?" ([j >= 0] after the loop) *)
Fixpoint scan_previous {A : Type} (test : A -> bool) (arr : list A) (i : nat)
  : option bool :=
  match i with
  | O => Some false
  | S j => prev ← arr !! j;
           if test prev then Some true else scan_previous test arr j
  end.

(** ** Arrays *)

(** Modelled from the spec: [array_len] comes from [util/arr.h].  The spec
    speaks of lists and their length; every caller in the sources keeps the
    result in a 32-bit [uint], and that is the value the model gives it. *)
Definition array_len {A : Type} (arr : list A) : Z := to_uint (Z.of_nat (length arr)).

(** [arr[i]] for an [int] counter that has been incremented [i] times from 0:
    past [INT_MAX] the counter has wrapped around to a negative value and the
    read is outside the array *)
Definition int_index {A : Type} (arr : list A) (i : nat) : option A :=
  if (Z.of_nat i <=? INT_MAX)%Z then arr !! i else None.

Module TraverseOrder.

Definition T : Z := 1.          (* Transpose penalty. *)
Definition L : Z := 2 * T.      (* Label score. *)
Definition F : Z := 4 * T.      (* Filter score. *)
Definition B : Z := 8 * F.      (* Bound variable bonus. *)

Abbreviation Arrangement := (list AlgebraicExpression).

(** clone arrangement: copies [size] pointers *)
Definition _Arrangement_Clone (arrangement : Arrangement) (size : nat)
  : option Arrangement :=
  if decide (size <= length arrangement) then Some (take size arrangement) else None.

(** computes x!, in [unsigned long] *)
Definition _factorial (x : nat) : Z :=
  fold_left (fun res i => to_ulong (res * Z.of_nat i)) (seq 2 (x - 1)) 1%Z.

(** swaps exps[i] with exps[j] *)
Definition _swap (exps : Arrangement) (i j : nat) : option Arrangement :=
  temp ← exps !! i;
  ej ← exps !! j;
  Some (<[j := temp]> (<[i := ej]> exps)).

(** computes all permutations of set exps; returns the working array and the
    list of permutations.  The recursion of the C function goes from [l] up to
    [r]; [fuel] bounds its depth. *)
Fixpoint _permute (fuel : nat) (set : Arrangement) (l r : nat)
    (permutations : list Arrangement) : option (Arrangement * list Arrangement) :=
  if l =? r then
    permutation ← _Arrangement_Clone set (r + 1);
    Some (set, permutations ++ [permutation])
  else
    match fuel with
    | O => None
    | S fuel' =>
        for_each (fun i '(set, permutations) =>
                    set ← _swap set l i;
                    '(set, permutations) ← _permute fuel' set (l + 1) r permutations;
                    set ← _swap set l i;     (* backtrack. *)
                    Some (set, permutations))
                 (seq l (r + 1 - l)) (set, permutations)
    end.

(** computes all possible permutations of exps.  The bounds [l] and [r] of
    [_permute] are natural numbers in the model; the one call with a negative
    bound is the call on the empty array, [r = -1], where [_permute] finds
    [l != r], does not enter its loop and returns without a permutation. *)
Definition _permutations (exps : Arrangement) : option (list Arrangement) :=
  let exps_count := length exps in
  (* Number of permutations of a set S is |S|!. *)
  let permutation_count := _factorial exps_count in
  (* Compute permutations. *)
  '(_, permutations) ←
    (if exps_count =? 0 then Some (exps, [])
     else _permute exps_count exps 0 (exps_count - 1) []);
  if (array_len permutations =? permutation_count)%Z   (* ASSERT *)
  then Some permutations else None.

(** the test of the scan in [_valid_arrangement]: [prev_exp] and [exp] have
    an endpoint in common *)
Definition shares_endpoint (exp prev_exp : AlgebraicExpression) : bool :=
  let exp_src := AlgebraicExpression_Source exp in
  let exp_dest := AlgebraicExpression_Destination exp in
  let prev_exp_src := AlgebraicExpression_Source prev_exp in
  let prev_exp_dest := AlgebraicExpression_Destination prev_exp in
  c_not (RG_STRCMP prev_exp_src exp_src) ||
  c_not (RG_STRCMP prev_exp_dest exp_src) ||
  c_not (RG_STRCMP prev_exp_src exp_dest) ||
  c_not (RG_STRCMP prev_exp_dest exp_dest).

(** the test of the scans in [_penalty_arrangement] and
    [_resolve_winning_sequence]: [prev_exp] resolves the source [src] *)
Definition resolves_source (src : string) (prev_exp : AlgebraicExpression) : bool :=
  c_not (RG_STRCMP (AlgebraicExpression_Source prev_exp) src) ||
  c_not (RG_STRCMP (AlgebraicExpression_Destination prev_exp) src).

(** the loop [for(int i = 1; i < exps_count; i++)] of [_valid_arrangement] *)
Fixpoint _valid_chain (arrangement : Arrangement) (idx : list nat) : option bool :=
  match idx with
  | [] => Some true
  | i :: idx' =>
      exp ← arrangement !! i;
      found ← scan_previous (shares_endpoint exp) arrangement i;
      if found : bool then _valid_chain arrangement idx'
      else Some false                       (* if(j < 0) return false; *)
  end.

(** A valid arrangement of expressions is one in which the ith expression
    source or destination nodes appear in a previous expression k where k < i. *)
Definition _valid_arrangement (arrangement : Arrangement) (qg : QueryGraph)
  : option bool :=
  let exps_count := length arrangement in
  exp ← arrangement !! 0;
  let src := QueryGraph_GetNodeByAlias qg (AlgebraicExpression_Source exp) in
  let dest := QueryGraph_GetNodeByAlias qg (AlgebraicExpression_Destination exp) in
  (* src->label || dest->label *)
  labelled ← (s ← src;
              if has_label s then Some true
              else d ← dest; Some (has_label d));
  if (labelled : bool) && bool_decide (is_Some (AlgebraicExpression_Edge exp)) &&
     (AlgebraicExpression_OperandCount exp =? 1)%Z
  then Some false
  else _valid_chain arrangement (seq 1 (exps_count - 1)).

Definition _penalty_arrangement (maintain_transpose : bool)
    (arrangement : Arrangement) : option Z :=
  let exp_count := length arrangement in
  let penalty := 0%Z in
  (* see if graph maintains transpose matrices
     if it does, there's no penalty *)
  if maintain_transpose then Some 0%Z
  else
    (* account for first expression transposes *)
    exp ← arrangement !! 0;
    let transpose_count :=
      to_uint (AlgebraicExpression_OperationCount exp AL_EXP_TRANSPOSE) in
    let penalty := to_int (penalty + to_uint (transpose_count * T)) in
    for_each
      (fun i penalty =>
         exp ← arrangement !! i;
         (* see if source is already resolved *)
         src_resolved ←
           scan_previous (resolves_source (AlgebraicExpression_Source exp)) arrangement i;
         if src_resolved : bool then
           (* count how many transposes are performed *)
           let transpose_count :=
             to_uint (AlgebraicExpression_OperationCount exp AL_EXP_TRANSPOSE) in
           Some (to_int (penalty + to_uint (transpose_count * T)))
         else
           (* count how many transposes we require to perform *)
           let transpose_count :=
             to_uint (AlgebraicExpression_OperationCount exp AL_EXP_TRANSPOSE) in
           let operand_count := to_uint (AlgebraicExpression_OperandCount exp) in
           Some (to_int (penalty + to_uint (to_uint (operand_count - transpose_count) * T))))
      (seq 1 (exp_count - 1)) penalty.

Definition _reward_expression (exp : AlgebraicExpression) (qg : QueryGraph)
    (filtered_entities : rax) (bound_vars : option rax) (reward_factor : Z)
  : option Z :=
  let reward := 0%Z in
  let src := AlgebraicExpression_Source exp in
  let dest := AlgebraicExpression_Destination exp in
  (* Reward bound variables such that any expression with a bound variable
     will be preferred over any expression without. *)
  let reward :=
    match bound_vars with
    | Some bound_vars =>
        let reward :=
          if raxFound bound_vars src
          then to_int (reward + to_uint (B * reward_factor)) else reward in
        if raxFound bound_vars dest
        then to_int (reward + to_uint (B * reward_factor)) else reward
    | None => reward
    end in
  (* Reward filters in expression. *)
  let reward :=
    if raxFound filtered_entities src
    then to_int (reward + to_uint (F * reward_factor)) else reward in
  let reward :=
    if raxFound filtered_entities dest
    then to_int (reward + to_uint (F * reward_factor)) else reward in
  src_node ← QueryGraph_GetNodeByAlias qg src;
  let reward :=
    if has_label src_node
    then to_int (reward + to_uint (L * reward_factor)) else reward in
  Some reward.

Definition _reward_arrangement (arrangement : Arrangement) (qg : QueryGraph)
    (filtered_entities : rax) (bound_vars : option rax) : option Z :=
  let exp_count := length arrangement in
  for_each
    (fun i reward =>
       let reward_factor := to_uint (Z.of_nat exp_count - Z.of_nat i) in
       exp ← arrangement !! i;
       r ← _reward_expression exp qg filtered_entities bound_vars reward_factor;
       Some (to_int (reward + r)))
    (seq 0 exp_count) 0%Z.

Definition _score_arrangement (maintain_transpose : bool)
    (arrangement : Arrangement) (qg : QueryGraph)
    (filtered_entities : rax) (bound_vars : option rax) : option Z :=
  let score := 0%Z in
  penalty ← _penalty_arrangement maintain_transpose arrangement;
  let score := to_int (score - penalty) in
  reward ← _reward_arrangement arrangement qg filtered_entities bound_vars;
  let score := to_int (score + reward) in
  Some score.

(** Transpose out-of-order expressions
    such that each expresson's source is resolved by a previous expression. *)
Definition _resolve_winning_sequence (exps : Arrangement) : option Arrangement :=
  let exp_count := length exps in
  for_each
    (fun i exps =>
       exp ← exps !! i;
       let src := AlgebraicExpression_Source exp in
       (* see if source is already resolved *)
       src_resolved ← scan_previous (resolves_source src) exps i;
       if src_resolved : bool then Some exps
       else Some (<[i := AlgebraicExpression_Transpose exp]> exps))
    (seq 1 (exp_count - 1)) exps.

(** Having chosen which algebraic expression will be evaluated first,
    determine whether it is worthwhile to transpose it
    and thus swap the source and destination.  Returns the new [*ae]. *)
Definition _select_entry_point (qg : QueryGraph) (ae : AlgebraicExpression)
    (filtered_entities : rax) (bound_vars : option rax)
  : option AlgebraicExpression :=
  let exp := ae in
  let src := AlgebraicExpression_Source exp in
  let dest := AlgebraicExpression_Destination exp in
  (* MATCH (a)-[]->(a) *)
  if (AlgebraicExpression_OperandCount exp =? 1)%Z && c_not (RG_STRCMP src dest)
  then Some ae
  else
    (* always start at a bound variable if one is present *)
    let heuristics :=
      let src_score := 0%Z in
      let dest_score := 0%Z in
      (* see if either source or destination nodes are filtered *)
      let src_score := (src_score + if raxFound filtered_entities src then F else 0)%Z in
      let dest_score := (dest_score + if raxFound filtered_entities dest then F else 0)%Z in
      (* see if either source or destination nodes are labeled *)
      src_node ← QueryGraph_GetNodeByAlias qg src;
      let src_score := (src_score + if has_label src_node then L else 0)%Z in
      dest_node ← QueryGraph_GetNodeByAlias qg dest;
      let dest_score := (dest_score + if has_label dest_node then L else 0)%Z in
      (* if the destination is a superior starting point, transpose expression *)
      if (src_score <? dest_score)%Z then Some (AlgebraicExpression_Transpose ae)
      else Some ae in
    match bound_vars with
    | Some bound_vars =>
        if raxFound bound_vars src then Some ae
        else if raxFound bound_vars dest then Some (AlgebraicExpression_Transpose ae)
        else heuristics
    | None => heuristics
    end.

(** What [orderExpressions] does besides rewriting [exps], in program order. *)
Inductive Event :=
| Ev_CollectModified             (* FilterTree_CollectModified(filters) *)
| Ev_Permutations (count : nat)  (* _permutations(exps, exp_count) *)
| Ev_raxFree                     (* raxFree(filtered_entities) *)
| Ev_ArrangementsFree (count : nat).

(** Given a set of algebraic expressions representing a graph traversal
    we pick the order in which the expressions will be evaluated
    taking into account filters and transposes.
    exps will reordered.

    [maintain_transpose] is the value of the configuration option
    [Config_MAINTAIN_TRANSPOSE]; the result is the array [exps] after the call
    and the trace of events. *)
Definition orderExpressions (maintain_transpose : bool) (qg : QueryGraph)
    (exps : Arrangement) (filters : FT_FilterNode) (bound_vars : option rax)
  : option (Arrangement * list Event) :=
  let exp_count := length exps in
  if negb (0 <? exp_count) then None                      (* ASSERT *)
  else
    exps0 ← exps !! 0;
    (* Return early if we only have one expression that represents a scan
       rather than a traversal. *)
    if (exp_count =? 1) && (AlgebraicExpression_OperandCount exps0 =? 1)%Z &&
       c_not (RG_STRCMP (AlgebraicExpression_Source exps0)
                        (AlgebraicExpression_Destination exps0))
    then Some (exps, [])
    else
      (* Collect all filtered aliases. *)
      let filtered_entities := FilterTree_CollectModified filters in
      (* Compute all possible permutations of algebraic expressions. *)
      arrangements ← _permutations exps;
      let arrangement_count := array_len arrangements in      (* uint *)
      exps ←
        (if (arrangement_count =? 1)%Z then Some exps   (* goto select_entry_point *)
         else
           (* Remove invalid arrangements. *)
           valid_arrangements ←
             for_each (fun i valid_arrangements =>
                         arrangement ← int_index arrangements i;     (* int i *)
                         ok ← _valid_arrangement arrangement qg;
                         Some (if ok : bool then valid_arrangements ++ [arrangement]
                               else valid_arrangements))
                      (seq 0 (Z.to_nat arrangement_count)) [];
           let valid_arrangement_count := array_len valid_arrangements in   (* uint *)
           if negb (0 <? valid_arrangement_count)%Z then None   (* ASSERT *)
           else
             (* Score each arrangement,
                keep track after arrangement with highest score. *)
             let max_score := INT_MIN in
             top_arrangement ← valid_arrangements !! 0;
             '(_, top_arrangement) ←
               for_each (fun i '(max_score, top_arrangement) =>
                           arrangement ← valid_arrangements !! i;    (* uint i *)
                           score ← _score_arrangement maintain_transpose arrangement qg
                                     filtered_entities bound_vars;
                           if (max_score <? score)%Z then Some (score, arrangement)
                           else Some (max_score, top_arrangement))
                        (seq 0 (Z.to_nat valid_arrangement_count))
                        (max_score, top_arrangement);
             (* Update input. *)
             exps ← for_each (fun i exps =>
                                e ← top_arrangement !! i;
                                Some (<[i := e]> exps))
                             (seq 0 exp_count) exps;
             (* Depending on how the expressions have been ordered, we may have
                to transpose expressions so that their source nodes have
                already been resolved by previous expressions. *)
             _resolve_winning_sequence exps);
      (* Transpose the winning expression if the destination node is a more
         efficient starting place. *)
      e0 ← exps !! 0;
      e0 ← _select_entry_point qg e0 filtered_entities bound_vars;
      Some (<[0 := e0]> exps,
            [Ev_CollectModified; Ev_Permutations (Z.to_nat arrangement_count);
             Ev_raxFree; Ev_ArrangementsFree (Z.to_nat arrangement_count)]).

End TraverseOrder.

(** * The conditional variable-length traverse operator *)

Module CondVarLenTraverseOp.

Inductive GRAPH_EDGE_DIR :=
| GRAPH_EDGE_DIR_INCOMING
| GRAPH_EDGE_DIR_OUTGOING
| GRAPH_EDGE_DIR_BOTH.

Inductive OPType :=
| OPType_CONDITIONAL_VAR_LEN_TRAVERSE
| OPType_CONDITIONAL_VAR_LEN_TRAVERSE_EXPAND_INTO.

Record ExecutionPlan := mkPlan { query_graph : QueryGraph }.

(** OP Traverse.  The graph handle, the current record and the paths context
    play no part below and are left out; [None] in [traverseDir] is the field
    as [rm_malloc] leaves it, before a direction is assigned. *)
Record CondVarLenTraverse := mkOp {
  op_type : OPType;
  op_name : string;
  ft : option FT_FilterNode;
  ae : AlgebraicExpression;
  srcNodeIdx : Z;
  edgesIdx : Z;
  destNodeIdx : Z;
  expandInto : bool;
  edgeRelationTypes : option (list Z);
  traverseDir : option GRAPH_EDGE_DIR
}.

Definition set_traverseDir (op : CondVarLenTraverse) (d : GRAPH_EDGE_DIR)
  : CondVarLenTraverse :=
  {| op_type := op_type op; op_name := op_name op; ft := ft op; ae := ae op;
     srcNodeIdx := srcNodeIdx op; edgesIdx := edgesIdx op;
     destNodeIdx := destNodeIdx op; expandInto := expandInto op;
     edgeRelationTypes := edgeRelationTypes op; traverseDir := Some d |}.

(** Set the traversal direction to match the traversed edge and
    AlgebraicExpression form. *)
Definition _setTraverseDirection (op : CondVarLenTraverse) (e : QGEdge)
  : CondVarLenTraverse :=
  if bidirectional e then set_traverseDir op GRAPH_EDGE_DIR_BOTH
  else if AlgebraicExpression_Transposed (ae op)
       then (* traverse in the opposite direction, (dest)->(src) incoming edges *)
         set_traverseDir op GRAPH_EDGE_DIR_INCOMING
       else set_traverseDir op GRAPH_EDGE_DIR_OUTGOING.

Section constructor.

(** The record layout of the plan and the AST belong to other modules; the
    constructor only needs their answers.
    [OpBase_Aware alias] is the record index of [alias] when the operation is
    aware of it, [OpBase_Modifies alias] the index the operation writes
    [alias] to, [AST_AliasIsReferenced alias] whether the query refers to
    [alias]. *)
Variable OpBase_Aware : string -> option Z.
Variable OpBase_Modifies : string -> Z.
Variable AST_AliasIsReferenced : string -> bool.

Definition NewCondVarLenTraverseOp (plan : ExecutionPlan) (ae : AlgebraicExpression)
  : option CondVarLenTraverse :=
  (* ASSERT(aware) *)
  srcNodeIdx ← OpBase_Aware (AlgebraicExpression_Source ae);
  let destNodeIdx := OpBase_Modifies (AlgebraicExpression_Destination ae) in
  (* populate edge value in record only if it is referenced *)
  edge_alias ← AlgebraicExpression_Edge ae;
  e ← QueryGraph_GetEdgeByAlias (query_graph plan) edge_alias;
  let edgesIdx :=
    if AST_AliasIsReferenced (alias e) then OpBase_Modifies (alias e) else (-1)%Z in
  let op :=
    {| op_type := OPType_CONDITIONAL_VAR_LEN_TRAVERSE;
       op_name := "Conditional Variable Length Traverse";
       ft := None;
       ae := ae;
       srcNodeIdx := srcNodeIdx;
       edgesIdx := edgesIdx;
       destNodeIdx := destNodeIdx;
       expandInto := false;
       edgeRelationTypes := None;
       traverseDir := None |} in
  Some (_setTraverseDirection op e).

End constructor.

End CondVarLenTraverseOp.

(** * The traverse operator after construction *)

Module TraverseOperator.
Import CondVarLenTraverseOp.

(** the hop bounds and the relation count of the operation, which
    [_setupTraversedRelations] fills in at the first call to consume *)
Record Hops := mkHops {
  op_minHops : Z;
  op_maxHops : Z;
  edgeRelationCount : Z
}.

Definition set_edgeRelationTypes (op : CondVarLenTraverse) (types : list Z)
  : CondVarLenTraverse :=
  {| op_type := op_type op; op_name := op_name op; ft := ft op; ae := ae op;
     srcNodeIdx := srcNodeIdx op; edgesIdx := edgesIdx op;
     destNodeIdx := destNodeIdx op; expandInto := expandInto op;
     edgeRelationTypes := Some types; traverseDir := traverseDir op |}.

(** [modifies] is [op.modifies] of the embedded [OpBase], the aliases the
    operation writes; [array_clear] empties it. *)
Definition CondVarLenTraverseOp_ExpandInto (modifies : list string)
    (op : CondVarLenTraverse) : list string * CondVarLenTraverse :=
  (* Expand into doesn't performs any modifications. *)
  ([],
   {| op_type := OPType_CONDITIONAL_VAR_LEN_TRAVERSE_EXPAND_INTO;
      op_name := "Conditional Variable Length Traverse (Expand Into)";
      ft := ft op; ae := ae op;
      srcNodeIdx := srcNodeIdx op; edgesIdx := edgesIdx op;
      destNodeIdx := destNodeIdx op; expandInto := true;
      edgeRelationTypes := edgeRelationTypes op; traverseDir := traverseDir op |}).

(** both pointers may be NULL *)
Definition CondVarLenTraverseOp_SetFilter (op : option CondVarLenTraverse)
    (filter : option FT_FilterNode) : option CondVarLenTraverse :=
  op ← op;                                   (* ASSERT(op != NULL) *)
  filter ← filter;                           (* ASSERT(ft != NULL) *)
  match ft op with
  | Some _ => None                           (* ASSERT(op->ft == NULL) *)
  | None =>
    Some {| op_type := op_type op; op_name := op_name op; ft := Some filter;
            ae := ae op; srcNodeIdx := srcNodeIdx op; edgesIdx := edgesIdx op;
            destNodeIdx := destNodeIdx op; expandInto := expandInto op;
            edgeRelationTypes := edgeRelationTypes op;
            traverseDir := traverseDir op |}
  end.

Section operator.

Variable OpBase_Aware : string -> option Z.
Variable OpBase_Modifies : string -> Z.
Variable AST_AliasIsReferenced : string -> bool.

(** The relation types of an edge, [e->reltypeIDs] and [e->reltypes], belong
    to the query graph module, as do the two reserved relation ids;
    [GraphContext_GetSchema rel_type] is the id of the edge schema named
    [rel_type], if the graph has one.  [AlgebraicExpression_Clone] comes with
    the expression module. *)
Variable reltypeIDs : QGEdge -> list Z.
Variable reltypes : QGEdge -> list string.
Variable GRAPH_NO_RELATION : Z.
Variable GRAPH_UNKNOWN_RELATION : Z.
Variable GraphContext_GetSchema : string -> option Z.
Variable AlgebraicExpression_Clone : AlgebraicExpression -> AlgebraicExpression.

(** one round of the loop over the edge's relation types *)
Definition relation_body (e : QGEdge) (i : nat) (types : list Z) : option (list Z) :=
  rel_id ← reltypeIDs e !! i;
  if negb (rel_id =? GRAPH_UNKNOWN_RELATION)%Z then Some (types ++ [rel_id])
  else
    rel_type ← reltypes e !! i;
    match GraphContext_GetSchema rel_type with
    | Some id => Some (types ++ [id])
    | None => Some types
    end.

(** [plan] is [op->op.plan] *)
Definition _setupTraversedRelations (plan : ExecutionPlan) (op : CondVarLenTraverse)
  : option (CondVarLenTraverse * Hops) :=
  edge_alias ← AlgebraicExpression_Edge (ae op);
  e ← QueryGraph_GetEdgeByAlias (query_graph plan) edge_alias;
  if negb (minHops e <=? maxHops e)%Z then None   (* ASSERT *)
  else
    let reltype_count := length (reltypeIDs e) in
    if reltype_count =? 0 then
      Some (set_edgeRelationTypes op [GRAPH_NO_RELATION],
            mkHops (minHops e) (maxHops e) 1)
    else
      types ← for_each (relation_body e) (seq 0 reltype_count) [];
      Some (set_edgeRelationTypes op types,
            mkHops (minHops e) (maxHops e) (to_int (Z.of_nat (length types)))).

Definition CondVarLenTraverseClone (plan : ExecutionPlan) (opBase : CondVarLenTraverse)
  : option CondVarLenTraverse :=
  match op_type opBase with
  | OPType_CONDITIONAL_VAR_LEN_TRAVERSE =>
    NewCondVarLenTraverseOp OpBase_Aware OpBase_Modifies AST_AliasIsReferenced
      plan (AlgebraicExpression_Clone (ae opBase))
  | _ => None                                (* ASSERT *)
  end.

End operator.

End TraverseOperator.

(** * Thread pools *)

Module ThreadPools.

Section pools.

(** The pool library [thpool] is used through its interface: [threadpool] is
    its handle type, [thpool_init] returns NULL when the pool cannot be
    created, [thpool_get_thread_id] is the position of a thread in a pool. *)
Variable threadpool : Type.
Variable pthread_t : Type.
Variable thpool_init : Z -> string -> option threadpool.
Variable thpool_num_threads : threadpool -> Z.
Variable thpool_get_thread_id : threadpool -> pthread_t -> Z.

(** the three file-level handles *)
Record Pools := mkPools {
  _bulk_thpool : option threadpool;
  _readers_thpool : option threadpool;
  _writers_thpool : option threadpool
}.

(** set up thread pools (readers and writers);
    returns 1 if thread pools initialized, 0 otherwise *)
Definition ThreadPools_CreatePools (P : Pools) (reader_count writer_count bulk_count : Z)
  : option (Z * Pools) :=
  match _readers_thpool P, _writers_thpool P with
  | None, None =>
    let P1 := mkPools (_bulk_thpool P) (thpool_init reader_count "reader")
                (_writers_thpool P) in
    match _readers_thpool P1 with
    | None => Some (0, P1)
    | Some _ =>
      let P2 := mkPools (_bulk_thpool P1) (_readers_thpool P1)
                  (thpool_init writer_count "writer") in
      match _writers_thpool P2 with
      | None => Some (0, P2)
      | Some _ =>
        let P3 := mkPools (thpool_init bulk_count "bulk_loader") (_readers_thpool P2)
                    (_writers_thpool P2) in
        match _bulk_thpool P3 with
        | None => Some (0, P3)
        | Some _ => Some (1, P3)
        end
      end
    end
  | _, _ => None                             (* ASSERT *)
  end%Z.

(** return number of threads in both the readers and writers pools *)
Definition ThreadPools_ThreadCount (P : Pools) : option Z :=
  readers ← _readers_thpool P;
  writers ← _writers_thpool P;
  let count := 0%Z in
  let count := to_uint (count + to_uint (thpool_num_threads readers)) in
  let count := to_uint (count + to_uint (thpool_num_threads writers)) in
  Some count.

(** retrieve the id of thread [pthread] *)
Definition ThreadPools_GetThreadID (P : Pools) (pthread : pthread_t) : option Z :=
  readers ← _readers_thpool P;
  writers ← _writers_thpool P;
  let readers_count := to_int (thpool_num_threads readers) in
  (* search in writers *)
  let thread_id := to_int (thpool_get_thread_id writers pthread) in
  (* compensate for Redis main thread *)
  if negb (thread_id =? -1)%Z then Some (to_int (to_int (readers_count + thread_id) + 1))
  else
    (* search in readers pool *)
    let thread_id := to_int (thpool_get_thread_id readers pthread) in
    if negb (thread_id =? -1)%Z then Some (to_int (thread_id + 1))
    else Some 0%Z.                           (* assuming Redis main thread *)

End pools.

End ThreadPools.

(** * Specification-side definitions *)

Module Spec.
Import TraverseOrder.
Import CondVarLenTraverseOp.

(** ** Validity of an arrangement *)

(** the expression [prev] shares an endpoint with [exp] *)
Definition shares_endpoint_rel (prev exp : AlgebraicExpression) : Prop :=
  AlgebraicExpression_Source prev = AlgebraicExpression_Source exp \/
  AlgebraicExpression_Destination prev = AlgebraicExpression_Source exp \/
  AlgebraicExpression_Source prev = AlgebraicExpression_Destination exp \/
  AlgebraicExpression_Destination prev = AlgebraicExpression_Destination exp.

(** chaining rule: every position [i >= 1] has a predecessor that shares an
    endpoint with it *)
Definition chaining_rule (arr : Arrangement) : Prop :=
  forall i exp, 1 <= i -> arr !! i = Some exp ->
    exists j prev, j < i /\ arr !! j = Some prev /\ shares_endpoint_rel prev exp.

(** the node at alias [a] has a label *)
Definition node_labeled (qg : QueryGraph) (a : string) : Prop :=
  exists n, QueryGraph_GetNodeByAlias qg a = Some n /\ is_Some (label n).

(** opener rule: the first expression is not a bare edge with a labeled
    endpoint *)
Definition opener_rule (qg : QueryGraph) (arr : Arrangement) : Prop :=
  forall e0, arr !! 0 = Some e0 ->
    ~ (is_Some (AlgebraicExpression_Edge e0) /\
       AlgebraicExpression_OperandCount e0 = 1%Z /\
       (node_labeled qg (AlgebraicExpression_Source e0) \/
        node_labeled qg (AlgebraicExpression_Destination e0))).

(** ** Integer arithmetic and scoring *)

Definition Zsum (l : list Z) : Z := foldr Z.add 0%Z l.

Section integers.
Local Open Scope Z_scope.

(** equality modulo 2^32 *)
Definition eqm32 (a b : Z) : Prop := a mod 2 ^ 32 = b mod 2 ^ 32.

(** the alias is in the bound-variable set, when one is supplied *)
Definition is_bound (bound_vars : option rax) (a : string) : bool :=
  match bound_vars with
  | Some bv => bool_decide (a ∈ bv)
  | None => false
  end.

(** the alias is in the filtered-alias set *)
Definition is_filtered (filtered_entities : rax) (a : string) : bool :=
  bool_decide (a ∈ filtered_entities).

(** the node at the alias has a label *)
Definition is_labeled (qg : QueryGraph) (a : string) : bool :=
  match QueryGraph_GetNodeByAlias qg a with
  | Some n => has_label n
  | None => false
  end.

Definition bonus (c : bool) (w : Z) : Z := if c then w else 0.

(** the reward of one expression at weight [factor], in the words of the
    scoring rules *)
Definition reward_expression_spec (qg : QueryGraph) (filtered_entities : rax)
    (bound_vars : option rax) (exp : AlgebraicExpression) (factor : Z) : Z :=
  bonus (is_bound bound_vars (AlgebraicExpression_Source exp)) (B * factor) +
  bonus (is_bound bound_vars (AlgebraicExpression_Destination exp)) (B * factor) +
  bonus (is_filtered filtered_entities (AlgebraicExpression_Source exp)) (F * factor) +
  bonus (is_filtered filtered_entities (AlgebraicExpression_Destination exp)) (F * factor) +
  bonus (is_labeled qg (AlgebraicExpression_Source exp)) (L * factor).

(** the reward of an ordering: the sum over the positions [i] of the reward of
    the expression at [i], weighted by [n - i] *)
Definition reward_spec (qg : QueryGraph) (filtered_entities : rax)
    (bound_vars : option rax) (arr : Arrangement) : Z :=
  let n := Z.of_nat (length arr) in
  Zsum (imap (fun i exp =>
                reward_expression_spec qg filtered_entities bound_vars exp
                  (n - Z.of_nat i)) arr).

Definition transpose_count (exp : AlgebraicExpression) : Z :=
  AlgebraicExpression_OperationCount exp AL_EXP_TRANSPOSE.

Definition operand_count (exp : AlgebraicExpression) : Z :=
  AlgebraicExpression_OperandCount exp.

(** the source of [exp], at position [i] of [arr], matches the source or the
    destination of some predecessor *)
Definition source_resolved (arr : Arrangement) (i : nat)
    (exp : AlgebraicExpression) : Prop :=
  Exists (fun prev =>
            AlgebraicExpression_Source prev = AlgebraicExpression_Source exp \/
            AlgebraicExpression_Destination prev = AlgebraicExpression_Source exp)
         (take i arr).

#[export] Instance source_resolved_dec arr i exp : Decision (source_resolved arr i exp).
Proof. unfold source_resolved. apply _. Defined.

(** what position [i] adds to the penalty *)
Definition penalty_term (arr : Arrangement) (i : nat) (exp : AlgebraicExpression) : Z :=
  match i with
  | O => T * transpose_count exp
  | S _ =>
      if bool_decide (source_resolved arr i exp)
      then T * transpose_count exp
      else T * (operand_count exp - transpose_count exp)
  end.

(** the penalty of an ordering when transposes are not maintained *)
Definition penalty_spec (arr : Arrangement) : Z :=
  Zsum (imap (penalty_term arr) arr).

(** score of an endpoint as a starting place *)
Definition endpoint_score (qg : QueryGraph) (filtered_entities : rax) (a : string) : Z :=
  bonus (is_filtered filtered_entities a) F + bonus (is_labeled qg a) L.

(** the decision tree of phase 2, in the words of the design *)
Definition select_entry_point_spec (qg : QueryGraph) (e0 : AlgebraicExpression)
    (filtered_entities : rax) (bound_vars : option rax) : AlgebraicExpression :=
  let src := AlgebraicExpression_Source e0 in
  let dest := AlgebraicExpression_Destination e0 in
  if decide (AlgebraicExpression_OperandCount e0 = 1 /\ src = dest) then e0
  else if is_bound bound_vars src then e0
  else if is_bound bound_vars dest then AlgebraicExpression_Transpose e0
  else if decide (endpoint_score qg filtered_entities dest >
                  endpoint_score qg filtered_entities src)
       then AlgebraicExpression_Transpose e0
       else e0.

End integers.

(** ** Traversal direction *)

(** the direction that goes with an edge and an expression *)
Definition direction_for (e : QGEdge) (exp : AlgebraicExpression) : GRAPH_EDGE_DIR :=
  if bidirectional e then GRAPH_EDGE_DIR_BOTH
  else if AlgebraicExpression_Transposed exp then GRAPH_EDGE_DIR_INCOMING
       else GRAPH_EDGE_DIR_OUTGOING.

(** ** Permutations *)

(** what the loop of [_permute] at prefix length [l] has appended once the
    positions in [heads] have been swapped to the front *)
Definition permute_block (set : Arrangement) (l count : nat)
    (heads : nat -> Prop) (new : list Arrangement) : Prop :=
  Forall (fun p => p ≡ₚ set) new /\
  length new = count /\
  (forall p, take l p = take l set -> drop l p ≡ₚ drop l set ->
             (exists i, heads i /\ p !! l = set !! i) -> p ∈ new).

(** what a call of [_permute] appends *)
Definition permute_result (set : Arrangement) (l count : nat)
    (new : list Arrangement) : Prop :=
  Forall (fun p => p ≡ₚ set) new /\
  length new = count /\
  (forall p, take l p = take l set -> drop l p ≡ₚ drop l set -> p ∈ new).

(** [fact] computed in binary *)
Fixpoint Zfact (n : nat) : Z :=
  match n with
  | O => 1%Z
  | S n' => (Z.of_nat n * Zfact n')%Z
  end.

(** ** The result of the planner *)

(** [b] is the expression object [a], as it is or transposed *)
Definition same_object (a b : AlgebraicExpression) : Prop :=
  b = a \/ b = AlgebraicExpression_Transpose a.

(** chaining invariant of the result: the source of every expression after
    the first is the source or the destination of an earlier expression *)
Definition chain_resolved (out : Arrangement) : Prop :=
  forall i exp, 1 <= i -> out !! i = Some exp ->
    exists j prev, j < i /\ out !! j = Some prev /\
      (AlgebraicExpression_Source prev = AlgebraicExpression_Source exp \/
       AlgebraicExpression_Destination prev = AlgebraicExpression_Source exp).

(** the state of phase 1 before position [k] is visited *)
Definition resolve_inv (top : Arrangement) (k : nat) (cur : Arrangement) : Prop :=
  length cur = length top /\
  Forall2 same_object top cur /\
  (forall i exp, 1 <= i < k -> cur !! i = Some exp ->
     exists j prev, j < i /\ cur !! j = Some prev /\
       (AlgebraicExpression_Source prev = AlgebraicExpression_Source exp \/
        AlgebraicExpression_Destination prev = AlgebraicExpression_Source exp)) /\
  (forall i, k <= i -> cur !! i = top !! i) /\
  cur !! 0 = top !! 0.

(** the bodies of the loops of [_resolve_winning_sequence] and
    [orderExpressions], named *)
Definition resolve_body (i : nat) (exps : Arrangement) : option Arrangement :=
  exp ← exps !! i;
  let src := AlgebraicExpression_Source exp in
  src_resolved ← scan_previous (resolves_source src) exps i;
  if src_resolved : bool then Some exps
  else Some (<[i := AlgebraicExpression_Transpose exp]> exps).

Definition filter_body (qg : QueryGraph) (arrangement : Arrangement)
    (valid_arrangements : list Arrangement) : option (list Arrangement) :=
  ok ← _valid_arrangement arrangement qg;
  Some (if ok : bool then valid_arrangements ++ [arrangement] else valid_arrangements).

Definition best_body (maintain_transpose : bool) (qg : QueryGraph)
    (filtered_entities : rax) (bound_vars : option rax)
    (arrangement : Arrangement) (st : Z * Arrangement) : option (Z * Arrangement) :=
  let '(max_score, top_arrangement) := st in
  score ← _score_arrangement maintain_transpose arrangement qg
            filtered_entities bound_vars;
  if (max_score <? score)%Z then Some (score, arrangement)
  else Some (max_score, top_arrangement).

Definition copy_body (top_arrangement : Arrangement) (i : nat) (exps : Arrangement)
  : option Arrangement :=
  e ← top_arrangement !! i; Some (<[i := e]> exps).

(** the three ways in which [orderExpressions] returns *)
Inductive run_shape (qg : QueryGraph) (filters : FT_FilterNode)
    (bound_vars : option rax) (exps out : Arrangement) (tr : list Event) : Prop :=
| run_fast e :
    exps = [e] -> out = [e] -> tr = [] ->
    AlgebraicExpression_OperandCount e = 1%Z ->
    AlgebraicExpression_Source e = AlgebraicExpression_Destination e ->
    run_shape qg filters bound_vars exps out tr
| run_single e e' :
    exps = [e] -> out = [e'] ->
    ~ (AlgebraicExpression_OperandCount e = 1%Z /\
       AlgebraicExpression_Source e = AlgebraicExpression_Destination e) ->
    _select_entry_point qg e (FilterTree_CollectModified filters) bound_vars = Some e' ->
    run_shape qg filters bound_vars exps out tr
| run_general top res e0 e0' :
    2 <= length exps ->
    top ≡ₚ exps ->
    _valid_arrangement top qg = Some true ->
    _resolve_winning_sequence top = Some res ->
    res !! 0 = Some e0 ->
    _select_entry_point qg e0 (FilterTree_CollectModified filters) bound_vars = Some e0' ->
    out = <[0 := e0']> res ->
    run_shape qg filters bound_vars exps out tr.

(** every alias of the expressions is a node of the query graph *)
Definition aliases_present (qg : QueryGraph) (exps : Arrangement) : Prop :=
  forall e, e ∈ exps ->
    is_Some (QueryGraph_GetNodeByAlias qg (AlgebraicExpression_Source e)) /\
    is_Some (QueryGraph_GetNodeByAlias qg (AlgebraicExpression_Destination e)).

(** idempotence up to entry-point toggling, as a property of one input: a
    second run keeps the order, changes nothing after the first position and
    at most transposes the first expression *)
Definition idempotent_up_to_entry_point (maintain_transpose : bool)
    (qg : QueryGraph) (filters : FT_FilterNode) (bound_vars : option rax)
    (exps : Arrangement) : Prop :=
  forall out1 tr1 out2 tr2,
    orderExpressions maintain_transpose qg exps filters bound_vars = Some (out1, tr1) ->
    orderExpressions maintain_transpose qg out1 filters bound_vars = Some (out2, tr2) ->
    map ae_id out2 = map ae_id out1 /\
    drop 1 out2 = drop 1 out1 /\
    exists e1 e2, out1 !! 0 = Some e1 /\ out2 !! 0 = Some e2 /\ same_object e1 e2.

(** ** Worked instances *)

(** Node [a] is labeled, [b] and [c] are filtered; [(a)->(b)] and [(c)->(a)]
    are two-operand expressions. *)
Definition reorder_qg : QueryGraph :=
  mkQG (<["a" := mkNode (Some "L")]>
          (<["b" := mkNode None]> (<["c" := mkNode None]> ∅))) ∅.
Definition reorder_filters : FT_FilterNode := mkFilters ["b"; "c"].
Definition reorder_exps : Arrangement :=
  [ mkAE 1 "a" "b" (Some "r1") 2 0 false;
    mkAE 2 "c" "a" (Some "r2") 2 0 false ].

(** the trace of a run that is not the fast path, over [n] arrangements *)
Definition planner_trace (n : nat) : list Event :=
  [Ev_CollectModified; Ev_Permutations n; Ev_raxFree; Ev_ArrangementsFree n].

(** [reorder_exps] after one run and after two runs of the planner *)
Definition reorder_out1 : Arrangement :=
  [ mkAE 1 "b" "a" (Some "r1") 2 0 true;
    mkAE 2 "a" "c" (Some "r2") 2 0 true ].
Definition reorder_out2 : Arrangement :=
  [ mkAE 2 "c" "a" (Some "r2") 2 0 false;
    mkAE 1 "a" "b" (Some "r1") 2 0 false ].

(** a label scan [(a:L)] *)
Definition scan_a : AlgebraicExpression := mkAE 7 "a" "a" None 1 0 false.

(** the pattern [(a:L0)-[:R*]->(b:L1)]: a bare edge and two label scans *)
Definition labeled_qg : QueryGraph :=
  mkQG (<["a" := mkNode (Some "L0")]> (<["b" := mkNode (Some "L1")]> ∅)) ∅.
Definition plain_qg : QueryGraph :=
  mkQG (<["a" := mkNode None]> (<["b" := mkNode None]> ∅)) ∅.
Definition edge_ab : AlgebraicExpression := mkAE 1 "a" "b" (Some "r") 1 0 false.
Definition scan_L0 : AlgebraicExpression := mkAE 2 "a" "a" None 1 0 false.
Definition scan_L1 : AlgebraicExpression := mkAE 3 "b" "b" None 1 0 false.

(** a plan over one directed edge [r1] *)
Definition traverse_plan : ExecutionPlan :=
  mkPlan (mkQG ∅ (<["r1" := mkEdge "r1" false 1 3]> ∅)).

(** ** Further descriptions of the planner *)

(** what phase 1 makes of an arrangement: every expression after the first
    whose source is not the source or destination of a predecessor is
    transposed *)
Definition resolved_form (arr : Arrangement) : Arrangement :=
  imap (fun i exp =>
          match i with
          | O => exp
          | S _ => if bool_decide (source_resolved arr i exp) then exp
                   else AlgebraicExpression_Transpose exp
          end) arr.

(** the arrangement passes the validity filter *)
Definition passes_filter (qg : QueryGraph) (p : Arrangement) : Prop :=
  _valid_arrangement p qg = Some true.

(** the expression has a bound endpoint *)
Definition has_bound_endpoint (bound_vars : option rax) (exp : AlgebraicExpression)
  : bool :=
  is_bound bound_vars (AlgebraicExpression_Source exp) ||
  is_bound bound_vars (AlgebraicExpression_Destination exp).

(** ** Relation types of a traversal *)

(** the id a relation type of the edge is traversed under, if any: its own
    id when that is known, else the id of the schema of that name *)
Definition relation_id (unknown : Z) (schema : string -> option Z)
    (rel : Z * string) : option Z :=
  if bool_decide (rel.1 = unknown) then schema rel.2 else Some rel.1.

(** the relation types a traversal of an edge follows *)
Definition traversed_relations (no_relation unknown : Z) (schema : string -> option Z)
    (ids : list Z) (names : list string) : list Z :=
  match ids with
  | [] => [no_relation]
  | _ => omap (relation_id unknown schema) (zip ids names)
  end.

End Spec.
Export Spec.

(** * Properties *)

(** ** Wrap-around arithmetic *)

Section wrap_around.
Local Open Scope Z_scope.

#[export] Instance eqm32_equiv : Equivalence eqm32.
Proof.
  unfold eqm32. split.
  - intros a. reflexivity.
  - intros a b H. symmetry. exact H.
  - intros a b c H1 H2. congruence.
Qed.

#[export] Instance eqm32_add : Proper (eqm32 ==> eqm32 ==> eqm32) Z.add.
Proof.
  unfold eqm32. intros a a' Ha b b' Hb.
  rewrite (Zplus_mod a), (Zplus_mod a'), Ha, Hb. reflexivity.
Qed.

#[export] Instance eqm32_sub : Proper (eqm32 ==> eqm32 ==> eqm32) Z.sub.
Proof.
  unfold eqm32. intros a a' Ha b b' Hb.
  rewrite (Zminus_mod a), (Zminus_mod a'), Ha, Hb. reflexivity.
Qed.

#[export] Instance eqm32_mul : Proper (eqm32 ==> eqm32 ==> eqm32) Z.mul.
Proof.
  unfold eqm32. intros a a' Ha b b' Hb.
  rewrite (Zmult_mod a), (Zmult_mod a'), Ha, Hb. reflexivity.
Qed.

Lemma eqm32_of_eq a b : a = b -> eqm32 a b.
Proof. intros ->. reflexivity. Qed.

Lemma to_uint_eqm z : eqm32 (to_uint z) z.
Proof. unfold eqm32, to_uint. apply Zmod_mod. Qed.

Lemma to_int_eqm z : eqm32 (to_int z) z.
Proof.
  unfold eqm32, to_int.
  rewrite Zminus_mod, Zmod_mod, <- Zminus_mod.
  f_equal. lia.
Qed.

Lemma to_int_congr a b : eqm32 a b -> to_int a = to_int b.
Proof.
  unfold eqm32. intros H. unfold to_int.
  rewrite (Zplus_mod a), (Zplus_mod b), H. reflexivity.
Qed.

Lemma to_int_small z : in_int z -> to_int z = z.
Proof.
  unfold in_int, INT_MIN, INT_MAX, to_int. intros H.
  rewrite Z.mod_small; lia.
Qed.

Lemma to_int_range z : in_int (to_int z).
Proof.
  unfold in_int, INT_MIN, INT_MAX, to_int.
  pose proof (Z.mod_pos_bound (z + 2 ^ 31) (2 ^ 32)). lia.
Qed.

Lemma to_uint_small z : 0 <= z < 2 ^ 32 -> to_uint z = z.
Proof. apply Z.mod_small. Qed.

End wrap_around.

(** [to_int x = to_int y] when [x] and [y] agree once the inner wrap-arounds
    are dropped *)
Ltac wrap_eq :=
  apply to_int_congr;
  repeat (rewrite to_int_eqm || rewrite to_uint_eqm);
  apply eqm32_of_eq; lia.

(** ** Alias comparison and the scans over predecessors *)

Lemma String_compare_refl a : String.compare a a = Eq.
Proof.
  pose proof (String.compare_antisym a a) as H.
  destruct (String.compare a a); simpl in H; congruence.
Qed.

Lemma RG_STRCMP_zero a b : c_not (RG_STRCMP a b) = true <-> a = b.
Proof.
  unfold c_not, RG_STRCMP. split.
  - destruct (String.compare a b) eqn:E; simpl; try done.
    intros _. by apply String.compare_eq_iff.
  - intros ->. by rewrite String_compare_refl.
Qed.

Lemma RG_STRCMP_bool a b : c_not (RG_STRCMP a b) = bool_decide (a = b).
Proof.
  destruct (c_not (RG_STRCMP a b)) eqn:E.
  - apply RG_STRCMP_zero in E. by rewrite bool_decide_eq_true_2.
  - rewrite bool_decide_eq_false_2; [done|].
    intros H. apply RG_STRCMP_zero in H. congruence.
Qed.

Lemma scan_previous_existsb {A} (test : A -> bool) (arr : list A) i :
  i <= length arr ->
  scan_previous test arr i = Some (existsb test (take i arr)).
Proof.
  induction i as [|j IH]; intros Hi; simpl.
  - done.
  - destruct (lookup_lt_is_Some_2 arr j) as [prev Hprev]; [lia|].
    rewrite Hprev. simpl.
    rewrite (take_S_r _ _ _ Hprev), existsb_app. simpl.
    destruct (test prev).
    + by rewrite orb_true_r.
    + rewrite IH by lia. by rewrite !orb_false_r.
Qed.

Lemma existsb_take_lookup {A} (test : A -> bool) (arr : list A) i :
  existsb test (take i arr) = true <->
  exists j prev, j < i /\ arr !! j = Some prev /\ test prev = true.
Proof.
  rewrite existsb_exists. split.
  - intros (prev & Hin & Ht).
    apply list_elem_of_In, list_elem_of_lookup in Hin as [j Hj].
    apply lookup_take_Some in Hj as [Hj Hlt].
    exists j, prev. done.
  - intros (j & prev & Hlt & Hj & Ht).
    exists prev. split; [|done].
    apply list_elem_of_In, list_elem_of_lookup. exists j.
    apply lookup_take_Some. done.
Qed.

(** ** The validity filter *)

Module Validity.
Import TraverseOrder.

Lemma shares_endpoint_iff exp prev :
  shares_endpoint exp prev = true <-> shares_endpoint_rel prev exp.
Proof.
  unfold shares_endpoint, shares_endpoint_rel.
  rewrite !orb_true_iff, !RG_STRCMP_zero. tauto.
Qed.

Lemma has_label_iff n : has_label n = true <-> is_Some (label n).
Proof.
  unfold has_label. destruct (label n) as [l|].
  - split; [intros _; by exists l | done].
  - split; [done | intros [l Hl]; done].
Qed.

Lemma node_labeled_lookup qg a n :
  QueryGraph_GetNodeByAlias qg a = Some n ->
  node_labeled qg a <-> has_label n = true.
Proof.
  intros Hn. rewrite has_label_iff. unfold node_labeled. split.
  - intros (n' & Hn' & Hl). congruence.
  - intros Hl. by exists n.
Qed.

Lemma _valid_chain_seq arr k m :
  k + m <= length arr ->
  exists b, _valid_chain arr (seq k m) = Some b /\
    (b = true <->
     forall i exp, k <= i < k + m -> arr !! i = Some exp ->
       exists j prev, j < i /\ arr !! j = Some prev /\ shares_endpoint_rel prev exp).
Proof.
  revert k. induction m as [|m IH]; intros k Hlen; simpl.
  - exists true. split; [done|]. split; [|done]. intros _ i exp Hi. lia.
  - destruct (lookup_lt_is_Some_2 arr k) as [exp Hexp]; [lia|].
    rewrite Hexp. simpl.
    rewrite scan_previous_existsb by lia. simpl.
    destruct (existsb (shares_endpoint exp) (take k arr)) eqn:Hscan.
    + destruct (IH (S k)) as (b & Hb & Hiff); [lia|].
      exists b. split; [done|]. rewrite Hiff. split.
      * intros H i exp' Hi Hl.
        destruct (decide (i = k)) as [->|Hne].
        -- assert (exp' = exp) as -> by congruence.
           apply existsb_take_lookup in Hscan as (j & prev & Hj & Hprev & Ht).
           exists j, prev. by rewrite <- shares_endpoint_iff.
        -- apply H; [lia | done].
      * intros H i exp' Hi Hl. apply H; [lia | done].
    + exists false. split; [done|]. split; [done|].
      intros H. destruct (H k exp) as (j & prev & Hj & Hprev & Ht); [lia | done |].
      assert (existsb (shares_endpoint exp) (take k arr) = true) as Habs.
      { apply existsb_take_lookup. exists j, prev. by rewrite shares_endpoint_iff. }
      congruence.
Qed.

Lemma opener_check qg e0 s d :
  QueryGraph_GetNodeByAlias qg (AlgebraicExpression_Source e0) = Some s ->
  QueryGraph_GetNodeByAlias qg (AlgebraicExpression_Destination e0) = Some d ->
  (has_label s || has_label d) &&
    bool_decide (is_Some (AlgebraicExpression_Edge e0)) &&
    (AlgebraicExpression_OperandCount e0 =? 1)%Z = true <->
  is_Some (AlgebraicExpression_Edge e0) /\
  AlgebraicExpression_OperandCount e0 = 1%Z /\
  (node_labeled qg (AlgebraicExpression_Source e0) \/
   node_labeled qg (AlgebraicExpression_Destination e0)).
Proof.
  intros Hs Hd.
  rewrite (node_labeled_lookup _ _ _ Hs), (node_labeled_lookup _ _ _ Hd).
  rewrite !andb_true_iff, orb_true_iff, bool_decide_eq_true, Z.eqb_eq. tauto.
Qed.

Lemma _valid_arrangement_unfold qg (arr : Arrangement) e0 s d :
  arr !! 0 = Some e0 ->
  QueryGraph_GetNodeByAlias qg (AlgebraicExpression_Source e0) = Some s ->
  QueryGraph_GetNodeByAlias qg (AlgebraicExpression_Destination e0) = Some d ->
  _valid_arrangement arr qg =
  if (has_label s || has_label d) &&
     bool_decide (is_Some (AlgebraicExpression_Edge e0)) &&
     (AlgebraicExpression_OperandCount e0 =? 1)%Z
  then Some false
  else _valid_chain arr (seq 1 (length arr - 1)).
Proof.
  intros He0 Hs Hd.
  unfold _valid_arrangement. rewrite He0. simpl. rewrite Hs, Hd. simpl.
  by destruct (has_label s).
Qed.

Lemma _valid_chain_chaining (arr : Arrangement) :
  0 < length arr ->
  exists b, _valid_chain arr (seq 1 (length arr - 1)) = Some b /\
            (b = true <-> chaining_rule arr).
Proof.
  intros Hlen.
  destruct (_valid_chain_seq arr 1 (length arr - 1)) as (bc & Hbc & Hchain); [lia|].
  exists bc. split; [done|]. rewrite Hchain. unfold chaining_rule. split.
  - intros H i exp Hi Hl. apply H; [|done].
    apply lookup_lt_Some in Hl. lia.
  - intros H i exp Hi Hl. apply H; [lia | done].
Qed.

(** C3.  On an arrangement whose first expression has its two endpoints in
    the query graph, the validity filter returns, and it accepts the
    arrangement if and only if the chaining rule and the opener rule both
    hold.  The filter is a function of the arrangement and the graph that
    yields the verdict only: it writes to neither. *)
Theorem valid_arrangement_iff (qg : QueryGraph) (arr : Arrangement)
    (e0 : AlgebraicExpression) :
  arr !! 0 = Some e0 ->
  is_Some (QueryGraph_GetNodeByAlias qg (AlgebraicExpression_Source e0)) ->
  is_Some (QueryGraph_GetNodeByAlias qg (AlgebraicExpression_Destination e0)) ->
  exists b, _valid_arrangement arr qg = Some b /\
            (b = true <-> chaining_rule arr /\ opener_rule qg arr).
Proof.
  intros He0 [s Hs] [d Hd].
  rewrite (_valid_arrangement_unfold _ _ _ _ _ He0 Hs Hd).
  destruct (_valid_chain_chaining arr) as (bc & Hbc & Hchain).
  { by apply lookup_lt_Some in He0. }
  destruct (_ && _ && _) eqn:Hrej.
  - exists false. split; [done|]. split; [done|].
    intros [_ Hopen]. exfalso. apply (Hopen e0 He0).
    by apply (opener_check qg e0 s d).
  - exists bc. split; [done|]. rewrite Hchain. split; [|tauto].
    intros Hc. split; [done|]. intros e0' He0' Hbad.
    assert (e0' = e0) as -> by congruence.
    apply (opener_check qg e0 s d) in Hbad; [|done|done]. congruence.
Qed.

End Validity.

(** ** Sums accumulated by a loop in an [int] *)

Lemma for_each_wrap_sum {A} (arr pre rest : list A)
    (body : nat -> Z -> option Z) (h : nat -> A -> Z) (acc : Z) :
  arr = pre ++ rest ->
  (forall i x acc, length pre <= i -> arr !! i = Some x ->
     body i acc = Some (to_int (acc + h i x))) ->
  for_each body (seq (length pre) (length rest)) acc =
  Some (match rest with
        | [] => acc
        | _ => to_int (acc + Zsum (imap (fun i x => h (length pre + i) x) rest))
        end).
Proof.
  revert pre acc. induction rest as [|x rest IH]; intros pre acc Harr Hbody.
  - done.
  - cbn [length seq for_each].
    rewrite (Hbody _ x); [|lia|by rewrite Harr, list_lookup_middle].
    cbn [mbind option_bind].
    specialize (IH (pre ++ [x])).
    rewrite length_app in IH. cbn [length] in IH.
    replace (length pre + 1) with (S (length pre)) in IH by lia.
    rewrite IH.
    + f_equal. rewrite imap_cons.
      rewrite (imap_ext (_ ∘ S) (fun i x => h (S (length pre) + i) x))
        by (intros i y _; simpl; f_equal; lia).
      replace (length pre + 0) with (length pre) by lia.
      change (Zsum (?y :: ?l)) with (y + Zsum l)%Z.
      destruct rest as [|x' rest].
      * unfold Zsum. cbn [imap foldr]. wrap_eq.
      * set (s2 := Zsum _). wrap_eq.
    + rewrite Harr, <- app_assoc. done.
    + intros i y acc' Hi Hy. apply Hbody; [lia | done].
Qed.

Lemma for_each_in_int {A} (body : A -> Z -> option Z) (xs : list A) (acc r : Z) :
  (forall x a b, body x a = Some b -> in_int b) ->
  in_int acc ->
  for_each body xs acc = Some r -> in_int r.
Proof.
  intros Hbody. revert acc. induction xs as [|x xs IH]; intros acc Hacc; simpl.
  - intros [= <-]. done.
  - destruct (body x acc) as [b|] eqn:Hb; simpl; [|done].
    apply IH. by eapply Hbody.
Qed.

(** ** Scoring: reward *)

Module Reward.
Import TraverseOrder.
Local Open Scope Z_scope.

Lemma reward_expression_wrap qg filtered_entities bound_vars exp factor :
  is_Some (QueryGraph_GetNodeByAlias qg (AlgebraicExpression_Source exp)) ->
  _reward_expression exp qg filtered_entities bound_vars factor =
  Some (to_int (reward_expression_spec qg filtered_entities bound_vars exp factor)).
Proof.
  intros [n Hn].
  unfold _reward_expression, reward_expression_spec, is_labeled, is_filtered,
    is_bound, raxFound.
  rewrite Hn. simpl. f_equal.
  destruct bound_vars as [bv|];
    repeat match goal with
           | |- context [bool_decide ?P] => destruct (bool_decide P)
           end;
    destruct (has_label n); unfold bonus;
    first [ reflexivity | wrap_eq ].
Qed.

Lemma reward_arrangement_wrap qg filtered_entities bound_vars (arr : Arrangement) :
  (forall e, e ∈ arr ->
     is_Some (QueryGraph_GetNodeByAlias qg (AlgebraicExpression_Source e))) ->
  Z.of_nat (length arr) < 2 ^ 32 ->
  _reward_arrangement arr qg filtered_entities bound_vars =
  Some (to_int (reward_spec qg filtered_entities bound_vars arr)).
Proof.
  intros Hnodes Hlen. unfold _reward_arrangement. cbv zeta.
  rewrite (for_each_wrap_sum arr [] arr _
             (fun i exp =>
                reward_expression_spec qg filtered_entities bound_vars exp
                  (Z.of_nat (length arr) - Z.of_nat i))); [|done|].
  - f_equal. destruct arr as [|e arr']; [done|].
    unfold reward_spec. cbv zeta. by rewrite Z.add_0_l.
  - intros i x acc _ Hx. rewrite Hx. cbn [mbind option_bind].
    rewrite reward_expression_wrap by (by eapply Hnodes, list_elem_of_lookup_2).
    cbn [mbind option_bind]. f_equal.
    rewrite to_uint_small by (apply lookup_lt_Some in Hx; lia).
    wrap_eq.
Qed.

(** C5.  The reward of an ordering is the position-weighted sum of the
    bound, filter and source-label bonuses of its expressions ([reward_spec]),
    as long as that sum fits in an [int]; the label of a destination node
    plays no part: two query graphs that agree on the nodes at the source
    aliases give the same reward. *)
Theorem reward_arrangement_sum (qg : QueryGraph) (filtered_entities : rax)
    (bound_vars : option rax) (arr : Arrangement) :
  (forall e, e ∈ arr ->
     is_Some (QueryGraph_GetNodeByAlias qg (AlgebraicExpression_Source e))) ->
  Z.of_nat (length arr) < 2 ^ 32 ->
  in_int (reward_spec qg filtered_entities bound_vars arr) ->
  _reward_arrangement arr qg filtered_entities bound_vars =
    Some (reward_spec qg filtered_entities bound_vars arr) /\
  (forall qg',
     (forall e, e ∈ arr ->
        QueryGraph_GetNodeByAlias qg' (AlgebraicExpression_Source e) =
        QueryGraph_GetNodeByAlias qg (AlgebraicExpression_Source e)) ->
     _reward_arrangement arr qg' filtered_entities bound_vars =
     _reward_arrangement arr qg filtered_entities bound_vars).
Proof.
  intros Hnodes Hlen Hfit. split.
  - rewrite reward_arrangement_wrap by done. by rewrite to_int_small.
  - intros qg' Hsame.
    rewrite !reward_arrangement_wrap; try done.
    + do 2 f_equal. unfold reward_spec. cbv zeta. f_equal.
      apply imap_ext. intros i x Hi.
      unfold reward_expression_spec, is_labeled.
      rewrite Hsame; [done|]. by eapply list_elem_of_lookup_2.
    + intros e He. rewrite Hsame by done. by apply Hnodes.
Qed.

(** C9.  An expression whose source and destination are the same alias [a]
    collects the bound bonus twice when [a] is bound and the filter bonus
    twice when [a] is filtered (and the label bonus once), as long as the
    total fits in an [int]. *)
Theorem reward_expression_self_loop (qg : QueryGraph) (filtered_entities : rax)
    (bound_vars : option rax) (exp : AlgebraicExpression) (factor : Z)
    (a : string) (n : QGNode) :
  AlgebraicExpression_Source exp = a ->
  AlgebraicExpression_Destination exp = a ->
  QueryGraph_GetNodeByAlias qg a = Some n ->
  in_int (bonus (is_bound bound_vars a) (2 * B * factor) +
          bonus (is_filtered filtered_entities a) (2 * F * factor) +
          bonus (has_label n) (L * factor)) ->
  _reward_expression exp qg filtered_entities bound_vars factor =
  Some (bonus (is_bound bound_vars a) (2 * B * factor) +
        bonus (is_filtered filtered_entities a) (2 * F * factor) +
        bonus (has_label n) (L * factor)).
Proof.
  intros Hs Hd Hn Hfit.
  rewrite reward_expression_wrap by (rewrite Hs, Hn; by eexists).
  f_equal. rewrite <- (to_int_small _ Hfit). f_equal.
  unfold reward_expression_spec, is_labeled. rewrite Hs, Hd, Hn.
  unfold bonus.
  destruct (is_bound bound_vars a), (is_filtered filtered_entities a), (has_label n);
    lia.
Qed.

End Reward.

(** ** Scoring: penalty *)

Module Penalty.
Import TraverseOrder.
Local Open Scope Z_scope.

Lemma resolves_source_existsb arr i exp :
  existsb (resolves_source (AlgebraicExpression_Source exp)) (take i arr) =
  bool_decide (source_resolved arr i exp).
Proof.
  unfold source_resolved.
  destruct (existsb _ _) eqn:E; symmetry.
  - apply bool_decide_eq_true. apply Exists_exists.
    apply existsb_exists in E as (prev & Hin & Ht).
    exists prev. split; [by apply list_elem_of_In|].
    unfold resolves_source in Ht.
    by rewrite orb_true_iff, !RG_STRCMP_zero in Ht.
  - apply bool_decide_eq_false. intros (prev & Hin & Ht)%Exists_exists.
    assert (existsb (resolves_source (AlgebraicExpression_Source exp)) (take i arr)
            = true); [|congruence].
    apply existsb_exists. exists prev. split; [by apply list_elem_of_In|].
    unfold resolves_source. by rewrite orb_true_iff, !RG_STRCMP_zero.
Qed.

Lemma penalty_arrangement_wrap (arr : Arrangement) :
  arr <> [] ->
  _penalty_arrangement false arr = Some (to_int (penalty_spec arr)).
Proof.
  destruct arr as [|e0 rest]; [done|]. intros _.
  set (arr := e0 :: rest).
  unfold _penalty_arrangement. cbn [lookup list_lookup arr mbind option_bind].
  fold arr.
  replace (length arr - 1)%nat with (length rest) by (simpl; lia).
  rewrite (for_each_wrap_sum arr [e0] rest _ (penalty_term arr)); [|done|].
  - f_equal. unfold penalty_spec. subst arr. rewrite imap_cons.
    change (Zsum (?y :: ?l)) with (y + Zsum l).
    cbn [penalty_term length].
    rewrite (imap_ext (_ ∘ S) (fun i x => penalty_term (e0 :: rest) (1 + i) x))
      by done.
    unfold transpose_count.
    destruct rest as [|e1 rest]; [unfold Zsum; cbn [imap foldr]|set (s := Zsum _)];
      wrap_eq.
  - intros i x acc Hi Hx. cbn [length] in Hi.
    rewrite Hx. cbn [mbind option_bind].
    rewrite scan_previous_existsb by (apply lookup_lt_Some in Hx; lia).
    cbn [mbind option_bind].
    rewrite resolves_source_existsb.
    destruct i as [|i]; [lia|]. cbn [penalty_term].
    unfold transpose_count, operand_count.
    destruct (bool_decide (source_resolved arr (S i) x)); f_equal; wrap_eq.
Qed.

Lemma reward_arrangement_in_int arr qg filtered_entities bound_vars r :
  _reward_arrangement arr qg filtered_entities bound_vars = Some r -> in_int r.
Proof.
  unfold _reward_arrangement. apply for_each_in_int.
  - intros i a b. cbv zeta.
    destruct (arr !! i) as [exp|]; [|done]. cbn [mbind option_bind].
    destruct (_reward_expression _ _ _ _ _) as [r'|]; [|done].
    cbn [mbind option_bind]. intros [= <-]. apply to_int_range.
  - done.
Qed.

(** C6.  With the maintain-transpose flag set the penalty is 0, and the score
    of an ordering is its reward.  Without the flag the penalty of a
    non-empty ordering is [penalty_spec]: [T * transpose_count] for the first
    expression and for every later expression whose source matches the source
    or destination of a predecessor, [T * (operand_count - transpose_count)]
    for the others, as long as the total fits in an [int]. *)
Theorem penalty_arrangement_spec :
  (forall arr, _penalty_arrangement true arr = Some 0) /\
  (forall arr qg filtered_entities bound_vars,
     _score_arrangement true arr qg filtered_entities bound_vars =
     _reward_arrangement arr qg filtered_entities bound_vars) /\
  (forall arr, arr <> [] -> in_int (penalty_spec arr) ->
     _penalty_arrangement false arr = Some (penalty_spec arr)).
Proof.
  split; [done|]. split.
  - intros arr qg filtered_entities bound_vars.
    unfold _score_arrangement. cbn [_penalty_arrangement mbind option_bind].
    destruct (_reward_arrangement _ _ _ _) as [r|] eqn:Hr; [|done].
    cbn [mbind option_bind]. f_equal.
    apply reward_arrangement_in_int in Hr.
    change (to_int (0 - 0)) with 0. by rewrite Z.add_0_l, to_int_small.
  - intros arr Hne Hfit.
    rewrite penalty_arrangement_wrap by done. by rewrite to_int_small.
Qed.

End Penalty.

(** ** The entry-point selector *)

Module EntryPoint.
Import TraverseOrder.
Import Reward.
Local Open Scope Z_scope.

(** C4.  The entry-point selector follows the decision tree
    [select_entry_point_spec] whenever the two endpoints of the opener are
    nodes of the query graph; and when a bound-variable set is supplied that
    contains the source or the destination of the opener, the selector
    returns and the source of the opener is bound afterwards. *)
Theorem select_entry_point_decision (qg : QueryGraph) (e0 : AlgebraicExpression)
    (filtered_entities : rax) (bound_vars : option rax) :
  (is_Some (QueryGraph_GetNodeByAlias qg (AlgebraicExpression_Source e0)) ->
   is_Some (QueryGraph_GetNodeByAlias qg (AlgebraicExpression_Destination e0)) ->
   _select_entry_point qg e0 filtered_entities bound_vars =
   Some (select_entry_point_spec qg e0 filtered_entities bound_vars)) /\
  (forall bv, bound_vars = Some bv ->
     AlgebraicExpression_Source e0 ∈ bv \/ AlgebraicExpression_Destination e0 ∈ bv ->
     exists e0', _select_entry_point qg e0 filtered_entities bound_vars = Some e0' /\
                 AlgebraicExpression_Source e0' ∈ bv).
Proof.
  split.
  - intros [s Hs] [d Hd].
    unfold _select_entry_point, select_entry_point_spec. cbv zeta.
    rewrite RG_STRCMP_bool.
    destruct (decide (_ /\ _)) as [[Hoc Heq]|Hno].
    + rewrite Hoc, bool_decide_eq_true_2 by done. done.
    + assert ((AlgebraicExpression_OperandCount e0 =? 1) &&
              bool_decide (AlgebraicExpression_Source e0 =
                           AlgebraicExpression_Destination e0) = false) as ->.
      { apply andb_false_iff.
        destruct (Z.eqb_spec (AlgebraicExpression_OperandCount e0) 1) as [H1|H1];
          [|by left].
        right. apply bool_decide_eq_false. intros H2. by apply Hno. }
      rewrite Hs, Hd. cbn [mbind option_bind].
      assert (forall x y : AlgebraicExpression,
                (if (0 + (if raxFound filtered_entities (AlgebraicExpression_Source e0)
                          then F else 0) + (if has_label s then L else 0) <?
                     0 + (if raxFound filtered_entities (AlgebraicExpression_Destination e0)
                          then F else 0) + (if has_label d then L else 0))
                 then Some x else Some y) =
                Some (if decide (endpoint_score qg filtered_entities
                                   (AlgebraicExpression_Destination e0) >
                                 endpoint_score qg filtered_entities
                                   (AlgebraicExpression_Source e0))
                      then x else y)) as Hheur.
      { intros x y. unfold endpoint_score, is_labeled, is_filtered, raxFound, bonus.
        rewrite Hs, Hd.
        destruct (Z.ltb_spec
                    (0 + (if bool_decide (AlgebraicExpression_Source e0 ∈ filtered_entities)
                          then F else 0) + (if has_label s then L else 0))
                    (0 + (if bool_decide (AlgebraicExpression_Destination e0 ∈ filtered_entities)
                          then F else 0) + (if has_label d then L else 0)));
          [rewrite decide_True by lia | rewrite decide_False by lia]; done. }
      rewrite Hheur.
      destruct bound_vars as [bv|]; unfold is_bound, raxFound; [|done].
      destruct (bool_decide (AlgebraicExpression_Source e0 ∈ bv)); [done|].
      destruct (bool_decide (AlgebraicExpression_Destination e0 ∈ bv)); done.
  - intros bv -> Hbound.
    unfold _select_entry_point. cbv zeta. rewrite RG_STRCMP_bool.
    destruct ((AlgebraicExpression_OperandCount e0 =? 1) && _) eqn:Hloop.
    + exists e0. split; [done|].
      apply andb_true_iff in Hloop as [_ Heq]. apply bool_decide_eq_true in Heq.
      destruct Hbound as [H|H]; [done | by rewrite Heq].
    + unfold raxFound.
      destruct (decide (AlgebraicExpression_Source e0 ∈ bv)) as [Hs|Hs].
      * rewrite bool_decide_eq_true_2 by done. by exists e0.
      * rewrite bool_decide_eq_false_2 by done.
        destruct Hbound as [H|H]; [done|].
        rewrite bool_decide_eq_true_2 by done.
        exists (AlgebraicExpression_Transpose e0). done.
Qed.

End EntryPoint.

(** ** The driver: fast path *)

Module FastPath.
Import TraverseOrder.

(** C7.  A single expression with one operand whose source and destination
    coincide makes [orderExpressions] return at once: the array is returned
    as it was given (the expression is neither transposed nor changed) and the
    trace is empty, so neither the collection of the filtered aliases nor the
    generation of the permutations took place. *)
Theorem orderExpressions_fast_path (maintain_transpose : bool) (qg : QueryGraph)
    (e : AlgebraicExpression) (filters : FT_FilterNode) (bound_vars : option rax) :
  AlgebraicExpression_OperandCount e = 1%Z ->
  AlgebraicExpression_Source e = AlgebraicExpression_Destination e ->
  orderExpressions maintain_transpose qg [e] filters bound_vars = Some ([e], []).
Proof.
  intros Hoc Hloop. unfold orderExpressions.
  cbn [length Nat.ltb Nat.leb negb lookup list_lookup mbind option_bind Nat.eqb andb].
  rewrite Hoc, RG_STRCMP_bool, bool_decide_eq_true_2 by done.
  reflexivity.
Qed.

End FastPath.

(** * The traversal direction of a new operator *)

Module TraverseDirection.
Import CondVarLenTraverseOp.

Section constructor.

Variable OpBase_Aware : string -> option Z.
Variable OpBase_Modifies : string -> Z.
Variable AST_AliasIsReferenced : string -> bool.

(** C10.  A freshly built conditional variable-length traverse gets the
    direction BOTH when its edge is bidirectional; otherwise INCOMING exactly
    when the expression is transposed and OUTGOING when it is not.  The
    constructor returns whenever the operation is aware of the source and
    the expression's edge is an edge of the query graph. *)
Theorem NewCondVarLenTraverseOp_direction (plan : ExecutionPlan)
    (exp : AlgebraicExpression) :
  (forall op, NewCondVarLenTraverseOp OpBase_Aware OpBase_Modifies AST_AliasIsReferenced plan exp = Some op ->
     exists a e,
       AlgebraicExpression_Edge exp = Some a /\
       QueryGraph_GetEdgeByAlias (query_graph plan) a = Some e /\
       ae op = exp /\
       traverseDir op = Some (direction_for e exp) /\
       (bidirectional e = true -> traverseDir op = Some GRAPH_EDGE_DIR_BOTH) /\
       (bidirectional e = false ->
          (traverseDir op = Some GRAPH_EDGE_DIR_INCOMING <->
           AlgebraicExpression_Transposed exp = true) /\
          (traverseDir op = Some GRAPH_EDGE_DIR_OUTGOING <->
           AlgebraicExpression_Transposed exp = false))) /\
  (forall a e,
     is_Some (OpBase_Aware (AlgebraicExpression_Source exp)) ->
     AlgebraicExpression_Edge exp = Some a ->
     QueryGraph_GetEdgeByAlias (query_graph plan) a = Some e ->
     is_Some (NewCondVarLenTraverseOp OpBase_Aware OpBase_Modifies AST_AliasIsReferenced plan exp)).
Proof.
  split.
  - intros op. unfold NewCondVarLenTraverseOp.
    destruct (OpBase_Aware _) as [idx|]; [|done]. cbn [mbind option_bind].
    destruct (AlgebraicExpression_Edge exp) as [a|] eqn:Ha; [|done].
    cbn [mbind option_bind].
    destruct (QueryGraph_GetEdgeByAlias _ a) as [e|] eqn:He; [|done].
    cbn [mbind option_bind].
    intros [= <-]. exists a, e.
    split; [done|]. split; [done|].
    unfold _setTraverseDirection, direction_for. cbn [ae].
    destruct (bidirectional e), (AlgebraicExpression_Transposed exp);
      cbn [set_traverseDir traverseDir ae];
      repeat split; intros; congruence.
  - intros a e [idx Hidx] Ha He. unfold NewCondVarLenTraverseOp.
    rewrite Hidx, Ha. cbn [mbind option_bind]. rewrite He. by eexists.
Qed.

End constructor.

End TraverseDirection.

(** * Array lengths and loops over an index *)

Lemma array_len_small {A} (arr : list A) :
  (Z.of_nat (length arr) < 2 ^ 32)%Z -> array_len arr = Z.of_nat (length arr).
Proof. intros Hlen. unfold array_len. apply to_uint_small. lia. Qed.

Lemma array_len_bounds {A} (arr : list A) :
  (0 <= array_len arr <= Z.of_nat (length arr))%Z.
Proof.
  unfold array_len, to_uint. split.
  - apply Z.mod_pos_bound. lia.
  - apply Z.mod_le; lia.
Qed.

Lemma for_each_ext {A St} (f g : A -> St -> option St) (xs : list A) :
  (forall x s, f x s = g x s) -> forall s, for_each f xs s = for_each g xs s.
Proof.
  intros Hfg. induction xs as [|x xs IH]; intros s; [done|].
  cbn [for_each]. rewrite Hfg. destruct (g x s); cbn [mbind option_bind]; [apply IH | done].
Qed.

(** a loop that reads [l] at the indices [j, j+1, ...] and returns is the
    loop over the entries it has read *)
Lemma for_each_indexed_Some {A St} (get : nat -> option A) (body : A -> St -> option St)
    (l : list A) :
  (forall i x, get i = Some x -> l !! i = Some x) ->
  forall k j s r,
    for_each (fun i st => x ← get i; body x st) (seq j k) s = Some r ->
    for_each body (take k (drop j l)) s = Some r.
Proof.
  intros Hget. induction k as [|k IH]; intros j s r Hrun.
  - injection Hrun as <-. done.
  - cbn [seq for_each] in Hrun.
    apply bind_Some in Hrun as (s' & Hstep & Hrun).
    apply bind_Some in Hstep as (x & Hx & Hbody).
    apply Hget in Hx. rewrite (drop_S _ _ _ Hx). cbn [take for_each].
    rewrite Hbody. cbn [mbind option_bind]. by apply IH.
Qed.

Lemma for_each_indexed {A St} (get : nat -> option A) (body : A -> St -> option St)
    (l : list A) :
  forall k j s,
    j + k <= length l ->
    (forall i, j <= i < j + k -> get i = l !! i) ->
    for_each (fun i st => x ← get i; body x st) (seq j k) s =
    for_each body (take k (drop j l)) s.
Proof.
  induction k as [|k IH]; intros j s Hlen Hget; [done|].
  cbn [seq for_each].
  destruct (lookup_lt_is_Some_2 l j) as [x Hx]; [lia|].
  rewrite (Hget j) by lia. rewrite Hx, (drop_S _ _ _ Hx). cbn [mbind option_bind take for_each].
  destruct (body x s) as [s'|]; cbn [mbind option_bind]; [|done].
  apply IH; [lia|]. intros i Hi. apply Hget. lia.
Qed.

Lemma int_index_Some {A} (arr : list A) i x : int_index arr i = Some x -> arr !! i = Some x.
Proof. unfold int_index. by destruct (_ <=? _)%Z. Qed.

Lemma int_index_small {A} (arr : list A) i :
  (Z.of_nat i <= INT_MAX)%Z -> int_index arr i = arr !! i.
Proof. intros Hi. unfold int_index. by rewrite (proj2 (Z.leb_le _ _) Hi). Qed.

(** * The permutation generator *)

Module Permutations.
Import TraverseOrder.

Lemma _swap_Some (set : Arrangement) l i x y :
  set !! l = Some x -> set !! i = Some y ->
  _swap set l i = Some (<[i := x]> (<[l := y]> set)).
Proof. unfold _swap. intros -> ->. done. Qed.

Lemma _swap_inv (set s1 : Arrangement) l i :
  _swap set l i = Some s1 ->
  exists x y, set !! l = Some x /\ set !! i = Some y /\
              s1 = <[i := x]> (<[l := y]> set).
Proof.
  unfold _swap.
  destruct (set !! l) as [x|]; [|done]. destruct (set !! i) as [y|]; [|done].
  intros [= <-]. by exists x, y.
Qed.

Lemma _swap_length (set s1 : Arrangement) l i :
  _swap set l i = Some s1 -> length s1 = length set.
Proof.
  intros Hswap. apply _swap_inv in Hswap as (x & y & _ & _ & ->). by rewrite !length_insert.
Qed.

Lemma _swap_perm (set s1 : Arrangement) l i :
  _swap set l i = Some s1 -> s1 ≡ₚ set.
Proof.
  intros Hswap. apply _swap_inv in Hswap as (x & y & Hl & Hi & ->). by apply Permutation_insert_swap.
Qed.

Lemma _swap_take (set s1 : Arrangement) l i :
  l <= i -> _swap set l i = Some s1 -> take l s1 = take l set.
Proof.
  intros Hle Hswap. apply _swap_inv in Hswap as (x & y & _ & _ & ->).
  by rewrite !take_insert_ge by lia.
Qed.

Lemma _swap_lookup_l (set s1 : Arrangement) l i :
  _swap set l i = Some s1 -> s1 !! l = set !! i.
Proof.
  intros Hswap. apply _swap_inv in Hswap as (x & y & Hl & Hi & ->).
  assert (l < length set) by (by eapply lookup_lt_Some).
  destruct (decide (i = l)) as [->|Hne].
  - rewrite list_lookup_insert_eq by (by rewrite length_insert). congruence.
  - rewrite list_lookup_insert_ne by done.
    rewrite list_lookup_insert_eq by done. done.
Qed.

Lemma _swap_back (set s1 : Arrangement) l i :
  _swap set l i = Some s1 -> _swap s1 l i = Some set.
Proof.
  intros Hswap. pose proof (_swap_lookup_l _ _ _ _ Hswap) as Hl'.
  destruct (_swap_inv _ _ _ _ Hswap) as (x & y & Hl & Hi & ->).
  assert (l < length set) by (by eapply lookup_lt_Some).
  assert (i < length set) by (by eapply lookup_lt_Some).
  rewrite Hi in Hl'.
  erewrite _swap_Some; [|exact Hl'|
    by rewrite list_lookup_insert_eq by (by rewrite length_insert)].
  f_equal.
  destruct (decide (i = l)) as [->|Hne].
  - assert (y = x) as -> by congruence.
    rewrite !list_insert_insert_eq. by apply list_insert_id.
  - rewrite (list_insert_insert_ne _ l i) by done.
    rewrite !list_insert_insert_eq.
    rewrite (list_insert_id _ l x) by done.
    by apply list_insert_id.
Qed.

Lemma _swap_drop (set s1 : Arrangement) l i :
  l <= i -> _swap set l i = Some s1 -> drop l s1 ≡ₚ drop l set.
Proof.
  intros Hle Hswap.
  apply (Permutation_app_inv_l (take l set)).
  rewrite <- (_swap_take _ _ _ _ Hle Hswap) at 1.
  rewrite !take_drop. by eapply _swap_perm.
Qed.

Lemma _permute_leaf fuel (set : Arrangement) r perms :
  r + 1 = length set ->
  exists new, _permute fuel set r r perms = Some (set, perms ++ new) /\
              permute_result set r 1 new.
Proof.
  intros Hr. exists [set]. split.
  - destruct fuel; cbn [_permute]; rewrite Nat.eqb_refl;
      unfold _Arrangement_Clone; rewrite decide_True by lia;
      cbn [mbind option_bind]; by rewrite take_ge by lia.
  - split; [by constructor|]. split; [done|].
    intros p Htake Hdrop.
    assert (drop r p = drop r set) as Heq.
    { destruct (drop r set) as [|x [|x' rest]] eqn:Hd.
      - by apply Permutation_nil_r in Hdrop.
      - by apply Permutation_singleton_r in Hdrop.
      - apply (f_equal length) in Hd. rewrite length_drop in Hd.
        cbn [length] in Hd. lia. }
    rewrite <- (take_drop r p), Htake, Heq, take_drop.
    apply list_elem_of_here.
Qed.

Lemma _permute_spec fuel : forall (set : Arrangement) l r perms,
  r + 1 = length set -> l <= r -> r - l <= fuel ->
  exists new, _permute fuel set l r perms = Some (set, perms ++ new) /\
              permute_result set l (fact (r + 1 - l)) new.
Proof.
  induction fuel as [|fuel IHf]; intros set l r perms Hr Hl Hfuel.
  { assert (l = r) as -> by lia.
    replace (r + 1 - r) with 1 by lia. by apply _permute_leaf. }
  destruct (decide (l = r)) as [->|Hne].
  { replace (r + 1 - r) with 1 by lia. by apply _permute_leaf. }
  cbn [_permute]. rewrite (proj2 (Nat.eqb_neq l r) Hne).
  set (body := fun (i : nat) (st : Arrangement * list Arrangement) =>
                 let '(set, permutations) := st in
                 set ← _swap set l i;
                 '(set, permutations) ← _permute fuel set (l + 1) r permutations;
                 set ← _swap set l i;
                 Some (set, permutations)).
  assert (forall i s ps,
            body i (s, ps) =
            (s1 ← _swap s l i;
             '(s2, ps2) ← _permute fuel s1 (l + 1) r ps;
             s3 ← _swap s2 l i;
             Some (s3, ps2))) as Hbody by done.
  assert (forall m k perms0, k + m = r + 1 -> l <= k ->
            exists new, for_each body (seq k m) (set, perms0) = Some (set, perms0 ++ new) /\
              permute_block set l (m * fact (r - l)) (fun i => k <= i <= r) new)
    as Hloop.
  { induction m as [|m IHm]; intros k perms0 Hk Hlk.
    - exists []. split; [by rewrite app_nil_r|].
      split; [done|]. split; [done|].
      intros p _ _ (i & Hi & _). lia.
    - cbn [seq for_each]. rewrite Hbody.
      destruct (lookup_lt_is_Some_2 set l) as [x Hx]; [lia|].
      destruct (lookup_lt_is_Some_2 set k) as [y Hy]; [lia|].
      pose proof (_swap_Some _ _ _ _ _ Hx Hy) as Hswap.
      rewrite Hswap. cbn [mbind option_bind].
      set (s1 := <[k:=x]> (<[l:=y]> set)) in *.
      destruct (IHf s1 (l + 1) r perms0) as (new1 & Hrec & Hall1 & Hlen1 & Hcomp1).
      { by rewrite (_swap_length _ _ _ _ Hswap). }
      { lia. }
      { lia. }
      rewrite Hrec. cbn [mbind option_bind].
      rewrite (_swap_back _ _ _ _ Hswap). cbn [mbind option_bind].
      destruct (IHm (S k) (perms0 ++ new1)) as (new2 & Hrest & Hall2 & Hlen2 & Hcomp2);
        [lia | lia |].
      exists (new1 ++ new2). split; [by rewrite Hrest, app_assoc|].
      split; [|split].
      + apply Forall_app. split; [|done].
        eapply Forall_impl; [exact Hall1|].
        intros p Hp. cbv beta in Hp. rewrite Hp. by eapply _swap_perm.
      + rewrite length_app, Hlen1, Hlen2.
        replace (r + 1 - (l + 1)) with (r - l) by lia. simpl. lia.
      + intros p Htake Hdrop (i & Hi & Hhead).
        apply elem_of_app.
        destruct (decide (i = k)) as [->|Hik].
        * left. rewrite Hy in Hhead.
          assert (s1 !! l = Some y) as Hs1l.
          { by rewrite (_swap_lookup_l _ _ _ _ Hswap). }
          apply Hcomp1.
          -- replace (l + 1) with (S l) by lia.
             rewrite (take_S_r _ _ _ Hhead), (take_S_r _ _ _ Hs1l).
             by rewrite Htake, (_swap_take _ _ _ _ Hlk Hswap).
          -- replace (l + 1) with (S l) by lia.
             apply (Permutation_cons_inv (a := y)).
             rewrite <- (drop_S _ _ _ Hhead), <- (drop_S _ _ _ Hs1l).
             rewrite Hdrop. symmetry. by eapply _swap_drop.
        * right. apply Hcomp2; [done | done |].
          exists i. split; [lia | done]. }
  destruct (Hloop (r + 1 - l) l perms) as (new & Hrun & Hall & Hlen & Hcomp);
    [lia | lia |].
  exists new. split; [exact Hrun|]. split; [done|]. split.
  - rewrite Hlen. replace (r + 1 - l) with (S (r - l)) by lia. done.
  - intros p Htake Hdrop. apply Hcomp; [done | done |].
    assert (is_Some (p !! l)) as [y Hy].
    { apply lookup_lt_is_Some.
      apply Permutation_length in Hdrop. rewrite !length_drop in Hdrop. lia. }
    assert (y ∈ drop l set) as Hin.
    { rewrite <- Hdrop. apply list_elem_of_lookup. exists 0.
      by rewrite lookup_drop, Nat.add_0_r. }
    apply list_elem_of_lookup in Hin as [j Hj]. rewrite lookup_drop in Hj.
    exists (l + j). split; [|congruence].
    apply lookup_lt_Some in Hj. lia.
Qed.

Lemma Zfact_fact n : Z.of_nat (fact n) = Zfact n.
Proof.
  induction n as [|n IH]; [done|].
  change (fact (S n)) with (S n * fact n).
  rewrite Nat2Z.inj_mul, IH. done.
Qed.

Lemma _factorial_fact n : n <= 20 -> _factorial n = Z.of_nat (fact n).
Proof.
  intros Hn. rewrite Zfact_fact.
  do 21 (destruct n as [|n]; [vm_compute; reflexivity|]).
  lia.
Qed.

Lemma _permute_top (exps : Arrangement) :
  1 <= length exps ->
  exists arrs,
    _permute (length exps) exps 0 (length exps - 1) [] = Some (exps, arrs) /\
    Forall (fun p => p ≡ₚ exps) arrs /\
    length arrs = fact (length exps) /\
    (forall p, p ≡ₚ exps -> p ∈ arrs).
Proof.
  intros Hn.
  destruct (_permute_spec (length exps) exps 0 (length exps - 1) [])
    as (new & Hrun & Hall & Hlen & Hcomp); [lia | lia | lia |].
  exists new. split; [done|]. split; [done|]. split.
  - rewrite Hlen. f_equal. lia.
  - intros p Hp. apply Hcomp; [done|]. by rewrite !drop_0.
Qed.

Lemma fact_even n : 2 <= n -> exists k, fact n = 2 * k.
Proof.
  induction n as [|n IH]; [lia|]. intros Hn.
  change (fact (S n)) with (S n * fact n).
  destruct (decide (n = 1)) as [->|Hne]; [by exists 1|].
  destruct IH as [k ->]; [lia|]. exists (S n * k). lia.
Qed.

(** an array of [n!] entries whose 32-bit length is 1 has one entry *)
Lemma array_len_fact_1 {A} (arr : list A) n :
  length arr = fact n -> array_len arr = 1%Z -> n <= 1.
Proof.
  intros Hlen Hone. destruct (decide (n <= 1)) as [|Hbig]; [done|]. exfalso.
  destruct (fact_even n) as [k Hk]; [lia|].
  unfold array_len, to_uint in Hone. rewrite Hlen, Hk in Hone.
  pose proof (Z.div_mod (Z.of_nat (2 * k)) (2 ^ 32) ltac:(lia)) as Hdiv.
  rewrite Hone in Hdiv. lia.
Qed.

Lemma fact_12 n : n <= 12 -> (Z.of_nat (fact n) <= 479001600)%Z.
Proof.
  intros Hn. rewrite Zfact_fact.
  do 13 (destruct n as [|n]; [vm_compute; discriminate|]).
  lia.
Qed.

Lemma _permutations_Some (exps : Arrangement) arrs :
  _permutations exps = Some arrs ->
  Forall (fun p => p ≡ₚ exps) arrs /\
  length arrs = fact (length exps) /\
  (forall p, p ≡ₚ exps -> p ∈ arrs).
Proof.
  destruct exps as [|e exps']; [by vm_compute|].
  set (exps := e :: exps'). unfold _permutations. cbv zeta.
  change (length exps =? 0) with false. cbv iota.
  destruct (_permute_top exps) as (new & Hrun & Hprops); [simpl; lia|].
  rewrite Hrun. cbn [mbind option_bind].
  destruct (array_len new =? _factorial (length exps))%Z; [|done].
  by intros [= <-].
Qed.

Lemma _permutations_total (exps : Arrangement) :
  1 <= length exps <= 12 -> is_Some (_permutations exps).
Proof.
  intros Hn. unfold _permutations. cbv zeta.
  destruct (_permute_top exps) as (new & Hrun & _ & Hlen & _); [lia|].
  assert ((length exps =? 0) = false) as -> by (apply Nat.eqb_neq; lia).
  rewrite Hrun. cbn [mbind option_bind].
  pose proof (fact_12 (length exps) ltac:(lia)) as Hfact.
  rewrite array_len_small by (rewrite Hlen; lia).
  rewrite Hlen, _factorial_fact, Z.eqb_refl by lia. by eexists.
Qed.

(** one to twelve expressions: the 32-bit count of the arrangements is [n!] *)
Lemma _permutations_count (exps : Arrangement) arrs :
  length exps <= 12 -> _permutations exps = Some arrs ->
  array_len arrs = Z.of_nat (length arrs) /\
  (Z.of_nat (length arrs) <= 479001600)%Z.
Proof.
  intros Hn Harrs. apply _permutations_Some in Harrs as (_ & Hlen & _).
  pose proof (fact_12 (length exps) Hn) as Hfact. rewrite <- Hlen in Hfact.
  split; [|done]. apply array_len_small. lia.
Qed.

End Permutations.

(** * The sequence resolver and the driver *)

Module Driver.
Import TraverseOrder.
Import Validity.
Import Permutations.

Lemma Transpose_involutive e :
  AlgebraicExpression_Transpose (AlgebraicExpression_Transpose e) = e.
Proof.
  destruct e. unfold AlgebraicExpression_Transpose. cbn. by rewrite negb_involutive.
Qed.

Lemma same_object_refl a : same_object a a.
Proof. by left. Qed.

Lemma same_object_trans a b c : same_object a b -> same_object b c -> same_object a c.
Proof.
  intros [->| ->] [->| ->]; [by left | by right | by right |].
  left. by rewrite Transpose_involutive.
Qed.

Lemma same_object_id a b : same_object a b -> ae_id b = ae_id a.
Proof. by intros [->| ->]. Qed.

Lemma same_object_endpoints a b :
  same_object a b ->
  (AlgebraicExpression_Source b = AlgebraicExpression_Source a /\
   AlgebraicExpression_Destination b = AlgebraicExpression_Destination a) \/
  (AlgebraicExpression_Source b = AlgebraicExpression_Destination a /\
   AlgebraicExpression_Destination b = AlgebraicExpression_Source a).
Proof. intros [->| ->]; [by left | by right]. Qed.

Lemma resolves_source_iff src prev :
  resolves_source src prev = true <->
  AlgebraicExpression_Source prev = src \/ AlgebraicExpression_Destination prev = src.
Proof. unfold resolves_source. by rewrite orb_true_iff, !RG_STRCMP_zero. Qed.

Lemma resolve_step (top cur : Arrangement) k :
  chaining_rule top -> 1 <= k < length top ->
  resolve_inv top k cur ->
  exists cur', resolve_body k cur = Some cur' /\ resolve_inv top (S k) cur'.
Proof.
  intros Hchain Hk (Hlen & Hsame & Hres & Hrest & Hzero).
  destruct (lookup_lt_is_Some_2 top k) as [exp Hexp]; [lia|].
  assert (cur !! k = Some exp) as Hcur by (rewrite Hrest by lia; done).
  unfold resolve_body. rewrite Hcur. cbn [mbind option_bind]. cbv zeta.
  rewrite scan_previous_existsb by lia. cbn [mbind option_bind].
  destruct (existsb _ (take k cur)) eqn:Hscan.
  - exists cur. split; [done|].
    split; [done|]. split; [done|]. split; [|split; [|done]].
    + intros i exp' Hi Hexp'.
      destruct (decide (i = k)) as [->|Hne]; [|apply Hres; [lia|done]].
      assert (exp' = exp) as -> by congruence.
      apply existsb_take_lookup in Hscan as (j & prev & Hj & Hprev & Ht).
      exists j, prev. by rewrite <- resolves_source_iff.
    + intros i Hi. apply Hrest. lia.
  - exists (<[k := AlgebraicExpression_Transpose exp]> cur). split; [done|].
    split; [by rewrite length_insert|]. split; [|split; [|split]].
    + rewrite <- (list_insert_id top k exp) by done.
      apply Forall2_insert; [done | by right].
    + intros i exp' Hi Hexp'.
      destruct (decide (i = k)) as [->|Hne].
      * rewrite list_lookup_insert_eq in Hexp' by lia.
        injection Hexp' as <-.
        destruct (Hchain k exp) as (j & prev & Hj & Hprev & Hshare); [lia|done|].
        destruct (Forall2_lookup_l _ _ _ _ _ Hsame Hprev) as (prev' & Hprev' & Hobj).
        exists j, prev'. split; [done|].
        split; [by rewrite list_lookup_insert_ne by lia|].
        assert (resolves_source (AlgebraicExpression_Source exp) prev' = false) as Hno.
        { destruct (resolves_source _ prev') eqn:E; [|done].
          assert (existsb (resolves_source (AlgebraicExpression_Source exp))
                          (take k cur) = true); [|congruence].
          apply existsb_take_lookup. by exists j, prev'. }
        assert (~ (AlgebraicExpression_Source prev' = AlgebraicExpression_Source exp \/
                   AlgebraicExpression_Destination prev' = AlgebraicExpression_Source exp))
          as Hno'.
        { rewrite <- resolves_source_iff. by rewrite Hno. }
        change (AlgebraicExpression_Source (AlgebraicExpression_Transpose exp))
          with (AlgebraicExpression_Destination exp).
        unfold shares_endpoint_rel in Hshare.
        destruct (same_object_endpoints _ _ Hobj) as [[Hs Hd]|[Hs Hd]];
          rewrite Hs, Hd in Hno'; rewrite Hs, Hd; tauto.
      * rewrite list_lookup_insert_ne in Hexp' by done.
        destruct (Hres i exp') as (j & prev & Hj & Hprev & Hok); [lia|done|].
        exists j, prev. split; [done|]. split; [|done].
        by rewrite list_lookup_insert_ne by lia.
    + intros i Hi. rewrite list_lookup_insert_ne by lia. apply Hrest. lia.
    + by rewrite list_lookup_insert_ne by lia.
Qed.

Lemma resolve_loop (top : Arrangement) :
  chaining_rule top ->
  forall m k cur, k + m = length top -> 1 <= k ->
    resolve_inv top k cur ->
    exists res, for_each resolve_body (seq k m) cur = Some res /\
                resolve_inv top (length top) res.
Proof.
  intros Hchain. induction m as [|m IH]; intros k cur Hkm Hk Hinv.
  - exists cur. split; [done|]. by replace (length top) with k by lia.
  - cbn [seq for_each].
    destruct (resolve_step top cur k) as (cur' & Hstep & Hinv'); [done|lia|done|].
    rewrite Hstep. cbn [mbind option_bind].
    apply IH; [lia | lia | done].
Qed.

Lemma _resolve_winning_sequence_spec (top : Arrangement) :
  top <> [] -> chaining_rule top ->
  exists res, _resolve_winning_sequence top = Some res /\
              length res = length top /\
              Forall2 same_object top res /\
              chain_resolved res /\
              res !! 0 = top !! 0.
Proof.
  intros Hne Hchain.
  assert (1 <= length top) by (destruct top; [done|simpl; lia]).
  destruct (resolve_loop top Hchain (length top - 1) 1 top)
    as (res & Hrun & Hlen & Hsame & Hres & _ & Hzero); [lia | lia | |].
  { split; [done|]. split; [|split; [|done]].
    - apply Forall_Forall2_diag, Forall_forall. intros. apply same_object_refl.
    - intros i exp Hi. lia. }
  exists res. split; [exact Hrun|]. split; [done|]. split; [done|]. split; [|done].
  intros i exp Hi Hexp. apply Hres; [|done].
  apply lookup_lt_Some in Hexp. lia.
Qed.

(** an arrangement that satisfies the chaining invariant is left alone *)
Lemma _resolve_winning_sequence_fixed (l : Arrangement) :
  chain_resolved l -> _resolve_winning_sequence l = Some l.
Proof.
  intros Hchain. unfold _resolve_winning_sequence. cbv zeta.
  assert (forall m k, k + m <= length l -> 1 <= k ->
            for_each resolve_body (seq k m) l = Some l) as Hloop.
  { induction m as [|m IH]; intros k Hkm Hk; [done|].
    cbn [seq for_each].
    destruct (lookup_lt_is_Some_2 l k) as [exp Hexp]; [lia|].
    assert (resolve_body k l = Some l) as ->.
    { unfold resolve_body. rewrite Hexp. cbn [mbind option_bind]. cbv zeta.
      rewrite scan_previous_existsb by lia. cbn [mbind option_bind].
      assert (existsb (resolves_source (AlgebraicExpression_Source exp)) (take k l)
              = true) as ->; [|done].
      destruct (Hchain k exp) as (j & prev & Hj & Hprev & Hok); [lia|done|].
      apply existsb_take_lookup. exists j, prev. by rewrite resolves_source_iff. }
    cbn [mbind option_bind]. apply IH; lia. }
  destruct l as [|e l']; [done|].
  apply Hloop; simpl; lia.
Qed.

(** *** The loops of [orderExpressions] *)

Lemma filter_loop qg arrs : forall acc v,
  for_each (filter_body qg) arrs acc = Some v ->
  forall a, a ∈ v ->
    a ∈ acc \/ (a ∈ arrs /\ _valid_arrangement a qg = Some true).
Proof.
  induction arrs as [|x arrs IH]; intros acc v Hrun a Ha.
  - injection Hrun as <-. by left.
  - cbn [for_each] in Hrun. apply bind_Some in Hrun as (acc' & Hstep & Hrun).
    unfold filter_body in Hstep. apply bind_Some in Hstep as (ok & Hok & Hstep).
    injection Hstep as <-.
    destruct (IH _ _ Hrun a Ha) as [Hin|[Hin Hv]].
    + destruct ok; [|by left].
      apply elem_of_app in Hin as [Hin|Hin]; [by left|].
      apply list_elem_of_singleton in Hin as ->.
      right. split; [apply list_elem_of_here | done].
    + right. split; [by apply list_elem_of_further | done].
Qed.

Lemma filter_loop_total qg arrs : forall acc,
  (forall a, a ∈ arrs -> is_Some (_valid_arrangement a qg)) ->
  exists v, for_each (filter_body qg) arrs acc = Some v /\
    forall a, a ∈ acc \/ (a ∈ arrs /\ _valid_arrangement a qg = Some true) -> a ∈ v.
Proof.
  induction arrs as [|x arrs IH]; intros acc Hall.
  - exists acc. split; [done|]. intros a [Ha|[Ha _]]; [done|].
    by apply elem_of_nil in Ha.
  - destruct (Hall x) as [ok Hok]; [apply list_elem_of_here|].
    cbn [for_each].
    assert (filter_body qg x acc = Some (if ok then acc ++ [x] else acc)) as ->
      by (unfold filter_body; by rewrite Hok).
    cbn [mbind option_bind].
    destruct (IH (if ok then acc ++ [x] else acc)) as (v & Hrun & Hv).
    { intros a Ha. by apply Hall, list_elem_of_further. }
    exists v. split; [done|].
    intros a [Ha|[Ha Hvalid]].
    + apply Hv. left. destruct ok; [|done]. apply elem_of_app. by left.
    + apply elem_of_cons in Ha as [->|Ha].
      * apply Hv. left. assert (ok = true) as -> by congruence.
        apply elem_of_app. right. apply list_elem_of_here.
      * apply Hv. by right.
Qed.

Lemma best_loop mt qg fe bv valid : forall m t m' t',
  for_each (best_body mt qg fe bv) valid (m, t) = Some (m', t') ->
  t' = t \/ t' ∈ valid.
Proof.
  induction valid as [|x valid IH]; intros m t m' t' Hrun.
  - injection Hrun as <- <-. by left.
  - cbn [for_each] in Hrun. apply bind_Some in Hrun as ([m1 t1] & Hstep & Hrun).
    unfold best_body in Hstep. apply bind_Some in Hstep as (score & _ & Hstep).
    destruct (IH _ _ _ _ Hrun) as [->|Hin]; [|right; by apply list_elem_of_further].
    destruct (m <? score)%Z; injection Hstep as <- <-; [right|by left].
    apply list_elem_of_here.
Qed.

Lemma best_loop_total mt qg fe bv valid : forall st,
  (forall a, a ∈ valid -> is_Some (_score_arrangement mt a qg fe bv)) ->
  is_Some (for_each (best_body mt qg fe bv) valid st).
Proof.
  induction valid as [|x valid IH]; intros [m t] Hall; [by eexists|].
  destruct (Hall x) as [score Hscore]; [apply list_elem_of_here|].
  cbn [for_each].
  assert (best_body mt qg fe bv x (m, t) =
          Some (if (m <? score)%Z then (score, x) else (m, t))) as ->.
  { unfold best_body. rewrite Hscore. cbn [mbind option_bind].
    by destruct (m <? score)%Z. }
  cbn [mbind option_bind].
  apply IH; intros a Ha; by apply Hall, list_elem_of_further.
Qed.

Lemma copy_loop (top exps : Arrangement) :
  length top = length exps ->
  for_each (copy_body top) (seq 0 (length exps)) exps = Some top.
Proof.
  intros Hlen.
  assert (forall m k cur, k + m = length top -> length cur = length top ->
            take k cur = take k top ->
            for_each (copy_body top) (seq k m) cur = Some top) as Hloop.
  { induction m as [|m IH]; intros k cur Hkm Hcur Htake.
    - cbn [seq for_each]. f_equal.
      rewrite <- (take_ge cur k), <- (take_ge top k) by lia. done.
    - cbn [seq for_each].
      destruct (lookup_lt_is_Some_2 top k) as [e He]; [lia|].
      assert (copy_body top k cur = Some (<[k:=e]> cur)) as ->
        by (unfold copy_body; by rewrite He).
      cbn [mbind option_bind].
      apply IH; [lia | by rewrite length_insert |].
      assert (<[k:=e]> cur !! k = Some e) as Hk
        by (apply list_lookup_insert_eq; lia).
      rewrite (take_S_r _ _ _ Hk), (take_S_r _ _ _ He).
      by rewrite take_insert_ge, Htake by lia. }
  apply Hloop; [lia | lia | done].
Qed.

Lemma fact_eq_1 n : fact n = 1 -> n <= 1.
Proof.
  destruct n as [|[|n]]; [lia | lia |].
  change (fact (S (S n))) with (S (S n) * fact (S n)).
  pose proof (lt_O_fact (S n)). nia.
Qed.

Lemma _select_entry_point_same_object qg e fe bv e' :
  _select_entry_point qg e fe bv = Some e' -> same_object e e'.
Proof.
  unfold _select_entry_point. cbv zeta.
  destruct (_ && _); [intros [= <-]; by left|].
  assert (forall o : option AlgebraicExpression,
            (o = Some e' -> same_object e e') ->
            match bv with
            | Some bound_vars =>
                if raxFound bound_vars (AlgebraicExpression_Source e) then Some e
                else if raxFound bound_vars (AlgebraicExpression_Destination e)
                     then Some (AlgebraicExpression_Transpose e)
                     else o
            | None => o
            end = Some e' -> same_object e e') as Hcases.
  { intros o Ho. destruct bv as [bv|]; [|done].
    destruct (raxFound bv _); [intros [= <-]; by left|].
    destruct (raxFound bv _); [intros [= <-]; by right|]. done. }
  apply Hcases.
  destruct (QueryGraph_GetNodeByAlias qg (AlgebraicExpression_Source e)); [|done].
  cbn [mbind option_bind].
  destruct (QueryGraph_GetNodeByAlias qg (AlgebraicExpression_Destination e)); [|done].
  cbn [mbind option_bind].
  destruct (_ <? _)%Z; intros [= <-]; [by right | by left].
Qed.

Lemma elem_of_take_in {A} (x : A) k (l : list A) : x ∈ take k l -> x ∈ l.
Proof.
  intros Hx. rewrite <- (take_drop k l). apply elem_of_app. by left.
Qed.

(** the filter loop and the scoring loop of [orderExpressions], which run
    over an index, as loops over the entries they read *)
Lemma filter_loop_indexed qg (arrs : list Arrangement) k valid :
  for_each (fun i valid_arrangements =>
              arrangement ← int_index arrs i;
              ok ← _valid_arrangement arrangement qg;
              Some (if ok : bool then valid_arrangements ++ [arrangement]
                    else valid_arrangements))
           (seq 0 k) [] = Some valid ->
  for_each (filter_body qg) (take k arrs) [] = Some valid.
Proof.
  intros Hrun.
  apply (for_each_indexed_Some (int_index arrs) (filter_body qg) arrs) in Hrun.
  - by rewrite drop_0 in Hrun.
  - apply int_index_Some.
Qed.

Lemma filter_loop_indexed_eq qg (arrs : list Arrangement) k :
  k <= length arrs -> (Z.of_nat k <= INT_MAX)%Z ->
  for_each (fun i valid_arrangements =>
              arrangement ← int_index arrs i;
              ok ← _valid_arrangement arrangement qg;
              Some (if ok : bool then valid_arrangements ++ [arrangement]
                    else valid_arrangements))
           (seq 0 k) [] =
  for_each (filter_body qg) (take k arrs) [].
Proof.
  intros Hk Hint.
  etrans; [apply (for_each_indexed (int_index arrs) (filter_body qg) arrs k 0 [])|].
  - lia.
  - intros i Hi. apply int_index_small. lia.
  - by rewrite drop_0.
Qed.

Lemma best_body_indexed mt qg fe bv (valid : list Arrangement) k st :
  for_each (fun i '(max_score, top_arrangement) =>
              arrangement ← valid !! i;
              score ← _score_arrangement mt arrangement qg fe bv;
              if (max_score <? score)%Z then Some (score, arrangement)
              else Some (max_score, top_arrangement))
           (seq 0 k) st =
  for_each (fun i st => x ← valid !! i; best_body mt qg fe bv x st) (seq 0 k) st.
Proof. apply for_each_ext. by intros i [m t]. Qed.

Lemma best_loop_indexed mt qg fe bv (valid : list Arrangement) k st r :
  for_each (fun i '(max_score, top_arrangement) =>
              arrangement ← valid !! i;
              score ← _score_arrangement mt arrangement qg fe bv;
              if (max_score <? score)%Z then Some (score, arrangement)
              else Some (max_score, top_arrangement))
           (seq 0 k) st = Some r ->
  for_each (best_body mt qg fe bv) (take k valid) st = Some r.
Proof.
  rewrite best_body_indexed. intros Hrun.
  apply (for_each_indexed_Some (fun i => valid !! i) (best_body mt qg fe bv) valid)
    in Hrun; [|done].
  by rewrite drop_0 in Hrun.
Qed.

Lemma best_loop_indexed_eq mt qg fe bv (valid : list Arrangement) k st :
  k <= length valid ->
  for_each (fun i '(max_score, top_arrangement) =>
              arrangement ← valid !! i;
              score ← _score_arrangement mt arrangement qg fe bv;
              if (max_score <? score)%Z then Some (score, arrangement)
              else Some (max_score, top_arrangement))
           (seq 0 k) st =
  for_each (best_body mt qg fe bv) (take k valid) st.
Proof.
  intros Hk. rewrite best_body_indexed.
  etrans; [apply (for_each_indexed (fun i => valid !! i) (best_body mt qg fe bv)
                    valid k 0 st)|].
  - lia.
  - done.
  - by rewrite drop_0.
Qed.

Lemma orderExpressions_inv mt qg exps filters bound_vars out tr :
  orderExpressions mt qg exps filters bound_vars = Some (out, tr) ->
  run_shape qg filters bound_vars exps out tr.
Proof.
  unfold orderExpressions. cbv zeta.
  destruct exps as [|e rest]; [done|].
  set (exps := e :: rest).
  assert ((0 <? length exps) = true) as -> by done.
  cbn [negb]. change (exps !! 0) with (Some e). cbn [mbind option_bind].
  rewrite RG_STRCMP_bool.
  destruct ((length exps =? 1) && _ && _) eqn:Hfast.
  { intros [= <- <-].
    apply andb_true_iff in Hfast as [Hfast Hloop].
    apply andb_true_iff in Hfast as [Hone Hoc].
    apply Nat.eqb_eq in Hone. apply Z.eqb_eq in Hoc.
    apply bool_decide_eq_true in Hloop.
    destruct rest; [|done]. by eapply run_fast. }
  intros Hrun. apply bind_Some in Hrun as (arrs & Harrs & Hrun).
  apply _permutations_Some in Harrs as (Hperm & Hcount & _).
  apply bind_Some in Hrun as (exps1 & Hexps1 & Hrun).
  apply bind_Some in Hrun as (e0 & He0 & Hrun).
  apply bind_Some in Hrun as (e0' & He0' & Hrun).
  injection Hrun as <- <-.
  destruct (array_len arrs =? 1)%Z eqn:Hone.
  - injection Hexps1 as <-.
    apply Z.eqb_eq in Hone. apply (array_len_fact_1 _ _ Hcount) in Hone.
    destruct rest; [|simpl in Hone; lia].
    injection He0 as <-.
    eapply (run_single _ _ _ _ _ _ e e0'); try done.
    intros [Hoc Hloop]. subst exps. cbn [length Nat.eqb andb] in Hfast.
    rewrite Hoc, bool_decide_eq_true_2 in Hfast by done. done.
  - apply Z.eqb_neq in Hone.
    assert (2 <= length exps) as Hn.
    { destruct rest; [|simpl; lia]. exfalso. apply Hone.
      unfold array_len. by rewrite Hcount. }
    apply bind_Some in Hexps1 as (valid & Hvalid & Hexps1).
    destruct (negb (0 <? array_len valid)%Z); [done|].
    apply bind_Some in Hexps1 as (top0 & Htop0 & Hexps1).
    apply bind_Some in Hexps1 as ([m top] & Hbest & Hexps1).
    apply bind_Some in Hexps1 as (copied & Hcopy & Hres).
    apply filter_loop_indexed in Hvalid. apply best_loop_indexed in Hbest.
    assert (top ∈ valid) as Htop.
    { apply (best_loop mt qg (FilterTree_CollectModified filters) bound_vars)
        in Hbest as [->|Hin]; [by eapply list_elem_of_lookup_2|].
      by eapply elem_of_take_in. }
    apply (filter_loop qg _ [] valid Hvalid) in Htop as [Hnil|[Hin Hok]];
      [by apply elem_of_nil in Hnil|].
    apply elem_of_take_in in Hin.
    assert (top ≡ₚ exps) as Htopperm.
    { rewrite Forall_forall in Hperm. by apply Hperm. }
    assert (copied = top) as ->.
    { assert (for_each (copy_body top) (seq 0 (length exps)) exps = Some copied)
        as Hc by exact Hcopy.
      rewrite copy_loop in Hc by (by apply Permutation_length). congruence. }
    by eapply (run_general _ _ _ _ _ _ top exps1 e0 e0').
Qed.

Lemma _valid_arrangement_chaining arr qg :
  _valid_arrangement arr qg = Some true -> chaining_rule arr.
Proof.
  unfold _valid_arrangement. cbv zeta. intros Hrun.
  apply bind_Some in Hrun as (e0 & He0 & Hrun).
  apply bind_Some in Hrun as (labelled & _ & Hrun).
  destruct (_ && _ && _); [done|].
  assert (0 < length arr) as Hlen by (by apply lookup_lt_Some in He0).
  destruct (_valid_chain_seq arr 1 (length arr - 1)) as (b & Hb & Hiff); [lia|].
  rewrite Hb in Hrun. injection Hrun as ->.
  intros i exp Hi Hexp. apply (proj1 Hiff eq_refl); [|done].
  apply lookup_lt_Some in Hexp. lia.
Qed.

Lemma chain_resolved_insert_0 (res : Arrangement) e0 e0' :
  res !! 0 = Some e0 -> same_object e0 e0' ->
  chain_resolved res -> chain_resolved (<[0 := e0']> res).
Proof.
  intros He0 Hobj Hchain i exp Hi Hexp.
  rewrite list_lookup_insert_ne in Hexp by lia.
  destruct (Hchain i exp Hi Hexp) as (j & prev & Hj & Hprev & Hok).
  destruct (decide (j = 0)) as [->|Hne].
  - assert (prev = e0) as -> by congruence.
    exists 0, e0'. split; [done|]. split.
    + apply list_lookup_insert_eq. by apply lookup_lt_Some in He0.
    + destruct (same_object_endpoints _ _ Hobj) as [[-> ->]|[-> ->]]; tauto.
  - exists j, prev. split; [done|]. split; [|done].
    by rewrite list_lookup_insert_ne by lia.
Qed.

Lemma Forall2_same_object_insert_0 (top res : Arrangement) e0 e0' :
  res !! 0 = Some e0 -> same_object e0 e0' ->
  Forall2 same_object top res -> Forall2 same_object top (<[0 := e0']> res).
Proof.
  intros He0 Hobj Hsame.
  destruct (Forall2_lookup_r _ _ _ _ _ Hsame He0) as (t0 & Ht0 & Hobj0).
  rewrite <- (list_insert_id top 0 t0) by done.
  apply Forall2_insert; [done|]. by eapply same_object_trans.
Qed.

Lemma Forall2_same_object_ids (l k : Arrangement) :
  Forall2 same_object l k -> map ae_id k = map ae_id l.
Proof.
  induction 1 as [|a b l k Hab _ IH]; [done|].
  cbn [map]. by rewrite IH, (same_object_id _ _ Hab).
Qed.

(** what every returned run guarantees *)
Lemma run_shape_result qg filters bound_vars exps out tr :
  run_shape qg filters bound_vars exps out tr ->
  chain_resolved out /\
  exists p, p ≡ₚ exps /\ Forall2 same_object p out.
Proof.
  intros [e -> -> _ _ _ | e e' -> -> _ Hsel | top res e0 e0' Hn Hperm Hvalid Hres He0 Hsel ->].
  - split.
    + intros i exp Hi Hexp. destruct i as [|[|i]]; [lia | done | done].
    + exists [e]. split; [done|]. constructor; [apply same_object_refl | constructor].
  - split.
    + intros i exp Hi Hexp. destruct i as [|[|i]]; [lia | done | done].
    + exists [e]. split; [done|].
      constructor; [by eapply _select_entry_point_same_object | constructor].
  - assert (top <> []) as Hne.
    { intros ->. apply Permutation_length in Hperm. simpl in Hperm. lia. }
    destruct (_resolve_winning_sequence_spec top Hne)
      as (res' & Hres' & _ & Hsame & Hchain & _).
    { by eapply _valid_arrangement_chaining. }
    assert (res' = res) as -> by congruence.
    apply _select_entry_point_same_object in Hsel.
    split.
    + by eapply chain_resolved_insert_0.
    + exists top. split; [done|]. by eapply Forall2_same_object_insert_0.
Qed.

(** C2.  When [orderExpressions] returns, the array has the length of the
    input and holds the same expression objects: the identities of the output
    are a permutation of the identities of the input, and the output is a
    permutation of the input in which every expression is the object it was,
    as it was or transposed. *)
Theorem orderExpressions_same_objects (maintain_transpose : bool) (qg : QueryGraph)
    (exps : Arrangement) (filters : FT_FilterNode) (bound_vars : option rax)
    (out : Arrangement) (tr : list Event) :
  orderExpressions maintain_transpose qg exps filters bound_vars = Some (out, tr) ->
  length out = length exps /\
  map ae_id out ≡ₚ map ae_id exps /\
  exists p, p ≡ₚ exps /\ Forall2 same_object p out.
Proof.
  intros Hrun. apply orderExpressions_inv, run_shape_result in Hrun
    as (_ & p & Hperm & Hsame).
  split; [|split].
  - rewrite <- (Forall2_length _ _ _ Hsame). by apply Permutation_length.
  - rewrite (Forall2_same_object_ids _ _ Hsame). by apply fmap_Permutation.
  - by exists p.
Qed.

Lemma aliases_present_perm qg (exps p : Arrangement) :
  p ≡ₚ exps -> aliases_present qg exps -> aliases_present qg p.
Proof. intros Hperm Hall e He. apply Hall. by rewrite <- Hperm. Qed.

Lemma _valid_arrangement_total qg (arr : Arrangement) :
  arr <> [] -> aliases_present qg arr -> is_Some (_valid_arrangement arr qg).
Proof.
  intros Hne Hall. destruct arr as [|e0 rest]; [done|].
  destruct (Hall e0) as [[s Hs] [d Hd]]; [apply list_elem_of_here|].
  rewrite (_valid_arrangement_unfold qg (e0 :: rest) e0 s d eq_refl Hs Hd).
  destruct (_ && _ && _); [by eexists|].
  destruct (_valid_chain_chaining (e0 :: rest)) as (b & -> & _); [simpl; lia|].
  by eexists.
Qed.

Lemma _valid_arrangement_complete qg (arr : Arrangement) :
  arr <> [] -> aliases_present qg arr ->
  chaining_rule arr -> opener_rule qg arr ->
  _valid_arrangement arr qg = Some true.
Proof.
  intros Hne Hall Hchain Hopen. destruct arr as [|e0 rest]; [done|].
  destruct (Hall e0) as [[s Hs] [d Hd]]; [apply list_elem_of_here|].
  rewrite (_valid_arrangement_unfold qg (e0 :: rest) e0 s d eq_refl Hs Hd).
  destruct (_ && _ && _) eqn:Hrej.
  - exfalso. apply (Hopen e0 eq_refl). by apply (opener_check qg e0 s d).
  - destruct (_valid_chain_chaining (e0 :: rest)) as (b & -> & Hiff); [simpl; lia|].
    f_equal. by apply Hiff.
Qed.

Lemma _score_arrangement_total mt qg fe bv (arr : Arrangement) :
  arr <> [] -> aliases_present qg arr -> (Z.of_nat (length arr) < 2 ^ 32)%Z ->
  is_Some (_score_arrangement mt arr qg fe bv).
Proof.
  intros Hne Hall Hlen. unfold _score_arrangement. cbv zeta.
  assert (is_Some (_penalty_arrangement mt arr)) as [pen ->].
  { destruct mt; [by eexists|].
    rewrite Penalty.penalty_arrangement_wrap by done. by eexists. }
  cbn [mbind option_bind].
  rewrite Reward.reward_arrangement_wrap; [by eexists | | done].
  intros e He. by apply Hall.
Qed.

Lemma _select_entry_point_total qg e fe bv :
  is_Some (QueryGraph_GetNodeByAlias qg (AlgebraicExpression_Source e)) ->
  is_Some (QueryGraph_GetNodeByAlias qg (AlgebraicExpression_Destination e)) ->
  is_Some (_select_entry_point qg e fe bv).
Proof.
  intros [s Hs] [d Hd].
  unfold _select_entry_point. cbv zeta. rewrite Hs, Hd. cbn [mbind option_bind].
  destruct (_ && _); [by eexists|].
  destruct (_ <? _)%Z; destruct bv as [bound|];
    repeat match goal with
           | |- context [raxFound ?b ?k] => destruct (raxFound b k)
           end; by eexists.
Qed.

Lemma filter_loop_length qg arrs : forall acc v,
  for_each (filter_body qg) arrs acc = Some v -> length v <= length acc + length arrs.
Proof.
  induction arrs as [|x arrs IH]; intros acc v Hrun.
  - injection Hrun as <-. lia.
  - cbn [for_each] in Hrun. apply bind_Some in Hrun as (acc' & Hstep & Hrun).
    unfold filter_body in Hstep. apply bind_Some in Hstep as (ok & _ & Hstep).
    injection Hstep as <-. apply IH in Hrun.
    destruct ok; rewrite ?length_app in Hrun; simpl in *; lia.
Qed.

Lemma orderExpressions_total mt qg (exps : Arrangement) filters bound_vars :
  1 <= length exps <= 12 ->
  aliases_present qg exps ->
  (2 <= length exps ->
   exists p, p ≡ₚ exps /\ chaining_rule p /\ opener_rule qg p) ->
  is_Some (orderExpressions mt qg exps filters bound_vars).
Proof.
  intros Hn Hall Hvalid.
  unfold orderExpressions. cbv zeta.
  destruct exps as [|e rest]; [simpl in Hn; lia|].
  set (exps := e :: rest) in *.
  assert ((0 <? length exps) = true) as -> by done.
  cbn [negb]. change (exps !! 0) with (Some e). cbn [mbind option_bind].
  destruct (_ && _ && _); [by eexists|].
  destruct (_permutations_total exps Hn) as [arrs Harrs].
  rewrite Harrs. cbn [mbind option_bind].
  destruct (_permutations_count exps arrs ltac:(lia) Harrs) as [Hlen32 Hsmall].
  apply _permutations_Some in Harrs as (Hperm & Hcount & Hcomp).
  rewrite Forall_forall in Hperm.
  set (fe := FilterTree_CollectModified filters).
  match goal with
  | |- is_Some (?m ≫= _) => assert (exists exps1 e0, m = Some exps1 /\
        exps1 !! 0 = Some e0 /\
        is_Some (QueryGraph_GetNodeByAlias qg (AlgebraicExpression_Source e0)) /\
        is_Some (QueryGraph_GetNodeByAlias qg (AlgebraicExpression_Destination e0)))
      as (exps1 & e0 & -> & He0 & Hs & Hd)
  end.
  { destruct (array_len arrs =? 1)%Z eqn:Hone.
    - exists exps, e. split; [done|]. split; [done|].
      apply Hall, list_elem_of_here.
    - apply Z.eqb_neq in Hone.
      assert (2 <= length exps) as Hn2.
      { destruct rest; [|simpl; lia]. exfalso. apply Hone.
        unfold array_len. by rewrite Hcount. }
      destruct (Hvalid Hn2) as (p & Hp & Hchain & Hopen).
      destruct (filter_loop_total qg arrs []) as (valid & Hfilter & Hin).
      { intros a Ha. apply _valid_arrangement_total.
        - intros ->. apply Hperm, Permutation_length in Ha. simpl in Ha. lia.
        - eapply aliases_present_perm; [by apply Hperm | done]. }
      assert (p ∈ valid) as Hpvalid.
      { apply Hin. right. split; [by apply Hcomp|].
        apply _valid_arrangement_complete; [| by eapply aliases_present_perm | done | done].
        intros ->. apply Permutation_length in Hp. simpl in Hp. lia. }
      rewrite Hlen32, Nat2Z.id.
      rewrite filter_loop_indexed_eq by (unfold INT_MAX; lia).
      rewrite firstn_all, Hfilter. cbn [mbind option_bind].
      pose proof (filter_loop_length qg arrs [] valid Hfilter) as Hvlen.
      simpl in Hvlen.
      assert (1 <= length valid) as Hvpos.
      { destruct valid; [by apply elem_of_nil in Hpvalid|]. simpl. lia. }
      rewrite (array_len_small valid) by lia.
      assert ((0 <? Z.of_nat (length valid))%Z = true) as -> by (apply Z.ltb_lt; lia).
      cbn [negb]. rewrite Nat2Z.id.
      destruct (lookup_lt_is_Some_2 valid 0) as [top0 Htop0]; [lia|].
      rewrite Htop0. cbn [mbind option_bind].
      assert (forall a, a ∈ valid -> a ≡ₚ exps) as Hvperm.
      { intros a Ha.
        destruct (filter_loop qg arrs [] valid Hfilter a Ha) as [Hnil|[Ha' _]];
          [by apply elem_of_nil in Hnil|]. by apply Hperm. }
      destruct (best_loop_total mt qg fe bound_vars valid (INT_MIN, top0))
        as [[m top] Hbest].
      { intros a Ha. apply Hvperm in Ha. apply _score_arrangement_total.
        - intros ->. apply Permutation_length in Ha. simpl in Ha. lia.
        - by eapply aliases_present_perm.
        - rewrite (Permutation_length Ha). lia. }
      assert (top ∈ valid) as Htop.
      { apply best_loop in Hbest as [->|?]; [|done].
        by eapply list_elem_of_lookup_2. }
      rewrite best_loop_indexed_eq by lia.
      rewrite firstn_all, Hbest. cbn [mbind option_bind].
      pose proof (Hvperm top Htop) as Htopperm.
      pose proof (copy_loop top exps (Permutation_length Htopperm)) as Hcopy.
      unfold copy_body in Hcopy. rewrite Hcopy. cbn [mbind option_bind].
      assert (top <> []) as Hne.
      { intros ->. apply Permutation_length in Htopperm. simpl in Htopperm. lia. }
      destruct (_resolve_winning_sequence_spec top Hne)
        as (res & Hres & _ & Hsame & _ & Hzero).
      { apply _valid_arrangement_chaining with qg.
        by destruct (filter_loop qg arrs [] valid Hfilter top Htop)
          as [Hnil|[_ ?]]; [apply elem_of_nil in Hnil|]. }
      destruct top as [|t0 trest]; [done|].
      exists res, t0. split; [done|]. split; [done|].
      apply (aliases_present_perm qg exps _ Htopperm Hall), list_elem_of_here. }
  cbn [mbind option_bind]. rewrite He0. cbn [mbind option_bind].
  destruct (_select_entry_point_total qg e0 fe bound_vars Hs Hd) as [e0' ->].
  by eexists.
Qed.

(** C1.  Whenever [orderExpressions] returns on [n] expressions, its output
    has [n] positions and satisfies the chaining invariant: at every position
    [i] in [1, n-1] there is an expression, and its source is the source or
    the destination of an expression at an earlier position.  And it does
    return on every input of 1 to 12 expressions (the number of arrangements
    is kept in 32-bit counters, which hold [n!] up to [n = 12]) whose aliases
    are all nodes of the query graph and, when there are two expressions or
    more, some ordering of which is valid. *)
Theorem orderExpressions_chain_resolved (maintain_transpose : bool)
    (qg : QueryGraph) (exps : Arrangement) (filters : FT_FilterNode)
    (bound_vars : option rax) :
  (forall out tr,
     orderExpressions maintain_transpose qg exps filters bound_vars = Some (out, tr) ->
     length out = length exps /\
     chain_resolved out /\
     forall i, 1 <= i < length exps ->
       exists exp j prev,
         out !! i = Some exp /\ j < i /\ out !! j = Some prev /\
         (AlgebraicExpression_Source prev = AlgebraicExpression_Source exp \/
          AlgebraicExpression_Destination prev = AlgebraicExpression_Source exp)) /\
  (1 <= length exps <= 12 ->
   aliases_present qg exps ->
   (2 <= length exps ->
    exists p, p ≡ₚ exps /\ chaining_rule p /\ opener_rule qg p) ->
   is_Some (orderExpressions maintain_transpose qg exps filters bound_vars)).
Proof.
  split.
  - intros out tr Hrun.
    apply orderExpressions_inv, run_shape_result in Hrun as (Hchain & p & Hperm & Hsame).
    assert (length out = length exps) as Hlen.
    { rewrite <- (Forall2_length _ _ _ Hsame). by apply Permutation_length. }
    split; [done|]. split; [done|].
    intros i Hi.
    destruct (lookup_lt_is_Some_2 out i) as [exp Hexp]; [lia|].
    destruct (Hchain i exp) as (j & prev & Hj & Hprev & Hsrc); [lia | done |].
    by exists exp, j, prev.
  - apply orderExpressions_total.
Qed.

(** *** Running the planner on its own output *)

Lemma perm_same_keys {A K} (f : A -> K) (l k : list A) :
  l ≡ₚ k -> map f l = map f k -> NoDup (map f k) -> l = k.
Proof.
  intros Hperm Hmap Hnodup. apply list_eq. intros i.
  pose proof (Permutation_length Hperm) as Hlen.
  destruct (l !! i) as [a|] eqn:Ha, (k !! i) as [b|] eqn:Hb.
  - f_equal.
    assert (f a = f b) as Hab.
    { assert (map f l !! i = Some (f a)) as H1 by (by rewrite list_lookup_fmap, Ha).
      assert (map f k !! i = Some (f b)) as H2 by (by rewrite list_lookup_fmap, Hb).
      rewrite Hmap in H1. congruence. }
    assert (a ∈ k) as Hin by (rewrite <- Hperm; by eapply list_elem_of_lookup_2).
    apply list_elem_of_lookup in Hin as [j Hj].
    assert (i = j) as ->; [|congruence].
    eapply NoDup_lookup; [exact Hnodup | |].
    + by rewrite list_lookup_fmap, Hb.
    + rewrite list_lookup_fmap, Hj. cbn. by rewrite Hab.
  - apply lookup_lt_Some in Ha. apply lookup_ge_None in Hb. lia.
  - apply lookup_ge_None in Ha. apply lookup_lt_Some in Hb. lia.
  - done.
Qed.

Lemma orderExpressions_single mt qg e filters bound_vars :
  ~ (AlgebraicExpression_OperandCount e = 1%Z /\
     AlgebraicExpression_Source e = AlgebraicExpression_Destination e) ->
  orderExpressions mt qg [e] filters bound_vars =
  (e0 ← _select_entry_point qg e (FilterTree_CollectModified filters) bound_vars;
   Some ([e0], [Ev_CollectModified; Ev_Permutations 1; Ev_raxFree;
                Ev_ArrangementsFree 1])).
Proof.
  intros Hslow. unfold orderExpressions. cbv zeta.
  cbn [length Nat.ltb Nat.leb negb lookup list_lookup mbind option_bind Nat.eqb andb].
  rewrite RG_STRCMP_bool.
  assert ((AlgebraicExpression_OperandCount e =? 1)%Z &&
          bool_decide (AlgebraicExpression_Source e = AlgebraicExpression_Destination e)
          = false) as ->.
  { apply andb_false_iff.
    destruct (Z.eqb_spec (AlgebraicExpression_OperandCount e) 1) as [H1|H1]; [|by left].
    right. apply bool_decide_eq_false. intros H2. by apply Hslow. }
  reflexivity.
Qed.

Lemma _select_entry_point_stable qg e fe bv e' :
  _select_entry_point qg e fe bv = Some e' ->
  _select_entry_point qg e' fe bv = Some e'.
Proof.
  intros Hsel. pose proof Hsel as Hsel0. revert Hsel.
  unfold _select_entry_point at 1. cbv zeta. rewrite RG_STRCMP_bool.
  destruct ((AlgebraicExpression_OperandCount e =? 1)%Z && _) eqn:Hloop.
  { by intros [= <-]. }
  assert (_select_entry_point qg (AlgebraicExpression_Transpose e) fe bv =
          match bv with
          | Some bound_vars =>
              if raxFound bound_vars (AlgebraicExpression_Destination e)
              then Some (AlgebraicExpression_Transpose e)
              else if raxFound bound_vars (AlgebraicExpression_Source e)
                   then Some (AlgebraicExpression_Transpose
                                (AlgebraicExpression_Transpose e))
                   else
                     dest_node ← QueryGraph_GetNodeByAlias qg
                                   (AlgebraicExpression_Destination e);
                     src_node ← QueryGraph_GetNodeByAlias qg
                                  (AlgebraicExpression_Source e);
                     if (0 + (if raxFound fe (AlgebraicExpression_Destination e)
                              then F else 0) + (if has_label dest_node then L else 0) <?
                         0 + (if raxFound fe (AlgebraicExpression_Source e)
                              then F else 0) + (if has_label src_node then L else 0))%Z
                     then Some (AlgebraicExpression_Transpose
                                  (AlgebraicExpression_Transpose e))
                     else Some (AlgebraicExpression_Transpose e)
          | None =>
              dest_node ← QueryGraph_GetNodeByAlias qg
                            (AlgebraicExpression_Destination e);
              src_node ← QueryGraph_GetNodeByAlias qg
                           (AlgebraicExpression_Source e);
              if (0 + (if raxFound fe (AlgebraicExpression_Destination e)
                       then F else 0) + (if has_label dest_node then L else 0) <?
                  0 + (if raxFound fe (AlgebraicExpression_Source e)
                       then F else 0) + (if has_label src_node then L else 0))%Z
              then Some (AlgebraicExpression_Transpose
                           (AlgebraicExpression_Transpose e))
              else Some (AlgebraicExpression_Transpose e)
          end) as HT.
  { unfold _select_entry_point. cbv zeta. rewrite RG_STRCMP_bool.
    change (AlgebraicExpression_Source (AlgebraicExpression_Transpose e))
      with (AlgebraicExpression_Destination e).
    change (AlgebraicExpression_Destination (AlgebraicExpression_Transpose e))
      with (AlgebraicExpression_Source e).
    change (AlgebraicExpression_OperandCount (AlgebraicExpression_Transpose e))
      with (AlgebraicExpression_OperandCount e).
    assert (bool_decide (AlgebraicExpression_Destination e = AlgebraicExpression_Source e)
            = bool_decide (AlgebraicExpression_Source e = AlgebraicExpression_Destination e))
      as -> by (apply bool_decide_ext; split; congruence).
    rewrite Hloop. done. }
  assert (forall s d,
            QueryGraph_GetNodeByAlias qg (AlgebraicExpression_Source e) = Some s ->
            QueryGraph_GetNodeByAlias qg (AlgebraicExpression_Destination e) = Some d ->
            (if (0 + (if raxFound fe (AlgebraicExpression_Source e) then F else 0) +
                 (if has_label s then L else 0) <?
                 0 + (if raxFound fe (AlgebraicExpression_Destination e) then F else 0) +
                 (if has_label d then L else 0))%Z
             then Some (AlgebraicExpression_Transpose e) else Some e) = Some e' ->
            (bv = None \/ exists bound, bv = Some bound /\
               raxFound bound (AlgebraicExpression_Source e) = false /\
               raxFound bound (AlgebraicExpression_Destination e) = false) ->
            _select_entry_point qg e' fe bv = Some e') as Hheur.
  { intros s d Hs Hd Hcmp Hbv.
    destruct (Z.ltb_spec
                (0 + (if raxFound fe (AlgebraicExpression_Source e) then F else 0) +
                 (if has_label s then L else 0))
                (0 + (if raxFound fe (AlgebraicExpression_Destination e) then F else 0) +
                 (if has_label d then L else 0))) as [Hlt|Hge].
    - injection Hcmp as <-. rewrite HT, Hs, Hd. cbn [mbind option_bind].
      rewrite (proj2 (Z.ltb_ge _ _)) by lia.
      destruct Hbv as [->|(bound & -> & Hbs & Hbd)]; [done|].
      cbv beta iota. by rewrite Hbs, Hbd.
    - by injection Hcmp as <-. }
  destruct bv as [bound|].
  - destruct (raxFound bound (AlgebraicExpression_Source e)) eqn:Hbs.
    { by intros [= <-]. }
    destruct (raxFound bound (AlgebraicExpression_Destination e)) eqn:Hbd.
    { intros [= <-]. by rewrite HT. }
    destruct (QueryGraph_GetNodeByAlias qg (AlgebraicExpression_Source e))
      as [s|] eqn:Hs; [|done].
    cbn [mbind option_bind].
    destruct (QueryGraph_GetNodeByAlias qg (AlgebraicExpression_Destination e))
      as [d|] eqn:Hd; [|done].
    cbn [mbind option_bind]. intros Hcmp.
    apply (Hheur s d); [done | done | done |]. right. by exists bound.
  - destruct (QueryGraph_GetNodeByAlias qg (AlgebraicExpression_Source e))
      as [s|] eqn:Hs; [|done].
    cbn [mbind option_bind].
    destruct (QueryGraph_GetNodeByAlias qg (AlgebraicExpression_Destination e))
      as [d|] eqn:Hd; [|done].
    cbn [mbind option_bind]. intros Hcmp.
    apply (Hheur s d); [done | done | done |]. by left.
Qed.

(** C8, as stated, fails: with transposes maintained, the planner turns
    [(a)->(b), (c)->(a)] into [(b)->(a), (a)->(c)]; run again on that array it
    returns [(c)->(a), (a)->(b)], the two expressions in the other order. *)
Lemma second_run_reorders :
  ~ idempotent_up_to_entry_point true reorder_qg reorder_filters None reorder_exps.
Proof.
  intros Hidem.
  destruct (Hidem reorder_out1 (planner_trace 2) reorder_out2 (planner_trace 2))
    as (Hids & _).
  - vm_compute. reflexivity.
  - vm_compute. reflexivity.
  - discriminate Hids.
Qed.

(** C8, amended.  After a first run that returned [out1]:
    - for a single expression, a second run returns [out1] unchanged;
    - in general a second run returns the expression objects of [out1],
      each as it was or transposed, possibly in another order;
    - when the identities are pairwise distinct and the second run keeps the
      order, every position [i >= 1] is unchanged and the first expression
      differs by at most one transpose. *)
Theorem orderExpressions_second_run (maintain_transpose : bool) (qg : QueryGraph)
    (exps : Arrangement) (filters : FT_FilterNode) (bound_vars : option rax)
    (out1 : Arrangement) (tr1 : list Event) :
  orderExpressions maintain_transpose qg exps filters bound_vars = Some (out1, tr1) ->
  (length exps = 1 ->
   exists tr2,
     orderExpressions maintain_transpose qg out1 filters bound_vars = Some (out1, tr2)) /\
  (forall out2 tr2,
     orderExpressions maintain_transpose qg out1 filters bound_vars = Some (out2, tr2) ->
     (exists p, p ≡ₚ out1 /\ Forall2 same_object p out2) /\
     (NoDup (map ae_id exps) -> map ae_id out2 = map ae_id out1 ->
      drop 1 out2 = drop 1 out1 /\
      exists e1 e2, out1 !! 0 = Some e1 /\ out2 !! 0 = Some e2 /\ same_object e1 e2)).
Proof.
  intros Hrun1. split.
  - intros Hone.
    destruct (orderExpressions_inv _ _ _ _ _ _ _ Hrun1)
      as [e He Hout _ _ _ | e e' -> -> Hslow Hsel | top res e0 e0' Hn _ _ _ _ _ _].
    + exists tr1. subst exps out1. exact Hrun1.
    + eexists. rewrite orderExpressions_single.
      * by rewrite (_select_entry_point_stable _ _ _ _ _ Hsel).
      * intros [Hoc Hloop]. apply Hslow.
        apply _select_entry_point_same_object in Hsel as [->| ->]; [done|].
        split; [done|]. by symmetry.
    + lia.
  - intros out2 tr2 Hrun2.
    pose proof (orderExpressions_inv _ _ _ _ _ _ _ Hrun2) as Hshape2.
    split; [by apply run_shape_result in Hshape2 as [_ ?]|].
    intros Hnodup Hids.
    destruct Hshape2
      as [e -> -> _ _ _ | e e' -> -> _ Hsel | top res e0 e0' Hn Hperm Hvalid Hres He0 Hsel ->].
    + split; [done|]. exists e, e. split; [done|]. split; [done|]. apply same_object_refl.
    + split; [done|]. exists e, e'. split; [done|]. split; [done|].
      by eapply _select_entry_point_same_object.
    + assert (top <> []) as Hne.
      { intros ->. apply Permutation_length in Hperm. simpl in Hperm. lia. }
      destruct (_resolve_winning_sequence_spec top Hne)
        as (res' & Hres' & _ & Hsame & _ & _).
      { by eapply _valid_arrangement_chaining. }
      assert (res' = res) as -> by congruence.
      apply _select_entry_point_same_object in Hsel.
      pose proof (Forall2_same_object_insert_0 _ _ _ _ He0 Hsel Hsame) as Hsame2.
      apply Forall2_same_object_ids in Hsame2. rewrite Hids in Hsame2.
      assert (top = out1) as ->.
      { apply (perm_same_keys ae_id); [done | done |].
        pose proof Hrun1 as Hrun1'.
        apply orderExpressions_inv, run_shape_result in Hrun1'
          as (_ & p1 & Hp1 & Hsame1).
        rewrite (Forall2_same_object_ids _ _ Hsame1).
        by rewrite (fmap_Permutation ae_id _ _ Hp1). }
      assert (chain_resolved out1) as Hchain.
      { by apply orderExpressions_inv, run_shape_result in Hrun1 as [? _]. }
      rewrite (_resolve_winning_sequence_fixed _ Hchain) in Hres.
      injection Hres as <-.
      split; [by rewrite drop_insert_lt by lia|].
      exists e0, e0'. split; [done|]. split; [|done].
      apply list_lookup_insert_eq. by apply lookup_lt_Some in He0.
Qed.

End Driver.

(** * Worked instances *)

Module Examples.
Import TraverseOrder Validity Reward Penalty EntryPoint FastPath Driver.
Import CondVarLenTraverseOp TraverseDirection.

Lemma is_Some_compute {A} (o : option A) :
  match o with Some _ => True | None => False end -> is_Some o.
Proof. destruct o; [by eexists | done]. Qed.

Lemma aliases_present_Forall qg (exps : Arrangement) :
  Forall (fun e =>
            is_Some (QueryGraph_GetNodeByAlias qg (AlgebraicExpression_Source e)) /\
            is_Some (QueryGraph_GetNodeByAlias qg (AlgebraicExpression_Destination e)))
         exps ->
  aliases_present qg exps.
Proof. intros H e He. by rewrite Forall_forall in H; apply H. Qed.

Lemma valid_rules qg (p : Arrangement) :
  aliases_present qg p -> _valid_arrangement p qg = Some true ->
  chaining_rule p /\ opener_rule qg p.
Proof.
  intros Hall Hvalid. destruct p as [|e0 rest]; [done|].
  destruct (Hall e0) as [[s Hs] [d Hd]]; [apply list_elem_of_here|].
  split; [by eapply _valid_arrangement_chaining|].
  rewrite (_valid_arrangement_unfold qg (e0 :: rest) e0 s d eq_refl Hs Hd) in Hvalid.
  destruct (_ && _ && _) eqn:Hrej; [done|].
  intros e0' [= <-] Hbad. apply (opener_check qg e0 s d) in Hbad; [|done|done].
  congruence.
Qed.

Lemma reorder_aliases_present : aliases_present reorder_qg reorder_exps.
Proof.
  apply aliases_present_Forall.
  repeat constructor; apply is_Some_compute; vm_compute; exact I.
Qed.

Lemma orderExpressions_chain_resolved_witness :
  (length reorder_out1 = length reorder_exps /\
   chain_resolved reorder_out1 /\
   forall i, 1 <= i < length reorder_exps ->
     exists exp j prev,
       reorder_out1 !! i = Some exp /\ j < i /\ reorder_out1 !! j = Some prev /\
       (AlgebraicExpression_Source prev = AlgebraicExpression_Source exp \/
        AlgebraicExpression_Destination prev = AlgebraicExpression_Source exp)) /\
  is_Some (orderExpressions true reorder_qg reorder_exps reorder_filters None).
Proof.
  destruct (orderExpressions_chain_resolved true reorder_qg reorder_exps
              reorder_filters None) as [Hchain Hreturns].
  split.
  - apply (Hchain reorder_out1 (planner_trace 2)). vm_compute. reflexivity.
  - apply Hreturns.
    + simpl. lia.
    + exact reorder_aliases_present.
    + intros _. exists reorder_exps. split; [reflexivity|].
      apply valid_rules; [exact reorder_aliases_present | vm_compute; reflexivity].
Defined.

Lemma orderExpressions_same_objects_witness :
  orderExpressions true reorder_qg reorder_exps reorder_filters None =
    Some (reorder_out1, planner_trace 2) /\
  (length reorder_out1 = length reorder_exps /\
   map ae_id reorder_out1 ≡ₚ map ae_id reorder_exps /\
   exists p, p ≡ₚ reorder_exps /\ Forall2 same_object p reorder_out1).
Proof.
  split; [vm_compute; reflexivity|].
  apply (orderExpressions_same_objects true reorder_qg reorder_exps reorder_filters
           None reorder_out1 (planner_trace 2)).
  vm_compute. reflexivity.
Defined.

Lemma valid_arrangement_iff_witness :
  reorder_exps !! 0 = Some (mkAE 1 "a" "b" (Some "r1") 2 0 false) /\
  exists b, _valid_arrangement reorder_exps reorder_qg = Some b /\
            (b = true <-> chaining_rule reorder_exps /\ opener_rule reorder_qg reorder_exps).
Proof.
  split; [reflexivity|].
  apply (valid_arrangement_iff reorder_qg reorder_exps
           (mkAE 1 "a" "b" (Some "r1") 2 0 false)).
  - reflexivity.
  - apply is_Some_compute. vm_compute. exact I.
  - apply is_Some_compute. vm_compute. exact I.
Defined.

Lemma select_entry_point_decision_witness :
  _select_entry_point reorder_qg (mkAE 1 "a" "b" (Some "r1") 1 0 false)
    {["a"]} (Some {["b"]}) =
    Some (select_entry_point_spec reorder_qg (mkAE 1 "a" "b" (Some "r1") 1 0 false)
            {["a"]} (Some {["b"]})) /\
  exists e0',
    _select_entry_point reorder_qg (mkAE 1 "a" "b" (Some "r1") 1 0 false)
      {["a"]} (Some {["b"]}) = Some e0' /\
    AlgebraicExpression_Source e0' ∈ ({["b"]} : rax).
Proof.
  destruct (select_entry_point_decision reorder_qg
              (mkAE 1 "a" "b" (Some "r1") 1 0 false) {["a"]} (Some {["b"]}))
    as [Htree Hbound].
  split.
  - apply Htree; apply is_Some_compute; vm_compute; exact I.
  - apply (Hbound {["b"]}); [reflexivity|].
    right. apply elem_of_singleton. reflexivity.
Defined.

Lemma reward_arrangement_sum_witness :
  (Z.of_nat (length reorder_exps) < 2 ^ 32)%Z /\
  in_int (reward_spec reorder_qg {["b"; "c"]} None reorder_exps) /\
  _reward_arrangement reorder_exps reorder_qg {["b"; "c"]} None =
    Some (reward_spec reorder_qg {["b"; "c"]} None reorder_exps).
Proof.
  assert (in_int (reward_spec reorder_qg {["b"; "c"]} None reorder_exps)) as Hfit.
  { unfold in_int. vm_compute. split; discriminate. }
  assert ((Z.of_nat (length reorder_exps) < 2 ^ 32)%Z) as Hlen by (simpl; lia).
  split; [exact Hlen|]. split; [exact Hfit|].
  apply (reward_arrangement_sum reorder_qg {["b"; "c"]} None reorder_exps).
  - intros e He. by apply reorder_aliases_present.
  - exact Hlen.
  - exact Hfit.
Defined.

Lemma penalty_arrangement_spec_witness :
  reorder_out1 <> [] /\
  in_int (penalty_spec reorder_out1) /\
  _penalty_arrangement false reorder_out1 = Some (penalty_spec reorder_out1) /\
  _penalty_arrangement true reorder_out1 = Some 0%Z.
Proof.
  destruct penalty_arrangement_spec as (Hzero & _ & Hpenalty).
  assert (in_int (penalty_spec reorder_out1)) as Hfit.
  { unfold in_int. vm_compute. split; discriminate. }
  split; [discriminate|]. split; [exact Hfit|]. split.
  - apply Hpenalty; [discriminate | exact Hfit].
  - apply Hzero.
Defined.

Lemma orderExpressions_fast_path_witness :
  AlgebraicExpression_OperandCount scan_a = 1%Z /\
  AlgebraicExpression_Source scan_a = AlgebraicExpression_Destination scan_a /\
  orderExpressions false reorder_qg [scan_a] reorder_filters None = Some ([scan_a], []).
Proof.
  split; [reflexivity|]. split; [reflexivity|].
  apply (orderExpressions_fast_path false reorder_qg scan_a reorder_filters None);
    reflexivity.
Defined.

Lemma orderExpressions_second_run_witness :
  orderExpressions true reorder_qg reorder_exps reorder_filters None =
    Some (reorder_out1, planner_trace 2) /\
  exists p, p ≡ₚ reorder_out1 /\ Forall2 same_object p reorder_out2.
Proof.
  assert (orderExpressions true reorder_qg reorder_exps reorder_filters None =
          Some (reorder_out1, planner_trace 2)) as Hrun1 by (vm_compute; reflexivity).
  split; [exact Hrun1|].
  destruct (orderExpressions_second_run true reorder_qg reorder_exps reorder_filters
              None reorder_out1 (planner_trace 2) Hrun1) as [_ Hsecond].
  apply (Hsecond reorder_out2 (planner_trace 2)). vm_compute. reflexivity.
Defined.

Lemma reward_expression_self_loop_witness :
  QueryGraph_GetNodeByAlias reorder_qg "a" = Some (mkNode (Some "L")) /\
  _reward_expression scan_a reorder_qg {["a"]} (Some {["a"]}) 3 =
  Some (bonus (is_bound (Some {["a"]}) "a") (2 * B * 3) +
        bonus (is_filtered {["a"]} "a") (2 * F * 3) +
        bonus (has_label (mkNode (Some "L"))) (L * 3))%Z.
Proof.
  split; [vm_compute; reflexivity|].
  apply (reward_expression_self_loop reorder_qg {["a"]} (Some {["a"]}) scan_a 3 "a"
           (mkNode (Some "L"))).
  - reflexivity.
  - reflexivity.
  - vm_compute. reflexivity.
  - unfold in_int. vm_compute. split; discriminate.
Defined.

Lemma NewCondVarLenTraverseOp_direction_witness :
  is_Some (NewCondVarLenTraverseOp (fun _ => Some 0%Z) (fun _ => 1%Z) (fun _ => false)
             traverse_plan (mkAE 1 "b" "a" (Some "r1") 1 1 true)).
Proof.
  destruct (NewCondVarLenTraverseOp_direction (fun _ => Some 0%Z) (fun _ => 1%Z)
              (fun _ => false) traverse_plan (mkAE 1 "b" "a" (Some "r1") 1 1 true))
    as [_ Hreturns].
  apply (Hreturns "r1" (mkEdge "r1" false 1 3)).
  - apply is_Some_compute. exact I.
  - reflexivity.
  - vm_compute. reflexivity.
Defined.

(** Label-first over bare edge: the opener is a label scan, not [R]. *)
Example scenario_label_first :
  orderExpressions true labeled_qg [edge_ab; scan_L0; scan_L1] (mkFilters []) None =
  Some ([scan_L0; edge_ab; scan_L1], planner_trace 6).
Proof. vm_compute. reflexivity. Qed.

(** Bound variable forces entry point: the traversal starts at [b]. *)
Example scenario_bound_entry :
  orderExpressions true plain_qg [edge_ab] (mkFilters []) (Some {["b"]}) =
  Some ([AlgebraicExpression_Transpose edge_ab], planner_trace 1).
Proof. vm_compute. reflexivity. Qed.

(** Filter beats label: [a] is labeled, [b] is filtered, the traversal starts
    at [b]. *)
Example scenario_filter_beats_label :
  orderExpressions true reorder_qg [edge_ab] (mkFilters ["b"]) None =
  Some ([AlgebraicExpression_Transpose edge_ab], planner_trace 1).
Proof. vm_compute. reflexivity. Qed.

End Examples.

(** * Further facts about the planner *)

Module PlannerFacts.
Import TraverseOrder Validity Reward Penalty EntryPoint Permutations Driver.

(** ** [_factorial] *)

Lemma _factorial_mod x : _factorial x = (Zfact x mod 2 ^ 64)%Z.
Proof.
  unfold _factorial. destruct x as [|x]; [done|].
  replace (S x - 1) with x by lia.
  induction x as [|x IH]; [done|].
  rewrite seq_S, fold_left_app, IH. cbn [fold_left].
  unfold to_ulong. rewrite Zmult_mod_idemp_l.
  f_equal. change (Zfact (S (S x))) with (Z.of_nat (S (S x)) * Zfact (S x))%Z.
  replace (2 + x) with (S (S x)) by lia. lia.
Qed.

Lemma Zfact_21_le x : 21 <= x -> (Zfact 21 <= Zfact x)%Z.
Proof.
  intros Hx. rewrite <- !Zfact_fact. apply Nat2Z.inj_le. by apply fact_le.
Qed.

(** X1.  [_factorial x] is [x!] reduced modulo 2^64; it is [x!] exactly when
    [x <= 20], and from 21 on the [unsigned long] has overflowed. *)
Theorem _factorial_exact_iff (x : nat) :
  _factorial x = (Z.of_nat (fact x) mod 2 ^ 64)%Z /\
  (_factorial x = Z.of_nat (fact x) <-> x <= 20).
Proof.
  rewrite Zfact_fact. split; [apply _factorial_mod|]. split.
  - intros Heq. destruct (decide (x <= 20)) as [|Hbig]; [done|]. exfalso.
    rewrite _factorial_mod in Heq.
    pose proof (Zfact_21_le x ltac:(lia)) as Hle.
    pose proof (Z.mod_pos_bound (Zfact x) (2 ^ 64) ltac:(lia)) as Hmod.
    assert (2 ^ 64 <= Zfact 21)%Z by (vm_compute; discriminate).
    lia.
  - intros Hx. rewrite <- Zfact_fact. by apply _factorial_fact.
Qed.

(** ** [_swap] *)

(** X2.  [_swap] exchanges the entries at [i] and [j] and leaves every other
    entry alone; the result is a permutation of the array and swapping again
    restores it.  With an index outside the array the swap reads out of
    bounds. *)
Theorem _swap_exchanges (exps : Arrangement) (i j : nat) :
  (i < length exps -> j < length exps ->
   exists s, _swap exps i j = Some s /\
             s !! i = exps !! j /\ s !! j = exps !! i /\
             (forall k, k <> i -> k <> j -> s !! k = exps !! k) /\
             s ≡ₚ exps /\
             _swap s i j = Some exps) /\
  (length exps <= i \/ length exps <= j -> _swap exps i j = None).
Proof.
  split.
  - intros Hi Hj.
    destruct (lookup_lt_is_Some_2 exps i Hi) as [x Hx].
    destruct (lookup_lt_is_Some_2 exps j Hj) as [y Hy].
    pose proof (_swap_Some _ _ _ _ _ Hx Hy) as Hswap.
    eexists. split; [exact Hswap|].
    split; [by apply _swap_lookup_l in Hswap|].
    split; [|split; [|split]].
    + rewrite list_lookup_insert_eq by (by rewrite length_insert). done.
    + intros k Hki Hkj. by rewrite !list_lookup_insert_ne by done.
    + by apply _swap_perm in Hswap.
    + by apply _swap_back.
  - intros Hout. unfold _swap.
    destruct (exps !! i) as [x|] eqn:Hx; [|done].
    destruct (exps !! j) as [y|] eqn:Hy; [|done].
    apply lookup_lt_Some in Hx. apply lookup_lt_Some in Hy. lia.
Qed.

(** ** [_permute] and [_permutations] *)

Lemma _swap_same (set s1 : Arrangement) l :
  _swap set l l = Some s1 -> s1 = set.
Proof.
  intros Hswap. apply _swap_inv in Hswap as (x & y & Hx & Hy & ->).
  assert (y = x) as -> by congruence.
  rewrite list_insert_insert_eq. by apply list_insert_id.
Qed.

Lemma _permute_appends fuel : forall (set : Arrangement) l r perms s' out,
  _permute fuel set l r perms = Some (s', out) ->
  exists new, out = perms ++ new.
Proof.
  induction fuel as [|fuel IH]; intros set l r perms s' out; cbn [_permute].
  - destruct (l =? r); [|done].
    destruct (_Arrangement_Clone set (r + 1)) as [c|]; [|done].
    intros [= <- <-]. by eexists.
  - destruct (l =? r).
    { destruct (_Arrangement_Clone set (r + 1)) as [c|]; [|done].
      intros [= <- <-]. by eexists. }
    generalize (seq l (r + 1 - l)). intros idx. revert set perms.
    induction idx as [|i idx IHidx]; intros set perms.
    + intros [= <- <-]. exists []. by rewrite app_nil_r.
    + cbn [for_each]. intros Hrun.
      apply bind_Some in Hrun as ([s1 p1] & Hstep & Hrun).
      apply bind_Some in Hstep as (sa & _ & Hstep).
      apply bind_Some in Hstep as ([sb pb] & Hrec & Hstep).
      apply bind_Some in Hstep as (sc & _ & Hstep).
      injection Hstep as <- <-.
      apply IH in Hrec as [new1 ->].
      apply IHidx in Hrun as [new2 ->].
      exists (new1 ++ new2). by rewrite app_assoc.
Qed.

Lemma _permute_head fuel : forall (set : Arrangement) l r perms s' out,
  r + 1 = length set -> l <= r ->
  _permute fuel set l r perms = Some (s', out) ->
  out !! length perms = Some set.
Proof.
  induction fuel as [|fuel IH]; intros set l r perms s' out Hr Hl.
  - cbn [_permute]. destruct (l =? r); [|done].
    unfold _Arrangement_Clone. rewrite decide_True by lia. cbn [mbind option_bind].
    intros [= <- <-]. rewrite take_ge by lia.
    by rewrite lookup_app_r, Nat.sub_diag by lia.
  - cbn [_permute]. destruct (l =? r) eqn:Hlr.
    { unfold _Arrangement_Clone. rewrite decide_True by lia. cbn [mbind option_bind].
      intros [= <- <-]. rewrite take_ge by lia.
      by rewrite lookup_app_r, Nat.sub_diag by lia. }
    apply Nat.eqb_neq in Hlr.
    replace (r + 1 - l) with (S (r - l)) by lia. cbn [seq for_each].
    intros Hrun.
    apply bind_Some in Hrun as ([s1 p1] & Hstep & Hrun).
    apply bind_Some in Hstep as (sa & Hswap & Hstep).
    apply bind_Some in Hstep as ([sb pb] & Hrec & Hstep).
    apply bind_Some in Hstep as (sc & _ & Hstep).
    injection Hstep as <- <-.
    apply _swap_same in Hswap as ->.
    assert (l + 1 <= r) as Hl1 by lia.
    pose proof (IH _ _ _ _ _ _ Hr Hl1 Hrec) as Hhead.
    assert (exists more, out = pb ++ more) as [more ->].
    { clear -Hrun.
      revert Hrun. generalize (seq (S l) (r - l)). intros idx. revert sc pb.
      induction idx as [|i idx IHidx]; intros sc pb.
      - intros [= <- <-]. exists []. by rewrite app_nil_r.
      - cbn [for_each]. intros Hrun.
        apply bind_Some in Hrun as ([s1 p1] & Hstep & Hrun).
        apply bind_Some in Hstep as (sa & _ & Hstep).
        apply bind_Some in Hstep as ([sb' pb'] & Hrec & Hstep).
        apply bind_Some in Hstep as (sd & _ & Hstep).
        injection Hstep as <- <-.
        apply _permute_appends in Hrec as [new1 ->].
        apply IHidx in Hrun as [new2 ->].
        exists (new1 ++ new2). by rewrite app_assoc. }
    rewrite lookup_app_l; [done|]. by apply lookup_lt_Some in Hhead.
Qed.

(** X3.  For 1 to 12 expressions, where [n!] fits the 32-bit length of an
    array, [_permutations] returns [n!] arrangements; an arrangement is among
    them exactly when it is a permutation of the input, and the first one is
    the input in its given order.  [_permute] hands the working array back as
    it received it.  On an empty array [_permutations] does not return. *)
Theorem _permutations_all (exps : Arrangement) :
  (1 <= length exps <= 12 ->
   exists arrs,
     _permutations exps = Some arrs /\
     _permute (length exps) exps 0 (length exps - 1) [] = Some (exps, arrs) /\
     length arrs = fact (length exps) /\
     (forall p, p ∈ arrs <-> p ≡ₚ exps) /\
     arrs !! 0 = Some exps) /\
  (exps = [] -> _permutations exps = None).
Proof.
  split; [|by intros ->].
  intros Hn.
  destruct (_permutations_total exps Hn) as [arrs Harrs].
  destruct (_permute_top exps) as (arrs' & Hrun & Hall & Hlen & Hcomp); [lia|].
  assert (arrs' = arrs) as ->.
  { unfold _permutations in Harrs. cbv zeta in Harrs. rewrite Hrun in Harrs.
    assert ((length exps =? 0) = false) as Hpos by (apply Nat.eqb_neq; lia).
    rewrite Hpos in Harrs. cbn [mbind option_bind] in Harrs.
    destruct (array_len arrs' =? _)%Z; congruence. }
  exists arrs. split; [done|]. split; [done|]. split; [done|]. split.
  - intros p. split; [|apply Hcomp].
    rewrite Forall_forall in Hall. apply Hall.
  - assert (length exps - 1 + 1 = length exps) as Hr by lia.
    assert (0 <= length exps - 1) as Hl by lia.
    apply (_permute_head _ _ _ _ [] _ _ Hr Hl Hrun).
Qed.

(** ** [_resolve_winning_sequence] *)

Lemma resolves_source_transpose src prev :
  resolves_source src (AlgebraicExpression_Transpose prev) = resolves_source src prev.
Proof. unfold resolves_source. apply orb_comm. Qed.

Lemma existsb_resolves_same_object src (l k : Arrangement) :
  Forall2 same_object l k ->
  existsb (resolves_source src) k = existsb (resolves_source src) l.
Proof.
  induction 1 as [|a b l k Hab _ IH]; [done|].
  cbn [existsb]. rewrite IH. f_equal.
  destruct Hab as [->| ->]; [done | apply resolves_source_transpose].
Qed.

Lemma resolved_form_length arr : length (resolved_form arr) = length arr.
Proof. unfold resolved_form. apply length_imap. Qed.

Lemma resolved_form_lookup arr i exp :
  arr !! i = Some exp ->
  resolved_form arr !! i =
  Some (match i with
        | O => exp
        | S _ => if bool_decide (source_resolved arr i exp) then exp
                 else AlgebraicExpression_Transpose exp
        end).
Proof. intros Hi. unfold resolved_form. by rewrite list_lookup_imap, Hi. Qed.

Lemma resolved_form_same_object arr : Forall2 same_object arr (resolved_form arr).
Proof.
  apply Forall2_same_length_lookup. split; [by rewrite resolved_form_length|].
  intros i x y Hx Hy. rewrite (resolved_form_lookup _ _ _ Hx) in Hy.
  injection Hy as <-. destruct i as [|i]; [by left|].
  destruct (bool_decide _); [by left | by right].
Qed.

Lemma resolve_loop_closed (arr : Arrangement) :
  forall m k, 1 <= k -> k + m = length arr ->
    for_each resolve_body (seq k m) (take k (resolved_form arr) ++ drop k arr) =
    Some (resolved_form arr).
Proof.
  induction m as [|m IH]; intros k Hk Hkm.
  - cbn [seq for_each]. f_equal.
    rewrite take_ge by (rewrite resolved_form_length; lia).
    rewrite drop_ge by lia. by rewrite app_nil_r.
  - cbn [seq for_each].
    destruct (lookup_lt_is_Some_2 arr k) as [exp Hexp]; [lia|].
    pose proof (resolved_form_lookup _ _ _ Hexp) as HR.
    assert (length (take k (resolved_form arr)) = k) as Hlen.
    { rewrite length_take, resolved_form_length. lia. }
    set (cur := take k (resolved_form arr) ++ drop k arr).
    assert (cur !! k = Some exp) as Hcur.
    { unfold cur. rewrite lookup_app_r by lia.
      rewrite Hlen, Nat.sub_diag, lookup_drop, Nat.add_0_r. done. }
    assert (take k cur = take k (resolved_form arr)) as Htake.
    { unfold cur. rewrite take_app_le by lia. by rewrite take_take, Nat.min_id. }
    assert (resolve_body k cur =
            Some (take (S k) (resolved_form arr) ++ drop (S k) arr)) as ->.
    { unfold resolve_body. rewrite Hcur. cbn [mbind option_bind]. cbv zeta.
      rewrite scan_previous_existsb
        by (unfold cur; rewrite length_app, Hlen, length_drop; lia).
      cbn [mbind option_bind]. rewrite Htake.
      rewrite (existsb_resolves_same_object _ (take k arr))
        by (apply Forall2_take, resolved_form_same_object).
      rewrite resolves_source_existsb.
      rewrite (take_S_r _ _ _ HR), <- app_assoc. cbn [app].
      destruct k as [|k']; [lia|].
      destruct (bool_decide (source_resolved arr (S k') exp)); f_equal.
      - unfold cur. by rewrite (drop_S _ _ _ Hexp).
      - unfold cur. rewrite (drop_S _ _ _ Hexp).
        rewrite insert_app_r_alt by lia. by rewrite Hlen, Nat.sub_diag. }
    cbn [mbind option_bind]. apply IH; lia.
Qed.

Lemma _resolve_winning_sequence_eq (arr : Arrangement) :
  _resolve_winning_sequence arr = Some (resolved_form arr).
Proof.
  unfold _resolve_winning_sequence. cbv zeta.
  destruct arr as [|e0 rest]; [done|].
  pose proof (resolve_loop_closed (e0 :: rest) (length rest) 1) as Hloop.
  cbn [length] in *. replace (S (length rest) - 1) with (length rest) by lia.
  rewrite <- Hloop by lia. done.
Qed.

(** X4.  Phase 1 always returns, and its result is [resolved_form]: the first
    expression is kept, and an expression at a position [i >= 1] is
    transposed exactly when its source is neither the source nor the
    destination of an expression before it in the array as given; every
    other expression is returned as it was. *)
Theorem _resolve_winning_sequence_closed_form (arr : Arrangement) :
  _resolve_winning_sequence arr = Some (resolved_form arr) /\
  length (resolved_form arr) = length arr /\
  resolved_form arr !! 0 = arr !! 0 /\
  (forall i exp, arr !! S i = Some exp ->
     resolved_form arr !! S i =
     Some (if bool_decide (source_resolved arr (S i) exp) then exp
           else AlgebraicExpression_Transpose exp)).
Proof.
  split; [apply _resolve_winning_sequence_eq|].
  split; [apply resolved_form_length|split].
  - destruct arr as [|e0 rest]; [done|]. by rewrite (resolved_form_lookup _ 0 e0).
  - intros i exp Hexp. by rewrite (resolved_form_lookup _ _ _ Hexp).
Qed.

(** X5.  On an arrangement that satisfies the chaining rule, phase 1 is
    idempotent: run on its own result it changes nothing.  Without the
    chaining rule a second pass can undo the first, as it does on
    [(a)->(b), (c)->(d)]. *)
Theorem _resolve_winning_sequence_idempotent :
  (forall arr, chaining_rule arr ->
     exists res, _resolve_winning_sequence arr = Some res /\
                 _resolve_winning_sequence res = Some res) /\
  (exists arr res,
     _resolve_winning_sequence arr = Some res /\
     res <> arr /\
     _resolve_winning_sequence res = Some arr).
Proof.
  split.
  - intros arr Hchain. destruct arr as [|e0 rest]; [by exists []|].
    destruct (_resolve_winning_sequence_spec (e0 :: rest)) as (res & Hres & _ & _ & Hok & _);
      [done | done |].
    exists res. split; [done|]. by apply _resolve_winning_sequence_fixed.
  - exists [mkAE 1 "a" "b" None 2 0 false; mkAE 2 "c" "d" None 2 0 false],
           [mkAE 1 "a" "b" None 2 0 false; mkAE 2 "d" "c" None 2 0 true].
    split; [vm_compute; reflexivity|]. split; [discriminate|].
    vm_compute. reflexivity.
Qed.

(** ** [_select_entry_point] *)

(** X6.  The entry-point selector is idempotent: applied to the expression it
    returned, it returns that expression again; and what it returns is the
    expression it was given, as it was or transposed. *)
Theorem _select_entry_point_idempotent (qg : QueryGraph) (e : AlgebraicExpression)
    (filtered_entities : rax) (bound_vars : option rax) (e' : AlgebraicExpression) :
  _select_entry_point qg e filtered_entities bound_vars = Some e' ->
  same_object e e' /\
  _select_entry_point qg e' filtered_entities bound_vars = Some e'.
Proof.
  intros Hsel. split.
  - by eapply _select_entry_point_same_object.
  - by eapply _select_entry_point_stable.
Qed.

(** X7.  The entry-point selector fails only by looking up a missing node: it
    does not return exactly when the expression is not a single-operand
    self-loop, neither endpoint is bound, and the source or the destination
    alias is not a node of the query graph. *)
Theorem _select_entry_point_fails (qg : QueryGraph) (e : AlgebraicExpression)
    (filtered_entities : rax) (bound_vars : option rax) :
  _select_entry_point qg e filtered_entities bound_vars = None <->
  ~ (AlgebraicExpression_OperandCount e = 1%Z /\
     AlgebraicExpression_Source e = AlgebraicExpression_Destination e) /\
  is_bound bound_vars (AlgebraicExpression_Source e) = false /\
  is_bound bound_vars (AlgebraicExpression_Destination e) = false /\
  (QueryGraph_GetNodeByAlias qg (AlgebraicExpression_Source e) = None \/
   QueryGraph_GetNodeByAlias qg (AlgebraicExpression_Destination e) = None).
Proof.
  unfold _select_entry_point. cbv zeta. rewrite RG_STRCMP_bool.
  destruct (Z.eqb_spec (AlgebraicExpression_OperandCount e) 1) as [Hoc|Hoc];
    destruct (decide (AlgebraicExpression_Source e = AlgebraicExpression_Destination e))
      as [Hloop|Hloop];
    rewrite ?(bool_decide_eq_true_2 _ Hloop), ?(bool_decide_eq_false_2 _ Hloop);
    cbn [andb].
  1: { split; [done|]. intros [Hno _]. exfalso. by apply Hno. }
  all: unfold is_bound, raxFound;
    destruct bound_vars as [bv|];
    repeat match goal with
           | |- context [bool_decide (?k ∈ bv)] => destruct (bool_decide (k ∈ bv))
           end;
    destruct (QueryGraph_GetNodeByAlias qg (AlgebraicExpression_Source e)) as [s|];
    destruct (QueryGraph_GetNodeByAlias qg (AlgebraicExpression_Destination e)) as [d|];
    cbn [mbind option_bind];
    try match goal with
        | |- context [(?a <? ?b)%Z] => destruct (a <? b)%Z
        end;
    split; try done; try (intros (_ & ? & ? & [?|?]); done);
    intros _; (split; [tauto|]); (split; [done|]); (split; [done|]); tauto.
Qed.

(** ** [_reward_expression] *)

Lemma reward_expression_spec_bounds qg fe bv exp factor :
  (0 <= factor)%Z ->
  (bonus (has_bound_endpoint bv exp) (B * factor)
   <= reward_expression_spec qg fe bv exp factor
   <= bonus (has_bound_endpoint bv exp) (2 * B * factor) + (2 * F + L) * factor)%Z.
Proof.
  intros Hf. unfold reward_expression_spec, has_bound_endpoint, bonus, B, F, L, T.
  destruct (is_bound bv (AlgebraicExpression_Source exp)),
    (is_bound bv (AlgebraicExpression_Destination exp)),
    (is_filtered fe (AlgebraicExpression_Source exp)),
    (is_filtered fe (AlgebraicExpression_Destination exp)),
    (is_labeled qg (AlgebraicExpression_Source exp)); cbn [orb]; lia.
Qed.

Lemma _reward_expression_Some qg fe bv exp factor r :
  _reward_expression exp qg fe bv factor = Some r ->
  is_Some (QueryGraph_GetNodeByAlias qg (AlgebraicExpression_Source exp)).
Proof.
  unfold _reward_expression. cbv zeta.
  destruct (QueryGraph_GetNodeByAlias qg (AlgebraicExpression_Source exp)); [by eexists|].
  done.
Qed.

(** X8.  At one and the same weight, an expression with a bound endpoint is
    rewarded strictly more than any expression without one, whatever the
    filters and labels: the bound bonus outweighs two filter bonuses and a
    label bonus together. *)
Theorem bound_endpoint_dominates (qg : QueryGraph) (filtered_entities : rax)
    (bound_vars : option rax) (e1 e2 : AlgebraicExpression) (factor r1 r2 : Z) :
  (1 <= factor)%Z -> (74 * factor <= INT_MAX)%Z ->
  has_bound_endpoint bound_vars e1 = true ->
  has_bound_endpoint bound_vars e2 = false ->
  _reward_expression e1 qg filtered_entities bound_vars factor = Some r1 ->
  _reward_expression e2 qg filtered_entities bound_vars factor = Some r2 ->
  (r2 < r1)%Z.
Proof.
  intros Hf Hmax Hb1 Hb2 Hr1 Hr2.
  pose proof (_reward_expression_Some _ _ _ _ _ _ Hr1) as Hn1.
  pose proof (_reward_expression_Some _ _ _ _ _ _ Hr2) as Hn2.
  rewrite reward_expression_wrap in Hr1, Hr2 by done.
  pose proof (reward_expression_spec_bounds qg filtered_entities bound_vars e1 factor
                ltac:(lia)) as Hs1.
  pose proof (reward_expression_spec_bounds qg filtered_entities bound_vars e2 factor
                ltac:(lia)) as Hs2.
  rewrite Hb1 in Hs1. rewrite Hb2 in Hs2.
  unfold bonus, B, F, L, T, INT_MAX in *.
  rewrite to_int_small in Hr1, Hr2 by (unfold in_int, INT_MIN, INT_MAX; lia).
  injection Hr1 as <-. injection Hr2 as <-. lia.
Qed.

Lemma _reward_expression_None qg fe bv exp factor :
  _reward_expression exp qg fe bv factor = None <->
  QueryGraph_GetNodeByAlias qg (AlgebraicExpression_Source exp) = None.
Proof.
  unfold _reward_expression. cbv zeta.
  by destruct (QueryGraph_GetNodeByAlias qg (AlgebraicExpression_Source exp)).
Qed.

Lemma for_each_None {A St} (body : A -> St -> option St) (bad : A -> Prop) (l : list A) :
  (forall x s, body x s = None <-> bad x) ->
  forall s, for_each body l s = None <-> Exists bad l.
Proof.
  intros Hbad. induction l as [|x l IH]; intros s.
  - cbn [for_each]. split; [done|]. intros H. inversion H.
  - cbn [for_each]. rewrite Exists_cons.
    destruct (body x s) as [s'|] eqn:Hbody; cbn [mbind option_bind].
    + rewrite IH. split; [by right|]. intros [Hx|Hl]; [|done].
      apply Hbad with (s := s) in Hx. congruence.
    + split; [|done]. intros _. left. by apply (Hbad x s).
Qed.

(** X9.  Scoring reads the node of every source alias and of no destination
    alias.  [_score_arrangement] fails exactly when some expression of the
    arrangement has a source that is not a node of the query graph, or when
    the arrangement is empty and transposes are not maintained (the penalty
    reads the first expression); a destination missing from the graph goes
    unnoticed. *)
Theorem _score_arrangement_fails (maintain_transpose : bool) (qg : QueryGraph)
    (filtered_entities : rax) (bound_vars : option rax) (arr : Arrangement) :
  _score_arrangement maintain_transpose arr qg filtered_entities bound_vars = None <->
  (maintain_transpose = false /\ arr = []) \/
  exists e, e ∈ arr /\
            QueryGraph_GetNodeByAlias qg (AlgebraicExpression_Source e) = None.
Proof.
  assert (_reward_arrangement arr qg filtered_entities bound_vars = None <->
          exists e, e ∈ arr /\
            QueryGraph_GetNodeByAlias qg (AlgebraicExpression_Source e) = None) as Hreward.
  { unfold _reward_arrangement. cbv zeta.
    rewrite (for_each_None _
               (fun i => match arr !! i with
                         | Some e => QueryGraph_GetNodeByAlias qg
                                       (AlgebraicExpression_Source e) = None
                         | None => True
                         end)).
    - rewrite Exists_exists. split.
      + intros (i & Hi & Hbad). apply elem_of_seq in Hi.
        destruct (lookup_lt_is_Some_2 arr i) as [e He]; [lia|].
        rewrite He in Hbad. exists e. split; [|done]. by eapply list_elem_of_lookup_2.
      + intros (e & He & Hbad). apply list_elem_of_lookup_1 in He as [i Hi].
        exists i. split; [|by rewrite Hi].
        apply elem_of_seq. apply lookup_lt_Some in Hi. lia.
    - intros i r. destruct (arr !! i) as [e|]; cbn [mbind option_bind]; [|done].
      rewrite <- (_reward_expression_None qg filtered_entities bound_vars e
                    (to_uint (Z.of_nat (length arr) - Z.of_nat i))).
      by destruct (_reward_expression e qg filtered_entities bound_vars _). }
  unfold _score_arrangement. cbv zeta.
  destruct maintain_transpose.
  - cbn [_penalty_arrangement mbind option_bind].
    destruct (_reward_arrangement arr qg filtered_entities bound_vars) eqn:Hr;
      cbn [mbind option_bind].
    + split; [done|]. intros [[? _]|Hex]; [done|]. apply Hreward in Hex. congruence.
    + split; [|done]. intros _. right. by apply Hreward.
  - destruct arr as [|e0 rest].
    + split; [|done]. intros _. by left.
    + rewrite Penalty.penalty_arrangement_wrap by done. cbn [mbind option_bind].
      destruct (_reward_arrangement (e0 :: rest) qg filtered_entities bound_vars) eqn:Hr;
        cbn [mbind option_bind].
      * split; [done|]. intros [[_ ?]|Hex]; [done|]. apply Hreward in Hex. congruence.
      * split; [|done]. intros _. right. by apply Hreward.
Qed.

(** ** [_valid_arrangement] *)

Lemma same_object_flip a b : same_object a b -> same_object b a.
Proof.
  intros [->| ->]; [by left|]. right. by rewrite Transpose_involutive.
Qed.

Lemma shares_endpoint_rel_same_object p p' e e' :
  same_object p p' -> same_object e e' ->
  shares_endpoint_rel p e -> shares_endpoint_rel p' e'.
Proof.
  unfold shares_endpoint_rel. intros Hp He Hshare.
  destruct (same_object_endpoints _ _ Hp) as [[-> ->]|[-> ->]];
    destruct (same_object_endpoints _ _ He) as [[-> ->]|[-> ->]]; tauto.
Qed.

Lemma chaining_rule_same_object (arr arr' : Arrangement) :
  Forall2 same_object arr arr' -> chaining_rule arr -> chaining_rule arr'.
Proof.
  intros Hsame Hchain i exp' Hi Hexp'.
  destruct (Forall2_lookup_r _ _ _ _ _ Hsame Hexp') as (exp & Hexp & Hobj).
  destruct (Hchain i exp Hi Hexp) as (j & prev & Hj & Hprev & Hshare).
  destruct (Forall2_lookup_l _ _ _ _ _ Hsame Hprev) as (prev' & Hprev' & Hobj').
  exists j, prev'. split; [done|]. split; [done|].
  by eapply shares_endpoint_rel_same_object.
Qed.

Lemma _valid_arrangement_opener qg (arr : Arrangement) :
  _valid_arrangement arr qg = Some true -> opener_rule qg arr.
Proof.
  unfold _valid_arrangement. cbv zeta. intros Hrun e0 He0 (Hedge & Hoc & Hlab).
  rewrite He0 in Hrun. cbn [mbind option_bind] in Hrun.
  destruct (QueryGraph_GetNodeByAlias qg (AlgebraicExpression_Source e0))
    as [s|] eqn:Hs; [|done].
  cbn [mbind option_bind] in Hrun.
  rewrite (bool_decide_eq_true_2 _ Hedge), Hoc in Hrun.
  destruct (has_label s) eqn:Hls; [done|].
  destruct (QueryGraph_GetNodeByAlias qg (AlgebraicExpression_Destination e0))
    as [d|] eqn:Hd; [|done].
  cbn [mbind option_bind] in Hrun.
  destruct (has_label d) eqn:Hld; [done|].
  destruct Hlab as [Hlab|Hlab].
  - apply (node_labeled_lookup _ _ _ Hs) in Hlab. congruence.
  - apply (node_labeled_lookup _ _ _ Hd) in Hlab. congruence.
Qed.

(** X10.  The validity filter does not depend on the orientation of the
    expressions: with every alias a node of the query graph, an arrangement
    and the same arrangement with any of its expressions transposed get the
    same verdict. *)
Theorem _valid_arrangement_orientation (qg : QueryGraph) (arr arr' : Arrangement) :
  aliases_present qg arr ->
  Forall2 same_object arr arr' ->
  _valid_arrangement arr' qg = _valid_arrangement arr qg.
Proof.
  intros Hall Hsame.
  destruct Hsame as [|e0 e0' rest rest' Hobj Hrest]; [done|].
  assert (Forall2 same_object (e0 :: rest) (e0' :: rest')) as Hsame
    by (by constructor).
  destruct (Hall e0) as [[s Hs] [d Hd]]; [apply list_elem_of_here|].
  rewrite (_valid_arrangement_unfold qg (e0 :: rest) e0 s d eq_refl Hs Hd).
  destruct (_valid_chain_chaining (e0 :: rest)) as (b & -> & Hb); [simpl; lia|].
  destruct (_valid_chain_chaining (e0' :: rest')) as (b' & Hrun' & Hb'); [simpl; lia|].
  assert (b' = b) as ->.
  { destruct b, b'; try done.
    - exfalso. assert (false = true); [|done]. apply Hb'.
      eapply chaining_rule_same_object; [exact Hsame | by apply Hb].
    - exfalso. assert (false = true); [|done]. apply Hb.
      eapply (chaining_rule_same_object (e0' :: rest'));
        [|by apply Hb'].
      apply Forall2_flip. eapply Forall2_impl; [exact Hsame|].
      intros x y Hxy. by apply same_object_flip. }
  destruct Hobj as [->| ->].
  - by rewrite (_valid_arrangement_unfold qg (e0 :: rest') e0 s d eq_refl Hs Hd), Hrun'.
  - rewrite (_valid_arrangement_unfold qg (AlgebraicExpression_Transpose e0 :: rest')
               (AlgebraicExpression_Transpose e0) d s eq_refl Hd Hs), Hrun'.
    by rewrite (orb_comm (has_label d)).
Qed.

(** ** [orderExpressions] *)

(** X11.  With two expressions or more, the first expression of the output
    passes the opener rule: it is never a single-operand edge expression with
    a labeled endpoint. *)
Theorem orderExpressions_opener (maintain_transpose : bool) (qg : QueryGraph)
    (exps : Arrangement) (filters : FT_FilterNode) (bound_vars : option rax)
    (out : Arrangement) (tr : list Event) :
  2 <= length exps ->
  orderExpressions maintain_transpose qg exps filters bound_vars = Some (out, tr) ->
  opener_rule qg out.
Proof.
  intros Hn Hrun.
  destruct (orderExpressions_inv _ _ _ _ _ _ _ Hrun)
    as [e -> _ _ _ _ | e e' -> _ _ _ | top res e0 e0' _ Hperm Hvalid Hres He0 Hsel ->];
    [simpl in Hn; lia | simpl in Hn; lia |].
  rewrite _resolve_winning_sequence_eq in Hres. injection Hres as <-.
  apply _valid_arrangement_opener in Hvalid.
  apply _select_entry_point_same_object in Hsel.
  destruct top as [|t0 trest]; [done|].
  rewrite (resolved_form_lookup (t0 :: trest) 0 t0 eq_refl) in He0.
  injection He0 as <-.
  intros x Hx (Hedge & Hoc & Hlab).
  rewrite list_lookup_insert_eq in Hx by (rewrite resolved_form_length; simpl; lia).
  injection Hx as <-.
  apply (Hvalid t0 eq_refl).
  destruct Hsel as [->| ->]; [done|].
  split; [done|]. split; [done|]. tauto.
Qed.

(** X12.  [orderExpressions] does not return on an empty array, nor on two
    expressions or more of which no ordering passes the validity filter (the
    assertion that a valid arrangement exists). *)
Theorem orderExpressions_fails (maintain_transpose : bool) (qg : QueryGraph)
    (filters : FT_FilterNode) (bound_vars : option rax) :
  orderExpressions maintain_transpose qg [] filters bound_vars = None /\
  (forall exps,
     2 <= length exps ->
     (forall p, p ≡ₚ exps -> ~ passes_filter qg p) ->
     orderExpressions maintain_transpose qg exps filters bound_vars = None).
Proof.
  split; [done|].
  intros exps Hn Hnone.
  destruct (orderExpressions maintain_transpose qg exps filters bound_vars)
    as [[out tr]|] eqn:Hrun; [|done].
  exfalso.
  destruct (orderExpressions_inv _ _ _ _ _ _ _ Hrun)
    as [e -> _ _ _ _ | e e' -> _ _ _ | top res e0 e0' _ Hperm Hvalid _ _ _ _];
    [simpl in Hn; lia | simpl in Hn; lia |].
  by apply (Hnone top).
Qed.

Lemma _score_arrangement_in_int mt arr qg fe bv s :
  _score_arrangement mt arr qg fe bv = Some s -> in_int s.
Proof.
  unfold _score_arrangement. cbv zeta. intros Hrun.
  apply bind_Some in Hrun as (pen & _ & Hrun).
  apply bind_Some in Hrun as (rew & _ & Hrun).
  injection Hrun as <-. apply to_int_range.
Qed.

Lemma filter_loop_filter qg arrs : forall acc v,
  for_each (filter_body qg) arrs acc = Some v ->
  v = acc ++ filter (fun a => _valid_arrangement a qg = Some true) arrs.
Proof.
  induction arrs as [|x arrs IH]; intros acc v Hrun.
  - injection Hrun as <-. by rewrite app_nil_r.
  - cbn [for_each] in Hrun. apply bind_Some in Hrun as (acc' & Hstep & Hrun).
    unfold filter_body in Hstep. apply bind_Some in Hstep as (ok & Hok & Hstep).
    injection Hstep as <-. apply IH in Hrun as ->.
    rewrite filter_cons. destruct ok.
    + rewrite decide_True by done. by rewrite <- app_assoc.
    + rewrite decide_False by congruence. done.
Qed.

Lemma best_loop_spec mt qg fe bv valid : forall m t m' t',
  for_each (best_body mt qg fe bv) valid (m, t) = Some (m', t') ->
  (m <= m')%Z /\
  (forall a, a ∈ valid ->
     exists sa, _score_arrangement mt a qg fe bv = Some sa /\ (sa <= m')%Z) /\
  ((m' = m /\ t' = t) \/
   (t' ∈ valid /\ _score_arrangement mt t' qg fe bv = Some m')).
Proof.
  induction valid as [|x valid IH]; intros m t m' t' Hrun.
  - injection Hrun as <- <-. split; [lia|]. split; [|by left].
    intros a Ha. by apply elem_of_nil in Ha.
  - cbn [for_each] in Hrun. apply bind_Some in Hrun as ([m1 t1] & Hstep & Hrun).
    unfold best_body in Hstep. apply bind_Some in Hstep as (sx & Hsx & Hstep).
    destruct (IH _ _ _ _ Hrun) as (Hle & Hall & Hwho).
    destruct (Z.ltb_spec m sx) as [Hlt|Hge]; injection Hstep as <- <-.
    + split; [lia|]. split.
      * intros a [->|Ha]%elem_of_cons; [exists sx; split; [done|lia] | by apply Hall].
      * right. destruct Hwho as [[-> ->]|[Hin Hs]].
        -- split; [apply list_elem_of_here | done].
        -- split; [by apply list_elem_of_further | done].
    + split; [lia|]. split.
      * intros a [->|Ha]%elem_of_cons; [exists sx; split; [done|lia] | by apply Hall].
      * destruct Hwho as [[-> ->]|[Hin Hs]]; [by left|].
        right. split; [by apply list_elem_of_further | done].
Qed.

Lemma best_loop_keep mt qg fe bv valid : forall m t m' t',
  (forall a sa, a ∈ valid -> _score_arrangement mt a qg fe bv = Some sa -> (sa <= m)%Z) ->
  for_each (best_body mt qg fe bv) valid (m, t) = Some (m', t') ->
  m' = m /\ t' = t.
Proof.
  induction valid as [|x valid IH]; intros m t m' t' Hall Hrun.
  - by injection Hrun as <- <-.
  - cbn [for_each] in Hrun. apply bind_Some in Hrun as ([m1 t1] & Hstep & Hrun).
    unfold best_body in Hstep. apply bind_Some in Hstep as (sx & Hsx & Hstep).
    pose proof (Hall x sx (list_elem_of_here _ _) Hsx) as Hle.
    rewrite (proj2 (Z.ltb_ge m sx) Hle) in Hstep. injection Hstep as <- <-.
    apply (IH _ _ _ _ (fun a sa Ha => Hall a sa (list_elem_of_further _ _ _ Ha)) Hrun).
Qed.

(** how [orderExpressions] returns on two expressions or more: [k] and [k']
    are the 32-bit counts of the arrangements and of the valid ones *)
Lemma orderExpressions_general mt qg (exps : Arrangement) filters bound_vars out tr :
  2 <= length exps ->
  orderExpressions mt qg exps filters bound_vars = Some (out, tr) ->
  exists arrs k valid k' top0 m top e0 e0',
    _permutations exps = Some arrs /\
    k = Z.to_nat (array_len arrs) /\
    valid = filter (fun a => _valid_arrangement a qg = Some true) (take k arrs) /\
    k' = Z.to_nat (array_len valid) /\ 1 <= k' /\
    valid !! 0 = Some top0 /\
    for_each (best_body mt qg (FilterTree_CollectModified filters) bound_vars)
      (take k' valid) (INT_MIN, top0) = Some (m, top) /\
    resolved_form top !! 0 = Some e0 /\
    _select_entry_point qg e0 (FilterTree_CollectModified filters) bound_vars = Some e0' /\
    out = <[0 := e0']> (resolved_form top).
Proof.
  intros Hn. unfold orderExpressions. cbv zeta.
  destruct exps as [|e rest]; [done|].
  set (exps := e :: rest) in *.
  assert ((0 <? length exps) = true) as -> by done.
  cbn [negb]. change (exps !! 0) with (Some e). cbn [mbind option_bind].
  assert ((length exps =? 1) = false) as -> by (apply Nat.eqb_neq; lia).
  cbn [andb].
  intros Hrun. apply bind_Some in Hrun as (arrs & Harrs & Hrun).
  pose proof (_permutations_Some _ _ Harrs) as (Hperm & Hcount & _).
  apply bind_Some in Hrun as (exps1 & Hexps1 & Hrun).
  apply bind_Some in Hrun as (e0 & He0 & Hrun).
  apply bind_Some in Hrun as (e0' & He0' & Hrun).
  injection Hrun as <- <-.
  assert ((array_len arrs =? 1)%Z = false) as Hmany.
  { apply Z.eqb_neq. intros Hone.
    apply (array_len_fact_1 _ _ Hcount) in Hone. lia. }
  rewrite Hmany in Hexps1.
  apply bind_Some in Hexps1 as (valid & Hvalid & Hexps1).
  destruct (negb (0 <? array_len valid)%Z) eqn:Hpos; [done|].
  apply negb_false_iff, Z.ltb_lt in Hpos.
  apply bind_Some in Hexps1 as (top0 & Htop0 & Hexps1).
  apply bind_Some in Hexps1 as ([m top] & Hbest & Hexps1).
  apply bind_Some in Hexps1 as (copied & Hcopy & Hres).
  apply filter_loop_indexed in Hvalid. apply best_loop_indexed in Hbest.
  pose proof (filter_loop_filter qg _ [] valid Hvalid) as Hv. cbn [app] in Hv.
  assert (top ∈ valid) as Htop.
  { apply (best_loop mt qg (FilterTree_CollectModified filters) bound_vars)
      in Hbest as [->|Hin]; [by eapply list_elem_of_lookup_2|].
    by eapply elem_of_take_in. }
  assert (top ≡ₚ exps) as Htopperm.
  { rewrite Forall_forall in Hperm. apply Hperm.
    rewrite Hv in Htop. apply list_elem_of_filter in Htop as [_ Htop].
    by eapply elem_of_take_in. }
  assert (copied = top) as ->.
  { assert (for_each (copy_body top) (seq 0 (length exps)) exps = Some copied)
      as Hc by exact Hcopy.
    rewrite copy_loop in Hc by (by apply Permutation_length). congruence. }
  rewrite _resolve_winning_sequence_eq in Hres. injection Hres as <-.
  exists arrs, (Z.to_nat (array_len arrs)), valid, (Z.to_nat (array_len valid)),
    top0, m, top, e0, e0'.
  split; [done|]. split; [done|]. split; [done|]. split; [done|].
  split; [lia|]. done.
Qed.

(** X13.  On 2 to 12 expressions the output is the best valid ordering, put
    through phase 1 and phase 2: some permutation [top] of the input passes
    the validity filter, no permutation that passes it has a higher score, and
    the output is [resolved_form top] with its first expression replaced by
    what the entry-point selector makes of it.  (Up to 12 expressions the
    32-bit counters of the loops hold the number of arrangements, [n!].) *)
Theorem orderExpressions_picks_best (maintain_transpose : bool) (qg : QueryGraph)
    (exps : Arrangement) (filters : FT_FilterNode) (bound_vars : option rax)
    (out : Arrangement) (tr : list Event) :
  2 <= length exps <= 12 ->
  orderExpressions maintain_transpose qg exps filters bound_vars = Some (out, tr) ->
  exists top st e0 e0',
    top ≡ₚ exps /\ passes_filter qg top /\
    _score_arrangement maintain_transpose top qg
      (FilterTree_CollectModified filters) bound_vars = Some st /\
    (forall p, p ≡ₚ exps -> passes_filter qg p ->
       exists sp, _score_arrangement maintain_transpose p qg
                    (FilterTree_CollectModified filters) bound_vars = Some sp /\
                  (sp <= st)%Z) /\
    resolved_form top !! 0 = Some e0 /\
    _select_entry_point qg e0 (FilterTree_CollectModified filters) bound_vars = Some e0' /\
    out = <[0 := e0']> (resolved_form top).
Proof.
  intros Hn Hrun.
  assert (2 <= length exps) as Hn2 by lia.
  assert (length exps <= 12) as Hn12 by lia.
  destruct (orderExpressions_general _ _ _ _ _ _ _ Hn2 Hrun)
    as (arrs & k & valid & k' & top0 & m & top & e0 & e0' &
        Harrs & Hk & Hvalid & Hk' & Hpos & Htop0 & Hbest & He0 & Hsel & ->).
  destruct (_permutations_count exps arrs Hn12 Harrs) as [Hlen32 Hsmall].
  apply _permutations_Some in Harrs as (Hperm & _ & Hcomp).
  rewrite Forall_forall in Hperm.
  rewrite Hlen32, Nat2Z.id in Hk. subst k. rewrite firstn_all in Hvalid.
  assert (length valid <= length arrs) as Hvlen.
  { subst valid. apply length_filter. }
  rewrite (array_len_small valid), Nat2Z.id in Hk' by lia. subst k'.
  rewrite firstn_all in Hbest.
  destruct (best_loop_spec _ _ _ _ _ _ _ _ _ Hbest) as (Hmin & Hall & Hwho).
  assert (top0 ∈ valid) as Hin0 by (by eapply list_elem_of_lookup_2).
  assert (top ∈ valid /\
          _score_arrangement maintain_transpose top qg
            (FilterTree_CollectModified filters) bound_vars = Some m) as [Hin Hscore].
  { destruct Hwho as [[-> ->]|[Hin Hs]]; [|done]. split; [done|].
    destruct (Hall top0 Hin0) as (s0 & Hs0 & Hle).
    pose proof (_score_arrangement_in_int _ _ _ _ _ _ Hs0) as [Hlow _].
    rewrite Hs0. f_equal. lia. }
  rewrite Hvalid in Hin. apply list_elem_of_filter in Hin as [Hpass Hin].
  exists top, m, e0, e0'. split; [by apply Hperm|]. split; [done|]. split; [done|].
  split; [|done].
  intros p Hp Hpp. apply Hall. rewrite Hvalid. apply list_elem_of_filter.
  split; [done|]. by apply Hcomp.
Qed.

Lemma _permutations_head (exps : Arrangement) arrs :
  _permutations exps = Some arrs -> arrs !! 0 = Some exps.
Proof.
  destruct exps as [|e exps']; [by vm_compute|].
  set (exps := e :: exps'). unfold _permutations. cbv zeta.
  change (length exps =? 0) with false. cbv iota.
  destruct (_permute _ _ _ _ _) as [[s' out]|] eqn:Hrun; [|done].
  cbn [mbind option_bind].
  destruct (_ =? _)%Z; [|done]. intros [= <-].
  assert (length exps - 1 + 1 = length exps) as Hr by (simpl; lia).
  assert (0 <= length exps - 1) as Hl by lia.
  apply (_permute_head _ _ _ _ [] _ _ Hr Hl Hrun).
Qed.

(** X14.  Ties go to the input order: when the expressions as given pass the
    validity filter and no valid ordering scores strictly higher, the planner
    keeps them in their order; only orientations change (phase 1 and phase 2
    applied to the input itself). *)
Theorem orderExpressions_keeps_order (maintain_transpose : bool) (qg : QueryGraph)
    (exps : Arrangement) (filters : FT_FilterNode) (bound_vars : option rax)
    (s : Z) (out : Arrangement) (tr : list Event) :
  2 <= length exps ->
  passes_filter qg exps ->
  _score_arrangement maintain_transpose exps qg
    (FilterTree_CollectModified filters) bound_vars = Some s ->
  (forall p sp, p ≡ₚ exps -> passes_filter qg p ->
     _score_arrangement maintain_transpose p qg
       (FilterTree_CollectModified filters) bound_vars = Some sp -> (sp <= s)%Z) ->
  orderExpressions maintain_transpose qg exps filters bound_vars = Some (out, tr) ->
  exists e0 e0',
    resolved_form exps !! 0 = Some e0 /\
    _select_entry_point qg e0 (FilterTree_CollectModified filters) bound_vars = Some e0' /\
    out = <[0 := e0']> (resolved_form exps) /\
    Forall2 same_object exps out.
Proof.
  intros Hn Hpass Hs Hmax Hrun.
  destruct (orderExpressions_general _ _ _ _ _ _ _ Hn Hrun)
    as (arrs & k & valid & k' & top0 & m & top & e0 & e0' &
        Harrs & Hk & Hvalid & Hk' & Hpos & Htop0 & Hbest & He0 & Hsel & ->).
  pose proof (_permutations_head _ _ Harrs) as Hhead.
  apply _permutations_Some in Harrs as (Hperm & _ & _).
  rewrite Forall_forall in Hperm.
  destruct arrs as [|a0 arrs']; [done|]. injection Hhead as ->.
  destruct k as [|k].
  { rewrite Hvalid in Htop0. done. }
  cbn [take] in Hvalid. rewrite filter_cons, decide_True in Hvalid by exact Hpass.
  rewrite Hvalid in Htop0. injection Htop0 as <-.
  destruct k' as [|k']; [lia|].
  rewrite Hvalid in Hbest. cbn [take for_each] in Hbest.
  apply bind_Some in Hbest as ([m1 t1] & Hstep & Hbest).
  unfold best_body in Hstep. rewrite Hs in Hstep. cbn [mbind option_bind] in Hstep.
  assert (t1 = exps /\ (s <= m1)%Z) as [-> Hm1].
  { destruct (Z.ltb_spec INT_MIN s); injection Hstep as <- <-; split; (done || lia). }
  apply best_loop_keep in Hbest as [_ ->].
  - exists e0, e0'. split; [done|]. split; [done|]. split; [done|].
    apply Forall2_same_object_insert_0 with e0.
    + done.
    + by eapply _select_entry_point_same_object.
    + apply resolved_form_same_object.
  - intros a sa Ha Hsa. apply elem_of_take_in in Ha.
    apply list_elem_of_filter in Ha as [Hpa Hin]. apply elem_of_take_in in Hin.
    assert (a ≡ₚ exps) as Hp by (apply Hperm; by apply list_elem_of_further).
    pose proof (Hmax a sa Hp Hpa Hsa). lia.
Qed.

End PlannerFacts.

(** * The traverse operator: relation types and cloning *)

Module OperatorFacts.
Import CondVarLenTraverseOp TraverseOperator.

Section relations.

Variable reltypeIDs : QGEdge -> list Z.
Variable reltypes : QGEdge -> list string.
Variable GRAPH_NO_RELATION : Z.
Variable GRAPH_UNKNOWN_RELATION : Z.
Variable GraphContext_GetSchema : string -> option Z.

Lemma relation_loop (e : QGEdge) : forall n k acc,
  length (reltypeIDs e) = k + n ->
  length (reltypes e) = length (reltypeIDs e) ->
  for_each (relation_body reltypeIDs reltypes GRAPH_UNKNOWN_RELATION
              GraphContext_GetSchema e) (seq k n) acc =
  Some (acc ++ omap (relation_id GRAPH_UNKNOWN_RELATION GraphContext_GetSchema)
                 (zip (drop k (reltypeIDs e)) (drop k (reltypes e)))).
Proof.
  induction n as [|n IH]; intros k acc Hk Hlen.
  - cbn [seq for_each]. rewrite !drop_ge by lia. by rewrite app_nil_r.
  - cbn [seq for_each].
    destruct (lookup_lt_is_Some_2 (reltypeIDs e) k) as [id Hid]; [lia|].
    destruct (lookup_lt_is_Some_2 (reltypes e) k) as [name Hname]; [lia|].
    rewrite (drop_S _ _ _ Hid), (drop_S _ _ _ Hname). cbn [zip zip_with omap].
    assert (relation_body reltypeIDs reltypes GRAPH_UNKNOWN_RELATION
              GraphContext_GetSchema e k acc =
            Some (acc ++ option_list
                    (relation_id GRAPH_UNKNOWN_RELATION GraphContext_GetSchema (id, name))))
      as ->.
    { unfold relation_body, relation_id. rewrite Hid. cbn [mbind option_bind fst snd].
      destruct (Z.eqb_spec id GRAPH_UNKNOWN_RELATION) as [->|Hne]; cbn [negb].
      - rewrite bool_decide_eq_true_2 by done.
        rewrite Hname. cbn [mbind option_bind].
        destruct (GraphContext_GetSchema name); cbn [option_list]; [done|].
        by rewrite app_nil_r.
      - by rewrite bool_decide_eq_false_2 by done. }
    cbn [mbind option_bind omap list_omap]. rewrite IH by lia.
    destruct (relation_id _ _ (id, name)); cbn [option_list].
    + by rewrite <- app_assoc.
    + by rewrite app_nil_r.
Qed.

Lemma omap_length_le {A B} (f : A -> option B) (l : list A) :
  length (omap f l) <= length l.
Proof.
  induction l as [|x l IH]; [done|].
  cbn [omap list_omap length]. destruct (f x); cbn [length]; lia.
Qed.

Lemma relation_id_none (ids : list Z) : forall (names : list string),
  length names = length ids ->
  omap (relation_id GRAPH_UNKNOWN_RELATION GraphContext_GetSchema) (zip ids names) = [] <->
  Forall (fun id => id = GRAPH_UNKNOWN_RELATION) ids /\
  Forall (fun name => GraphContext_GetSchema name = None) names.
Proof.
  induction ids as [|id ids IH]; intros [|name names] Hlen; try done.
  cbn [zip zip_with omap list_omap].
  rewrite !Forall_cons. specialize (IH names ltac:(simpl in Hlen; lia)).
  destruct (relation_id _ _ (id, name)) as [rid|] eqn:Hrel;
    unfold relation_id in Hrel; cbn [fst snd] in Hrel;
    destruct (decide (id = GRAPH_UNKNOWN_RELATION)) as [->|Hne].
  - rewrite bool_decide_eq_true_2 in Hrel by done.
    split; [done|]. intros [_ [? _]]. congruence.
  - split; [done|]. tauto.
  - rewrite bool_decide_eq_true_2 in Hrel by done. rewrite IH. tauto.
  - by rewrite bool_decide_eq_false_2 in Hrel by done.
Qed.

(** X15.  What a traversal follows is fixed at the first call to consume.
    With hop bounds out of order [_setupTraversedRelations] does not return.
    Otherwise an edge without relation types is traversed under
    [GRAPH_NO_RELATION] alone; for an edge with relation types the operation
    keeps, in order, every known id and the schema id of every name whose id is
    unknown, leaving out the names the graph has no schema for.  The count is
    the length of that array, and it is zero exactly when the edge names
    relation types and none of them exists. *)
Theorem _setupTraversedRelations_types (plan : ExecutionPlan) (op : CondVarLenTraverse)
    (a : string) (e : QGEdge) :
  AlgebraicExpression_Edge (ae op) = Some a ->
  QueryGraph_GetEdgeByAlias (query_graph plan) a = Some e ->
  ((maxHops e < minHops e)%Z ->
   _setupTraversedRelations reltypeIDs reltypes GRAPH_NO_RELATION GRAPH_UNKNOWN_RELATION
     GraphContext_GetSchema plan op = None) /\
  ((minHops e <= maxHops e)%Z ->
   length (reltypes e) = length (reltypeIDs e) ->
   (Z.of_nat (length (reltypeIDs e)) <= INT_MAX)%Z ->
   let types := traversed_relations GRAPH_NO_RELATION GRAPH_UNKNOWN_RELATION
                  GraphContext_GetSchema (reltypeIDs e) (reltypes e) in
   _setupTraversedRelations reltypeIDs reltypes GRAPH_NO_RELATION GRAPH_UNKNOWN_RELATION
     GraphContext_GetSchema plan op =
   Some (set_edgeRelationTypes op types,
         mkHops (minHops e) (maxHops e) (Z.of_nat (length types))) /\
   length types <= Nat.max 1 (length (reltypeIDs e)) /\
   (length types = 0 <->
    reltypeIDs e <> [] /\
    Forall (fun id => id = GRAPH_UNKNOWN_RELATION) (reltypeIDs e) /\
    Forall (fun name => GraphContext_GetSchema name = None) (reltypes e))).
Proof.
  intros Ha He. unfold _setupTraversedRelations. rewrite Ha. cbn [mbind option_bind].
  rewrite He. cbn [mbind option_bind]. split.
  - intros Hhops. by rewrite (proj2 (Z.leb_gt _ _) Hhops).
  - intros Hhops Hlen Hmax. cbv zeta. rewrite (proj2 (Z.leb_le _ _) Hhops). cbn [negb].
    destruct (reltypeIDs e) as [|id ids] eqn:Hids.
    + cbn. split; [done|]. split; [lia|]. split; [done|]. by intros [? _].
    + rewrite <- Hids in *.
      assert ((length (reltypeIDs e) =? 0) = false) as ->
        by (apply Nat.eqb_neq; rewrite Hids; simpl; lia).
      rewrite (relation_loop e (length (reltypeIDs e)) 0 []) by (done || lia).
      rewrite !drop_0. cbn [app mbind option_bind].
      assert (traversed_relations GRAPH_NO_RELATION GRAPH_UNKNOWN_RELATION
                GraphContext_GetSchema (reltypeIDs e) (reltypes e) =
              omap (relation_id GRAPH_UNKNOWN_RELATION GraphContext_GetSchema)
                (zip (reltypeIDs e) (reltypes e))) as ->
        by (unfold traversed_relations; by rewrite Hids).
      pose proof (omap_length_le (relation_id GRAPH_UNKNOWN_RELATION GraphContext_GetSchema)
                    (zip (reltypeIDs e) (reltypes e))) as Hle.
      rewrite length_zip in Hle.
      split; [|split].
      * rewrite to_int_small; [done|]. unfold in_int, INT_MIN, INT_MAX in *. lia.
      * lia.
      * rewrite length_zero_iff_nil, (relation_id_none _ _ Hlen).
        split; [intros ?; split; [by rewrite Hids | done] | tauto].
Qed.

End relations.

Section cloning.

Variable OpBase_Aware : string -> option Z.
Variable OpBase_Modifies : string -> Z.
Variable AST_AliasIsReferenced : string -> bool.
Variable reltypeIDs : QGEdge -> list Z.
Variable reltypes : QGEdge -> list string.
Variable GRAPH_NO_RELATION : Z.
Variable GRAPH_UNKNOWN_RELATION : Z.
Variable GraphContext_GetSchema : string -> option Z.
Variable AlgebraicExpression_Clone : AlgebraicExpression -> AlgebraicExpression.

(** X16.  Cloning is for plain traversals only.  Once
    [CondVarLenTraverseOp_ExpandInto] has turned an operation into an
    expand-into traverse, [CondVarLenTraverseClone] does not return on it; and
    what [CondVarLenTraverseClone] returns is never an expand-into traverse. *)
Theorem CondVarLenTraverseClone_expand_into (plan : ExecutionPlan) :
  (forall modifies op,
     CondVarLenTraverseClone OpBase_Aware OpBase_Modifies AST_AliasIsReferenced
       AlgebraicExpression_Clone plan (CondVarLenTraverseOp_ExpandInto modifies op).2 = None) /\
  (forall op c,
     CondVarLenTraverseClone OpBase_Aware OpBase_Modifies AST_AliasIsReferenced
       AlgebraicExpression_Clone plan op = Some c ->
     op_type op = OPType_CONDITIONAL_VAR_LEN_TRAVERSE /\
     op_type c = OPType_CONDITIONAL_VAR_LEN_TRAVERSE /\ expandInto c = false).
Proof.
  split; [done|].
  intros op c. unfold CondVarLenTraverseClone.
  destruct (op_type op); [|done]. unfold NewCondVarLenTraverseOp.
  intros Hrun.
  apply bind_Some in Hrun as (idx & _ & Hrun).
  apply bind_Some in Hrun as (al & _ & Hrun).
  apply bind_Some in Hrun as (e & _ & Hrun).
  injection Hrun as <-.
  unfold _setTraverseDirection. cbn [CondVarLenTraverseOp.ae].
  by destruct (bidirectional e),
       (AlgebraicExpression_Transposed (AlgebraicExpression_Clone (ae op))).
Qed.

(** what the constructor returns *)
Lemma NewCondVarLenTraverseOp_Some (plan : ExecutionPlan) (exp : AlgebraicExpression)
    (op : CondVarLenTraverse) :
  NewCondVarLenTraverseOp OpBase_Aware OpBase_Modifies AST_AliasIsReferenced plan exp
    = Some op <->
  exists idx al e,
    OpBase_Aware (AlgebraicExpression_Source exp) = Some idx /\
    AlgebraicExpression_Edge exp = Some al /\
    QueryGraph_GetEdgeByAlias (query_graph plan) al = Some e /\
    op = {| op_type := OPType_CONDITIONAL_VAR_LEN_TRAVERSE;
            op_name := "Conditional Variable Length Traverse";
            ft := None; ae := exp; srcNodeIdx := idx;
            edgesIdx := if AST_AliasIsReferenced (alias e)
                        then OpBase_Modifies (alias e) else (-1)%Z;
            destNodeIdx := OpBase_Modifies (AlgebraicExpression_Destination exp);
            expandInto := false; edgeRelationTypes := None;
            traverseDir := Some (direction_for e exp) |}.
Proof.
  assert (forall e : QGEdge, forall o,
            _setTraverseDirection o e = set_traverseDir o (direction_for e (ae o)))
    as Hdir.
  { intros e o. unfold _setTraverseDirection, direction_for.
    by destruct (bidirectional e), (AlgebraicExpression_Transposed (ae o)). }
  unfold NewCondVarLenTraverseOp. split.
  - intros Hop.
    apply bind_Some in Hop as (idx & Hidx & Hop).
    apply bind_Some in Hop as (al & Hal & Hop).
    apply bind_Some in Hop as (e & He & Hop).
    injection Hop as <-. exists idx, al, e. by rewrite Hdir.
  - intros (idx & al & e & -> & -> & He & ->). cbn [mbind option_bind].
    rewrite He. cbn [mbind option_bind]. by rewrite Hdir.
Qed.

(** X17.  A clone is a fresh operation.  Take an operation as built by the
    constructor, give it a filter and let the first consume set up its
    relation types: as long as cloning an expression keeps its endpoints, its
    edge and its form, [CondVarLenTraverseClone] returns an operation on the
    cloned expression with the same type, record indices and direction, but
    without the filter and without the relation types. *)
Theorem CondVarLenTraverseClone_fresh (plan : ExecutionPlan) (exp : AlgebraicExpression)
    (op op1 op2 : CondVarLenTraverse) (filter : FT_FilterNode) (hops : Hops) :
  (forall e,
     AlgebraicExpression_Source (AlgebraicExpression_Clone e) = AlgebraicExpression_Source e /\
     AlgebraicExpression_Destination (AlgebraicExpression_Clone e) =
       AlgebraicExpression_Destination e /\
     AlgebraicExpression_Edge (AlgebraicExpression_Clone e) = AlgebraicExpression_Edge e /\
     AlgebraicExpression_Transposed (AlgebraicExpression_Clone e) =
       AlgebraicExpression_Transposed e) ->
  NewCondVarLenTraverseOp OpBase_Aware OpBase_Modifies AST_AliasIsReferenced plan exp
    = Some op ->
  CondVarLenTraverseOp_SetFilter (Some op) (Some filter) = Some op1 ->
  _setupTraversedRelations reltypeIDs reltypes GRAPH_NO_RELATION GRAPH_UNKNOWN_RELATION
    GraphContext_GetSchema plan op1 = Some (op2, hops) ->
  exists c,
    CondVarLenTraverseClone OpBase_Aware OpBase_Modifies AST_AliasIsReferenced
      AlgebraicExpression_Clone plan op2 = Some c /\
    ae c = AlgebraicExpression_Clone exp /\
    op_type c = op_type op2 /\ op_name c = op_name op2 /\
    srcNodeIdx c = srcNodeIdx op2 /\ destNodeIdx c = destNodeIdx op2 /\
    edgesIdx c = edgesIdx op2 /\ traverseDir c = traverseDir op2 /\
    expandInto c = false /\
    ft op2 = Some filter /\ ft c = None /\
    is_Some (edgeRelationTypes op2) /\ edgeRelationTypes c = None.
Proof.
  intros Hclone Hop Hop1 Hop2.
  destruct (Hclone exp) as (Hsrc & Hdest & Hedge & Hform).
  apply NewCondVarLenTraverseOp_Some in Hop as (idx & al & e & Hidx & Hal & He & ->).
  cbn in Hop1. injection Hop1 as <-.
  unfold _setupTraversedRelations in Hop2. cbn [CondVarLenTraverseOp.ae] in Hop2.
  rewrite Hal in Hop2. cbn [mbind option_bind] in Hop2.
  rewrite He in Hop2. cbn [mbind option_bind] in Hop2.
  assert (exists types, op2 = set_edgeRelationTypes
            {| op_type := OPType_CONDITIONAL_VAR_LEN_TRAVERSE;
               op_name := "Conditional Variable Length Traverse";
               ft := Some filter; ae := exp; srcNodeIdx := idx;
               edgesIdx := if AST_AliasIsReferenced (alias e)
                           then OpBase_Modifies (alias e) else (-1)%Z;
               destNodeIdx := OpBase_Modifies (AlgebraicExpression_Destination exp);
               expandInto := false; edgeRelationTypes := None;
               traverseDir := Some (direction_for e exp) |}
            types) as [types ->].
  { destruct (negb _); [done|]. cbv zeta in Hop2.
    destruct (_ =? 0).
    - injection Hop2 as <- _. by eexists.
    - apply bind_Some in Hop2 as (types & _ & Hop2). injection Hop2 as <- _.
      by eexists. }
  unfold CondVarLenTraverseClone, set_edgeRelationTypes.
  cbn [CondVarLenTraverseOp.op_type CondVarLenTraverseOp.ae].
  eexists. split.
  { apply NewCondVarLenTraverseOp_Some. exists idx, al, e.
    rewrite Hsrc, Hedge. done. }
  cbn. rewrite Hdest. unfold direction_for. rewrite Hform.
  repeat split. by eexists.
Qed.

End cloning.

End OperatorFacts.

(** * Thread pools: thread ids and pool creation *)

Module PoolFacts.
Import ThreadPools.

Section pools.

Variable threadpool : Type.
Variable pthread_t : Type.
Variable thpool_init : Z -> string -> option threadpool.
Variable thpool_num_threads : threadpool -> Z.
Variable thpool_get_thread_id : threadpool -> pthread_t -> Z.

Local Open Scope Z_scope.

(** X18.  Thread ids index the threads of the reader and writer pools without
    a gap or a clash.  With [R] readers and [W] writers, and a pool library
    that places a thread at [-1] (not in the pool) or below the pool's size,
    every thread gets an id in [0 .. R + W], where [R + W] is what
    [ThreadPools_ThreadCount] returns: a writer at place [i] gets [R + i + 1],
    otherwise a reader at place [i] gets [i + 1], and 0 is the id of exactly
    the threads of neither pool.  Two threads with the same id have the same
    place in the same pool. *)
Theorem ThreadPools_GetThreadID_range (P : Pools threadpool) (readers writers : threadpool) :
  _readers_thpool _ P = Some readers ->
  _writers_thpool _ P = Some writers ->
  0 <= thpool_num_threads readers ->
  0 <= thpool_num_threads writers ->
  thpool_num_threads readers + thpool_num_threads writers < INT_MAX ->
  (forall t, thpool_get_thread_id readers t = -1 \/
             0 <= thpool_get_thread_id readers t < thpool_num_threads readers) ->
  (forall t, thpool_get_thread_id writers t = -1 \/
             0 <= thpool_get_thread_id writers t < thpool_num_threads writers) ->
  ThreadPools_ThreadCount _ thpool_num_threads P =
    Some (thpool_num_threads readers + thpool_num_threads writers) /\
  (forall t, exists id,
     ThreadPools_GetThreadID _ _ thpool_num_threads thpool_get_thread_id P t = Some id /\
     0 <= id <= thpool_num_threads readers + thpool_num_threads writers /\
     (id = 0 <-> thpool_get_thread_id writers t = -1 /\
                 thpool_get_thread_id readers t = -1) /\
     (thpool_get_thread_id writers t <> -1 ->
      id = thpool_num_threads readers + thpool_get_thread_id writers t + 1) /\
     (thpool_get_thread_id writers t = -1 ->
      id = thpool_get_thread_id readers t + 1)) /\
  (forall t1 t2 id,
     ThreadPools_GetThreadID _ _ thpool_num_threads thpool_get_thread_id P t1 = Some id ->
     ThreadPools_GetThreadID _ _ thpool_num_threads thpool_get_thread_id P t2 = Some id ->
     thpool_get_thread_id writers t1 = thpool_get_thread_id writers t2 /\
     (thpool_get_thread_id writers t1 = -1 ->
      thpool_get_thread_id readers t1 = thpool_get_thread_id readers t2)).
Proof.
  intros Hr Hw HR HW Hsum Hrid Hwid.
  assert (forall t,
            ThreadPools_GetThreadID _ _ thpool_num_threads thpool_get_thread_id P t =
            Some (if negb (thpool_get_thread_id writers t =? -1)
                  then thpool_num_threads readers + thpool_get_thread_id writers t + 1
                  else thpool_get_thread_id readers t + 1)) as Hid.
  { intros t. unfold ThreadPools_GetThreadID. rewrite Hr, Hw. cbn [mbind option_bind].
    cbv zeta. specialize (Hrid t). specialize (Hwid t).
    unfold INT_MAX in Hsum.
    rewrite !(to_int_small (thpool_num_threads readers)),
      !(to_int_small (thpool_get_thread_id writers t)),
      !(to_int_small (thpool_get_thread_id readers t))
      by (unfold in_int, INT_MIN, INT_MAX; lia).
    destruct (Z.eqb_spec (thpool_get_thread_id writers t) (-1)) as [Hno|Hyes]; cbn [negb].
    - destruct (Z.eqb_spec (thpool_get_thread_id readers t) (-1)) as [->|Hyes]; cbn [negb].
      + done.
      + rewrite to_int_small by (unfold in_int, INT_MIN, INT_MAX; lia). done.
    - rewrite !to_int_small by
        (rewrite ?to_int_small; unfold in_int, INT_MIN, INT_MAX; lia). done. }
  split; [|split].
  - unfold ThreadPools_ThreadCount. rewrite Hr, Hw. cbn [mbind option_bind]. cbv zeta.
    unfold INT_MAX in Hsum.
    rewrite (to_uint_small (thpool_num_threads readers)) by lia.
    rewrite (to_uint_small (thpool_num_threads writers)) by lia.
    rewrite Z.add_0_l, (to_uint_small (thpool_num_threads readers)) by lia.
    rewrite to_uint_small by lia. done.
  - intros t. eexists. split; [apply Hid|].
    specialize (Hrid t). specialize (Hwid t).
    destruct (Z.eqb_spec (thpool_get_thread_id writers t) (-1)); cbn [negb]; lia.
  - intros t1 t2 id. rewrite !Hid. intros [= <-] [= Heq].
    pose proof (Hrid t1). pose proof (Hrid t2). pose proof (Hwid t1). pose proof (Hwid t2).
    destruct (Z.eqb_spec (thpool_get_thread_id writers t1) (-1)),
      (Z.eqb_spec (thpool_get_thread_id writers t2) (-1)); cbn [negb] in Heq; lia.
Qed.

(** X19.  The pools are created once.  [ThreadPools_CreatePools] returns 1
    exactly when it leaves all three pools set, and 0 otherwise; it does not
    return when a reader or a writer pool is already there.  So after any
    call that got as far as creating the reader pool, successful or not,
    a further call does not return; and after a call that returned 1 the
    thread count and the thread ids can be asked for. *)
Theorem ThreadPools_CreatePools_once (P : Pools threadpool)
    (reader_count writer_count bulk_count : Z) :
  (ThreadPools_CreatePools _ thpool_init P reader_count writer_count bulk_count = None <->
   is_Some (_readers_thpool _ P) \/ is_Some (_writers_thpool _ P)) /\
  (forall rv P',
     ThreadPools_CreatePools _ thpool_init P reader_count writer_count bulk_count
       = Some (rv, P') ->
     (rv = 0 \/ rv = 1) /\
     (rv = 1 <-> is_Some (_readers_thpool _ P') /\ is_Some (_writers_thpool _ P') /\
                 is_Some (_bulk_thpool _ P')) /\
     (is_Some (_readers_thpool _ P') ->
      forall r w b, ThreadPools_CreatePools _ thpool_init P' r w b = None) /\
     (rv = 1 ->
      is_Some (ThreadPools_ThreadCount _ thpool_num_threads P') /\
      forall t, is_Some (ThreadPools_GetThreadID _ _ thpool_num_threads
                           thpool_get_thread_id P' t))).
Proof.
  unfold ThreadPools_CreatePools. cbv zeta. cbn [_readers_thpool _writers_thpool _bulk_thpool].
  destruct (_readers_thpool _ P) as [r0|] eqn:Hr0.
  { split; [split; [intros _; left; by eexists | done] | done]. }
  destruct (_writers_thpool _ P) as [w0|] eqn:Hw0.
  { split; [split; [intros _; right; by eexists | done] | done]. }
  split.
  { split.
    - destruct (thpool_init reader_count _); [|done].
      destruct (thpool_init writer_count _); [|done].
      by destruct (thpool_init bulk_count _).
    - intros [[? ?]|[? ?]]; done. }
  intros rv P'.
  destruct (thpool_init reader_count _) as [r|] eqn:Hr.
  2:{ intros [= <- <-]. cbn. split; [by left|]. split; [|split]; [| |done].
      - split; [done|]. intros [[? ?] _]. done.
      - intros [? ?]. done. }
  destruct (thpool_init writer_count _) as [w|] eqn:Hw.
  2:{ intros [= <- <-]. cbn. split; [by left|]. split; [|split]; [| |done].
      - split; [done|]. intros (_ & [? ?] & _). done.
      - done. }
  destruct (thpool_init bulk_count _) as [b|] eqn:Hb.
  2:{ intros [= <- <-]. cbn. split; [by left|]. split; [|split]; [| |done].
      - split; [done|]. intros (_ & _ & [? ?]). done.
      - done. }
  intros [= <- <-]. cbn. split; [by right|]. split; [|split].
  - split; [|done]. intros _. repeat split; by eexists.
  - done.
  - intros _. split; [by eexists|]. intros t.
    unfold ThreadPools_GetThreadID. cbn.
    destruct (negb _); [by eexists|]. destruct (negb _); by eexists.
Qed.

End pools.

End PoolFacts.

(** * Worked instances of the further properties *)

Module ExtraExamples.
Import TraverseOrder CondVarLenTraverseOp TraverseOperator ThreadPools.

Lemma _swap_exchanges_witness :
  exists s, _swap reorder_exps 0 1 = Some s /\
            s !! 0 = reorder_exps !! 1 /\ s !! 1 = reorder_exps !! 0 /\
            (forall k, k <> 0 -> k <> 1 -> s !! k = reorder_exps !! k) /\
            s ≡ₚ reorder_exps /\
            _swap s 0 1 = Some reorder_exps.
Proof.
  apply (proj1 (PlannerFacts._swap_exchanges reorder_exps 0 1)); simpl; lia.
Defined.

Lemma _permutations_all_witness :
  exists arrs,
    _permutations reorder_exps = Some arrs /\
    _permute (length reorder_exps) reorder_exps 0 (length reorder_exps - 1) []
      = Some (reorder_exps, arrs) /\
    length arrs = fact (length reorder_exps) /\
    (forall p, p ∈ arrs <-> p ≡ₚ reorder_exps) /\
    arrs !! 0 = Some reorder_exps.
Proof.
  apply (proj1 (PlannerFacts._permutations_all reorder_exps)). simpl. lia.
Defined.

Lemma _select_entry_point_idempotent_witness :
  same_object edge_ab (AlgebraicExpression_Transpose edge_ab) /\
  _select_entry_point plain_qg (AlgebraicExpression_Transpose edge_ab) ∅ (Some {["b"]})
    = Some (AlgebraicExpression_Transpose edge_ab).
Proof.
  apply (PlannerFacts._select_entry_point_idempotent plain_qg edge_ab ∅ (Some {["b"]})).
  vm_compute. reflexivity.
Defined.

Lemma bound_endpoint_dominates_witness :
  _reward_expression edge_ab plain_qg ∅ (Some {["a"]}) 1 = Some 32%Z /\
  _reward_expression scan_L1 plain_qg ∅ (Some {["a"]}) 1 = Some 0%Z /\
  (0 < 32)%Z.
Proof.
  split; [vm_compute; reflexivity|]. split; [vm_compute; reflexivity|].
  apply (PlannerFacts.bound_endpoint_dominates plain_qg ∅ (Some {["a"]})
           edge_ab scan_L1 1 32 0).
  - lia.
  - unfold INT_MAX. lia.
  - vm_compute. reflexivity.
  - vm_compute. reflexivity.
  - vm_compute. reflexivity.
  - vm_compute. reflexivity.
Defined.

Lemma _valid_arrangement_orientation_witness :
  _valid_arrangement reorder_out1 reorder_qg = _valid_arrangement reorder_exps reorder_qg.
Proof.
  apply (PlannerFacts._valid_arrangement_orientation reorder_qg reorder_exps reorder_out1).
  - exact Examples.reorder_aliases_present.
  - constructor; [right; reflexivity|].
    constructor; [right; reflexivity|]. constructor.
Defined.

Lemma orderExpressions_opener_witness : opener_rule reorder_qg reorder_out1.
Proof.
  apply (PlannerFacts.orderExpressions_opener true reorder_qg reorder_exps
           reorder_filters None reorder_out1 (planner_trace 2)).
  - simpl. lia.
  - vm_compute. reflexivity.
Defined.

Lemma orderExpressions_fails_witness :
  orderExpressions true reorder_qg
    [mkAE 1 "a" "b" (Some "r1") 2 0 false; mkAE 2 "c" "c" None 1 0 false]
    reorder_filters None = None.
Proof.
  apply (proj2 (PlannerFacts.orderExpressions_fails true reorder_qg reorder_filters None)).
  - simpl. lia.
  - intros p Hp Hpass.
    apply Permutation_sym, Permutation_length_2_inv in Hp as [->| ->];
      vm_compute in Hpass; discriminate.
Defined.

Lemma orderExpressions_picks_best_witness :
  exists top st e0 e0',
    top ≡ₚ reorder_exps /\ passes_filter reorder_qg top /\
    _score_arrangement true top reorder_qg
      (FilterTree_CollectModified reorder_filters) None = Some st /\
    (forall p, p ≡ₚ reorder_exps -> passes_filter reorder_qg p ->
       exists sp, _score_arrangement true p reorder_qg
                    (FilterTree_CollectModified reorder_filters) None = Some sp /\
                  (sp <= st)%Z) /\
    resolved_form top !! 0 = Some e0 /\
    _select_entry_point reorder_qg e0 (FilterTree_CollectModified reorder_filters) None
      = Some e0' /\
    reorder_out1 = <[0 := e0']> (resolved_form top).
Proof.
  apply (PlannerFacts.orderExpressions_picks_best true reorder_qg reorder_exps
           reorder_filters None reorder_out1 (planner_trace 2)).
  - simpl. lia.
  - vm_compute. reflexivity.
Defined.

Lemma orderExpressions_keeps_order_witness :
  exists e0 e0',
    resolved_form reorder_exps !! 0 = Some e0 /\
    _select_entry_point reorder_qg e0 (FilterTree_CollectModified reorder_filters) None
      = Some e0' /\
    reorder_out1 = <[0 := e0']> (resolved_form reorder_exps) /\
    Forall2 same_object reorder_exps reorder_out1.
Proof.
  apply (PlannerFacts.orderExpressions_keeps_order true reorder_qg reorder_exps
           reorder_filters None 16 reorder_out1 (planner_trace 2)).
  - simpl. lia.
  - vm_compute. reflexivity.
  - vm_compute. reflexivity.
  - intros p sp Hp _ Hs.
    apply Permutation_sym, Permutation_length_2_inv in Hp as [->| ->];
      vm_compute in Hs; injection Hs as <-; lia.
  - vm_compute. reflexivity.
Defined.

(** an edge with one known relation type and two names to look up, of which
    the graph knows [B] *)
Lemma _setupTraversedRelations_types_witness :
  let reltypeIDs := fun _ : QGEdge => [5; -2; -2]%Z in
  let reltypes := fun _ : QGEdge => ["A"; "B"; "C"] in
  let schema := fun name : string => if String.eqb name "B" then Some 7%Z else None in
  let op := mkOp OPType_CONDITIONAL_VAR_LEN_TRAVERSE "Conditional Variable Length Traverse"
              None (mkAE 1 "a" "b" (Some "r1") 1 0 false) 0 (-1) 1 false None
              (Some GRAPH_EDGE_DIR_OUTGOING) in
  _setupTraversedRelations reltypeIDs reltypes (-1) (-2) schema traverse_plan op =
  Some (set_edgeRelationTypes op [5; 7]%Z, mkHops 1 3 2).
Proof.
  intros reltypeIDs reltypes schema op.
  destruct (OperatorFacts._setupTraversedRelations_types reltypeIDs reltypes (-1) (-2)
              schema traverse_plan op "r1" (mkEdge "r1" false 1 3)) as [_ Hsetup].
  - reflexivity.
  - vm_compute. reflexivity.
  - destruct Hsetup as [Hrun _].
    + simpl. lia.
    + reflexivity.
    + unfold INT_MAX. simpl. lia.
    + exact Hrun.
Defined.

Lemma CondVarLenTraverseClone_fresh_witness :
  let aware := fun _ : string => Some 0%Z in
  let modifies := fun _ : string => 1%Z in
  let referenced := fun _ : string => false in
  let reltypeIDs := fun _ : QGEdge => [5]%Z in
  let reltypes := fun _ : QGEdge => ["A"] in
  let schema := fun _ : string => @None Z in
  let clone := fun e : AlgebraicExpression =>
    mkAE (S (ae_id e)) (ae_source e) (ae_destination e) (ae_edge e)
      (ae_operand_count e) (ae_transpose_count e) (ae_transposed e) in
  let exp := mkAE 1 "b" "a" (Some "r1") 1 1 true in
  let op := mkOp OPType_CONDITIONAL_VAR_LEN_TRAVERSE "Conditional Variable Length Traverse"
              None exp 0 (-1) 1 false None (Some GRAPH_EDGE_DIR_INCOMING) in
  let op1 := mkOp OPType_CONDITIONAL_VAR_LEN_TRAVERSE "Conditional Variable Length Traverse"
               (Some (mkFilters ["r1"])) exp 0 (-1) 1 false None
               (Some GRAPH_EDGE_DIR_INCOMING) in
  let op2 := set_edgeRelationTypes op1 [5]%Z in
  exists c,
    CondVarLenTraverseClone aware modifies referenced clone traverse_plan op2 = Some c /\
    ae c = clone exp /\
    op_type c = op_type op2 /\ op_name c = op_name op2 /\
    srcNodeIdx c = srcNodeIdx op2 /\ destNodeIdx c = destNodeIdx op2 /\
    edgesIdx c = edgesIdx op2 /\ traverseDir c = traverseDir op2 /\
    expandInto c = false /\
    ft op2 = Some (mkFilters ["r1"]) /\ ft c = None /\
    is_Some (edgeRelationTypes op2) /\ edgeRelationTypes c = None.
Proof.
  intros aware modifies referenced reltypeIDs reltypes schema clone exp op op1 op2.
  apply (OperatorFacts.CondVarLenTraverseClone_fresh aware modifies referenced
           reltypeIDs reltypes (-1) (-2) schema clone traverse_plan exp op op1 op2
           (mkFilters ["r1"]) (mkHops 1 3 1)).
  - intros e. repeat split.
  - vm_compute. reflexivity.
  - reflexivity.
  - vm_compute. reflexivity.
Defined.

(** two readers, the threads 10 and 11, and three writers, the threads 20 to
    22; a pool is given by its first thread and its size *)
Lemma ThreadPools_GetThreadID_range_witness :
  let num := fun p : Z * Z => p.2 in
  let place := fun (p : Z * Z) (t : Z) =>
    (if (p.1 <=? t) && (t <? p.1 + p.2) then t - p.1 else -1)%Z in
  let P := mkPools (Z * Z) None (Some (10, 2)%Z) (Some (20, 3)%Z) in
  ThreadPools_ThreadCount _ num P = Some 5%Z /\
  ThreadPools_GetThreadID _ _ num place P 21%Z = Some 4%Z /\
  ThreadPools_GetThreadID _ _ num place P 11%Z = Some 2%Z /\
  ThreadPools_GetThreadID _ _ num place P 0%Z = Some 0%Z.
Proof.
  intros num place P.
  destruct (PoolFacts.ThreadPools_GetThreadID_range (Z * Z) Z num place P
              (10, 2)%Z (20, 3)%Z) as (Hcount & _ & _).
  - reflexivity.
  - reflexivity.
  - simpl. lia.
  - simpl. lia.
  - unfold INT_MAX. simpl. lia.
  - intros t. unfold place, num. cbn [fst snd].
    destruct (Z.leb_spec 10 t), (Z.ltb_spec t (10 + 2)); cbn [andb]; lia.
  - intros t. unfold place, num. cbn [fst snd].
    destruct (Z.leb_spec 20 t), (Z.ltb_spec t (20 + 3)); cbn [andb]; lia.
  - split; [exact Hcount|]. repeat split; vm_compute; reflexivity.
Defined.

End ExtraExamples.
